(** * FustGo: a shallow embedding of the core runtime

    This development embeds the core of the FustGo data synchronisation
    engine (job manager, task queue, worker pool, checkpoint manager,
    configuration converter and concurrent pipeline) and states its
    specified properties over the embedding.

    Conventions.
    - Go [int]/[int64] values are [Z]; wall-clock instants ([time.Time]) are
      [Z] as well, and every call of [time.Now()] is an explicit argument.
    - Go [error] values are inductive types, one constructor per
      [fmt.Errorf] site, [None] standing for [nil]; [Error] renders the
      message the Go code builds.
    - Go maps are stdpp [gmap]s; pointers that matter for a property are
      locations in an explicit heap.
    - Interfaces ([database.MetadataStore], [checkpoint.Storage], plugins)
      are type classes or records of functions over an abstract state. *)

From Stdlib Require Import ZArith QArith.
From stdpp Require Import base option list sorting gmap strings.

Local Open Scope string_scope.
Local Open Scope list_scope.
Local Open Scope Z_scope.

(** Wall-clock instants. *)
Definition Time := Z.

(* ===================================================================== *)
(** * Package [models] *)
(* ===================================================================== *)

Module models.

Definition JobStatus := string.

Definition JobStatusDraft : JobStatus := "draft".
Definition JobStatusReady : JobStatus := "ready".
Definition JobStatusRunning : JobStatus := "running".
Definition JobStatusPaused : JobStatus := "paused".
Definition JobStatusCompleted : JobStatus := "completed".
Definition JobStatusFailed : JobStatus := "failed".

(** A parsed YAML node; [map[string]interface{}] is a map of such nodes. *)
#[warnings="-register-all"]
Inductive YamlNode :=
| YScalar (s : string)
| YSeq (items : list YamlNode)
| YMapping (fields : list (string * YamlNode)).

Record Job := mkJob {
  JobID : string;
  JobName : string;
  JobType : string;
  Description : string;
  ConfigYAML : string;
  FlowDiagram : string;
  SchedulingConfig : string;
  Status : JobStatus;
  CreatedBy : string;
  CreatedAt : Time;
  UpdatedAt : Time;
  Enabled : bool;
  Priority : Z;
  RetryPolicy : string;
  Config : option (gmap string YamlNode)
}.

Definition set_JobID (v : string) (j : Job) : Job :=
  mkJob v (JobName j) (JobType j) (Description j) (ConfigYAML j)
    (FlowDiagram j) (SchedulingConfig j) (Status j) (CreatedBy j)
    (CreatedAt j) (UpdatedAt j) (Enabled j) (Priority j) (RetryPolicy j)
    (Config j).

Definition set_Status (v : JobStatus) (j : Job) : Job :=
  mkJob (JobID j) (JobName j) (JobType j) (Description j) (ConfigYAML j)
    (FlowDiagram j) (SchedulingConfig j) v (CreatedBy j)
    (CreatedAt j) (UpdatedAt j) (Enabled j) (Priority j) (RetryPolicy j)
    (Config j).

Definition set_CreatedAt (v : Time) (j : Job) : Job :=
  mkJob (JobID j) (JobName j) (JobType j) (Description j) (ConfigYAML j)
    (FlowDiagram j) (SchedulingConfig j) (Status j) (CreatedBy j)
    v (UpdatedAt j) (Enabled j) (Priority j) (RetryPolicy j)
    (Config j).

Definition set_UpdatedAt (v : Time) (j : Job) : Job :=
  mkJob (JobID j) (JobName j) (JobType j) (Description j) (ConfigYAML j)
    (FlowDiagram j) (SchedulingConfig j) (Status j) (CreatedBy j)
    (CreatedAt j) v (Enabled j) (Priority j) (RetryPolicy j)
    (Config j).

Definition set_Config (v : option (gmap string YamlNode)) (j : Job) : Job :=
  mkJob (JobID j) (JobName j) (JobType j) (Description j) (ConfigYAML j)
    (FlowDiagram j) (SchedulingConfig j) (Status j) (CreatedBy j)
    (CreatedAt j) (UpdatedAt j) (Enabled j) (Priority j) (RetryPolicy j)
    v.

Definition WorkerStatus := string.

Definition WorkerStatusOnline : WorkerStatus := "online".
Definition WorkerStatusOffline : WorkerStatus := "offline".
Definition WorkerStatusBusy : WorkerStatus := "busy".

Record Worker := mkWorker {
  WorkerID : string;
  Hostname : string;
  IPAddress : string;
  Port : Z;
  WStatus : WorkerStatus;
  CPUCores : Z;
  MemoryMB : Z;
  LastHeartbeat : Time;
  RegisteredAt : Time
}.

Definition set_LastHeartbeat (v : Time) (w : Worker) : Worker :=
  mkWorker (WorkerID w) (Hostname w) (IPAddress w) (Port w) (WStatus w)
    (CPUCores w) (MemoryMB w) v (RegisteredAt w).

Definition set_WStatus (v : WorkerStatus) (w : Worker) : Worker :=
  mkWorker (WorkerID w) (Hostname w) (IPAddress w) (Port w) v
    (CPUCores w) (MemoryMB w) (LastHeartbeat w) (RegisteredAt w).

(** [IsHealthy]: [time.Since(w.LastHeartbeat) < timeout], the clock
    reading [now]. *)
Definition IsHealthy (now : Time) (timeout : Z) (w : Worker) : bool :=
  (now - LastHeartbeat w <? timeout)%Z.

End models.

(* ===================================================================== *)
(** * Package [database]: the metadata store interface *)
(* ===================================================================== *)

Module database.
Import models.

(** An error reported by a store implementation, with its message. *)
Definition StoreErr := string.

(** [database.MetadataStore], restricted to the job and worker rows.  A
    store is a state [S]; a write returns the error (or [None]) and the
    next state, a read returns the row or an error. *)
Class MetadataStore (S : Type) := {
  SaveJob : Job -> S -> option StoreErr * S;
  GetJob : string -> S -> Job + StoreErr;
  UpdateJob : Job -> Time -> S -> option StoreErr * S;
  DeleteJob : string -> S -> option StoreErr * S;
  RegisterWorker : Worker -> S -> option StoreErr * S;
  UpdateWorkerHeartbeat : string -> Time -> S -> option StoreErr * S;
  GetWorker : string -> S -> Worker + StoreErr;
  UnregisterWorker : string -> S -> option StoreErr * S
}.

(** The rows of [SQLiteStore]: table [jobs] and table [workers], keyed by
    their primary keys. *)
Record SQLiteStore := mkSQLite {
  jobs_table : gmap string Job;
  workers_table : gmap string Worker
}.

Definition sqlite_empty : SQLiteStore := mkSQLite ∅ ∅.

(** [INSERT INTO jobs]: a second row with the same primary key is refused;
    the parsed [Config] is not a column. *)
Definition sqlite_SaveJob (job : Job) (s : SQLiteStore) : option StoreErr * SQLiteStore :=
  match jobs_table s !! JobID job with
  | Some _ => (Some "UNIQUE constraint failed: jobs.job_id", s)
  | None => (None, mkSQLite (<[JobID job := set_Config None job]> (jobs_table s)) (workers_table s))
  end.

Definition sqlite_GetJob (jobID : string) (s : SQLiteStore) : Job + StoreErr :=
  match jobs_table s !! jobID with
  | Some j => inl j
  | None => inr (String.append "job not found: " jobID)
  end.

(** [UPDATE jobs SET ... WHERE job_id = ?]: every column but [job_id] and
    [created_at]; [updated_at] is the store's own [time.Now()]. *)
Definition sqlite_UpdateJob (job : Job) (now : Time) (s : SQLiteStore) : option StoreErr * SQLiteStore :=
  match jobs_table s !! JobID job with
  | Some old =>
      (None, mkSQLite (<[JobID job :=
          set_Config None (set_UpdatedAt now (set_CreatedAt (CreatedAt old) job))]> (jobs_table s))
        (workers_table s))
  | None => (None, s)
  end.

Definition sqlite_DeleteJob (jobID : string) (s : SQLiteStore) : option StoreErr * SQLiteStore :=
  (None, mkSQLite (delete jobID (jobs_table s)) (workers_table s)).

(** [INSERT OR REPLACE INTO workers]. *)
Definition sqlite_RegisterWorker (w : Worker) (s : SQLiteStore) : option StoreErr * SQLiteStore :=
  (None, mkSQLite (jobs_table s) (<[WorkerID w := w]> (workers_table s))).

(** [UPDATE workers SET last_heartbeat = ?, status = ? WHERE worker_id = ?]
    with [time.Now()] and [WorkerStatusOnline]. *)
Definition sqlite_UpdateWorkerHeartbeat (workerID : string) (now : Time) (s : SQLiteStore)
  : option StoreErr * SQLiteStore :=
  match workers_table s !! workerID with
  | Some w =>
      (None, mkSQLite (jobs_table s)
        (<[workerID := set_WStatus WorkerStatusOnline (set_LastHeartbeat now w)]> (workers_table s)))
  | None => (None, s)
  end.

Definition sqlite_GetWorker (workerID : string) (s : SQLiteStore) : Worker + StoreErr :=
  match workers_table s !! workerID with
  | Some w => inl w
  | None => inr (String.append "worker not found: " workerID)
  end.

Definition sqlite_UnregisterWorker (workerID : string) (s : SQLiteStore) : option StoreErr * SQLiteStore :=
  (None, mkSQLite (jobs_table s) (delete workerID (workers_table s))).

#[global] Instance SQLiteStore_MetadataStore : MetadataStore SQLiteStore := {
  SaveJob := sqlite_SaveJob;
  GetJob := sqlite_GetJob;
  UpdateJob := sqlite_UpdateJob;
  DeleteJob := sqlite_DeleteJob;
  RegisterWorker := sqlite_RegisterWorker;
  UpdateWorkerHeartbeat := sqlite_UpdateWorkerHeartbeat;
  GetWorker := sqlite_GetWorker;
  UnregisterWorker := sqlite_UnregisterWorker
}.

End database.

(* ===================================================================== *)
(** * Package [jobmanager] *)
(* ===================================================================== *)

Module jobmanager.
Import models.

(** The errors [Manager] returns; [cause] is the error wrapped by [%w]. *)
Inductive error :=
| ErrJobNotFound (cause : database.StoreErr)
| ErrInvalidJobConfiguration (cause : error)
| ErrFailedToSaveJob (cause : database.StoreErr)
| ErrFailedToUpdateJob (cause : database.StoreErr)
| ErrFailedToUpdateJobStatus (cause : database.StoreErr)
| ErrFailedToDeleteJob (cause : database.StoreErr)
| ErrCannotDeleteRunning
| ErrCannotStartFrom (status : JobStatus)
| ErrAlreadyRunning
| ErrCannotStopIn (status : JobStatus)
| ErrNoValidTransitions (from : JobStatus)
| ErrInvalidStateTransition (from to : JobStatus)
| ErrJobNameRequired
| ErrConfigurationRequired
| ErrInvalidYAML (cause : string)
| ErrMissingInputSection
| ErrMissingOutputSection
| ErrNotCached
| ErrNotRunning.

(** [err.Error()]. *)
Fixpoint Error (e : error) : string :=
  match e with
  | ErrJobNotFound c => String.append "job not found: " c
  | ErrInvalidJobConfiguration c => String.append "invalid job configuration: " (Error c)
  | ErrFailedToSaveJob c => String.append "failed to save job: " c
  | ErrFailedToUpdateJob c => String.append "failed to update job: " c
  | ErrFailedToUpdateJobStatus c => String.append "failed to update job status: " c
  | ErrFailedToDeleteJob c => String.append "failed to delete job: " c
  | ErrCannotDeleteRunning => "cannot delete running job, stop it first"
  | ErrCannotStartFrom s => String.append "cannot start job from status " s
  | ErrAlreadyRunning => "job is already running"
  | ErrCannotStopIn s => String.append "cannot stop job in status " s
  | ErrNoValidTransitions f => String.append "no valid transitions from status " f
  | ErrInvalidStateTransition f t =>
      String.append "invalid state transition from " (String.append f (String.append " to " t))
  | ErrJobNameRequired => "job name is required"
  | ErrConfigurationRequired => "configuration is required"
  | ErrInvalidYAML c => String.append "invalid YAML configuration: " c
  | ErrMissingInputSection => "configuration must have 'input' section"
  | ErrMissingOutputSection => "configuration must have 'output' section"
  | ErrNotCached => "job not found"
  | ErrNotRunning => "job is not running"
  end.

(** A cancellation scope made by [context.WithCancel]: its identity. *)
Definition Ctx := nat.

Record JobInstance := mkInstance {
  iJob : Job;
  iStatus : JobStatus;
  iUpdatedAt : Time;
  iCtx : option Ctx;
  iCancel : option Ctx
}.

(** [Manager]: the store, the cache and the running set.  [ctx_next] and
    [ctx_cancelled] stand for the Go runtime's contexts: the next fresh
    scope and the scopes whose [cancel] has been called. *)
Record Manager (S : Type) := mkManager {
  store : S;
  jobs : gmap string JobInstance;
  running : gmap string Ctx;
  ctx_next : Ctx;
  ctx_cancelled : gset Ctx
}.
Arguments mkManager {S}.
Arguments store {S}.
Arguments jobs {S}.
Arguments running {S}.
Arguments ctx_next {S}.
Arguments ctx_cancelled {S}.

Definition NewManager {S} (st : S) : Manager S := mkManager st ∅ ∅ 0%nat ∅.

(** The [validTransitions] map literal of [validateStateTransition]. *)
Definition validTransitions : gmap JobStatus (list JobStatus) :=
  <[JobStatusDraft := [JobStatusReady]]>
  (<[JobStatusReady := [JobStatusRunning; JobStatusDraft]]>
  (<[JobStatusRunning := [JobStatusPaused; JobStatusCompleted; JobStatusFailed]]>
  (<[JobStatusPaused := [JobStatusRunning; JobStatusCompleted]]>
  (<[JobStatusCompleted := [JobStatusReady]]>
  (<[JobStatusFailed := [JobStatusReady]]> ∅))))).

(** The loop [for _, status := range allowed]. *)
Fixpoint range_allowed (allowed : list JobStatus) (from to : JobStatus) : option error :=
  match allowed with
  | [] => Some (ErrInvalidStateTransition from to)
  | status :: rest => if decide (status = to) then None else range_allowed rest from to
  end.

Definition validateStateTransition (from to : JobStatus) : option error :=
  match validTransitions !! from with
  | None => Some (ErrNoValidTransitions from)
  | Some allowed => range_allowed allowed from to
  end.

Section WithYaml.

(** [yaml.Unmarshal] into a [map[string]interface{}] (gopkg.in/yaml.v3):
    the parsed top-level mapping, or the parser's message. *)
Variable yaml_Unmarshal : string -> gmap string YamlNode + string.

(** [validateJobConfig] returns its error and the job, whose [Config] it
    sets once the text has parsed. *)
Definition validateJobConfig (job : Job) : option error * Job :=
  if decide (JobName job = "") then (Some ErrJobNameRequired, job)
  else if decide (ConfigYAML job = "") then (Some ErrConfigurationRequired, job)
  else match yaml_Unmarshal (ConfigYAML job) with
       | inr msg => (Some (ErrInvalidYAML msg), job)
       | inl config =>
           let job := set_Config (Some config) job in
           match config !! "input" with
           | None => (Some ErrMissingInputSection, job)
           | Some _ =>
               match config !! "output" with
               | None => (Some ErrMissingOutputSection, job)
               | Some _ => (None, job)
               end
           end
       end.

Context {S : Type} `{!database.MetadataStore S}.

(** [CreateJob]; [uuid] is the value of [uuid.New().String()] and [now] of
    [time.Now()].  The caller's job object is mutated on every path, so it
    is returned next to the error. *)
Definition CreateJob (uuid : string) (now : Time) (job : Job) (m : Manager S)
  : option error * Job * Manager S :=
  let job := if decide (JobID job = "") then set_JobID uuid job else job in
  let job := if decide (Status job = "") then set_Status JobStatusDraft job else job in
  let job := set_UpdatedAt now (set_CreatedAt now job) in
  match validateJobConfig job with
  | (Some err, job) => (Some (ErrInvalidJobConfiguration err), job, m)
  | (None, job) =>
      match database.SaveJob job (store m) with
      | (Some err, st) =>
          (Some (ErrFailedToSaveJob err), job,
           mkManager st (jobs m) (running m) (ctx_next m) (ctx_cancelled m))
      | (None, st) =>
          (None, job,
           mkManager st
             (<[JobID job := mkInstance job (Status job) now None None]> (jobs m))
             (running m) (ctx_next m) (ctx_cancelled m))
      end
  end.

(** The cache refresh shared by the lifecycle operations:
    [if instance, exists := m.jobs[id]; exists { instance.Job = job; ... }]. *)
Definition refresh_instance (job : Job) (jobs : gmap string JobInstance)
  : gmap string JobInstance :=
  match jobs !! JobID job with
  | Some instance =>
      <[JobID job := mkInstance job (Status job) (UpdatedAt job) (iCtx instance) (iCancel instance)]> jobs
  | None => jobs
  end.

(** [UpdateJob]; [now] is the manager's clock reading, [now_db] the one the
    store takes for its own row. *)
Definition UpdateJob (now now_db : Time) (job : Job) (m : Manager S)
  : option error * Job * Manager S :=
  match database.GetJob (JobID job) (store m) with
  | inr err => (Some (ErrJobNotFound err), job, m)
  | inl existing =>
      match (if decide (Status job = Status existing) then None
             else validateStateTransition (Status existing) (Status job)) with
      | Some err => (Some err, job, m)
      | None =>
          let job := set_UpdatedAt now job in
          match (if decide (ConfigYAML job = ConfigYAML existing) then (None, job)
                 else validateJobConfig job) with
          | (Some err, job) => (Some (ErrInvalidJobConfiguration err), job, m)
          | (None, job) =>
              match database.UpdateJob job now_db (store m) with
              | (Some err, st) =>
                  (Some (ErrFailedToUpdateJob err), job,
                   mkManager st (jobs m) (running m) (ctx_next m) (ctx_cancelled m))
              | (None, st) =>
                  (None, job,
                   mkManager st (refresh_instance job (jobs m)) (running m)
                     (ctx_next m) (ctx_cancelled m))
              end
          end
      end
  end.

Definition DeleteJob (jobID : string) (m : Manager S) : option error * Manager S :=
  match database.GetJob jobID (store m) with
  | inr err => (Some (ErrJobNotFound err), m)
  | inl job =>
      if decide (Status job = JobStatusRunning) then (Some ErrCannotDeleteRunning, m)
      else match database.DeleteJob jobID (store m) with
           | (Some err, st) =>
               (Some (ErrFailedToDeleteJob err),
                mkManager st (jobs m) (running m) (ctx_next m) (ctx_cancelled m))
           | (None, st) =>
               (None, mkManager st (delete jobID (jobs m)) (running m)
                        (ctx_next m) (ctx_cancelled m))
           end
  end.

Definition StartJob (now now_db : Time) (jobID : string) (m : Manager S)
  : option error * Manager S :=
  match database.GetJob jobID (store m) with
  | inr err => (Some (ErrJobNotFound err), m)
  | inl job =>
      if decide (Status job = JobStatusRunning) then (Some (ErrCannotStartFrom (Status job)), m)
      else match validateStateTransition (Status job) JobStatusRunning with
      | Some err => (Some err, m)
      | None =>
          match running m !! jobID with
          | Some _ => (Some ErrAlreadyRunning, m)
          | None =>
              let job := set_UpdatedAt now (set_Status JobStatusRunning job) in
              match database.UpdateJob job now_db (store m) with
              | (Some err, st) =>
                  (Some (ErrFailedToUpdateJobStatus err),
                   mkManager st (jobs m) (running m) (ctx_next m) (ctx_cancelled m))
              | (None, st) =>
                  let ctx := ctx_next m in
                  (* both branches of the cache update store the same instance *)
                  (None,
                   mkManager st
                     (<[jobID := mkInstance job (Status job) (UpdatedAt job) (Some ctx) (Some ctx)]>
                        (jobs m))
                     (<[jobID := ctx]> (running m))
                     (Datatypes.S ctx) (ctx_cancelled m))
              end
          end
      end
  end.

Definition StopJob (now now_db : Time) (jobID : string) (m : Manager S)
  : option error * Manager S :=
  match database.GetJob jobID (store m) with
  | inr err => (Some (ErrJobNotFound err), m)
  | inl job =>
      if decide (Status job ≠ JobStatusRunning ∧ Status job ≠ JobStatusPaused)
      then (Some (ErrCannotStopIn (Status job)), m)
      else
        let '(running', cancelled') :=
          match running m !! jobID with
          | Some cancel => (delete jobID (running m), {[cancel]} ∪ ctx_cancelled m)
          | None => (running m, ctx_cancelled m)
          end in
        let job := set_UpdatedAt now (set_Status JobStatusCompleted job) in
        match database.UpdateJob job now_db (store m) with
        | (Some err, st) =>
            (Some (ErrFailedToUpdateJobStatus err),
             mkManager st (jobs m) running' (ctx_next m) cancelled')
        | (None, st) =>
            (None,
             mkManager st
               (match jobs m !! jobID with
                | Some _ => <[jobID := mkInstance job (Status job) (UpdatedAt job) None None]> (jobs m)
                | None => jobs m
                end)
               running' (ctx_next m) cancelled')
        end
  end.

(** [PauseJob] and [ResumeJob] differ in the target status only. *)
Definition transitionJob (target : JobStatus) (now now_db : Time) (jobID : string) (m : Manager S)
  : option error * Manager S :=
  match database.GetJob jobID (store m) with
  | inr err => (Some (ErrJobNotFound err), m)
  | inl job =>
      match validateStateTransition (Status job) target with
      | Some err => (Some err, m)
      | None =>
          let job := set_UpdatedAt now (set_Status target job) in
          match database.UpdateJob job now_db (store m) with
          | (Some err, st) =>
              (Some (ErrFailedToUpdateJobStatus err),
               mkManager st (jobs m) (running m) (ctx_next m) (ctx_cancelled m))
          | (None, st) =>
              (None,
               mkManager st
                 (match jobs m !! jobID with
                  | Some instance =>
                      <[jobID := mkInstance job (Status job) (UpdatedAt job)
                                   (iCtx instance) (iCancel instance)]> (jobs m)
                  | None => jobs m
                  end)
                 (running m) (ctx_next m) (ctx_cancelled m))
          end
      end
  end.

Definition PauseJob := transitionJob JobStatusPaused.
Definition ResumeJob := transitionJob JobStatusRunning.

(** One lifecycle request, with the clock readings it will see. *)
Inductive request :=
| ReqUpdate (now now_db : Time) (job : Job)
| ReqStart (now now_db : Time) (jobID : string)
| ReqStop (now now_db : Time) (jobID : string)
| ReqPause (now now_db : Time) (jobID : string)
| ReqResume (now now_db : Time) (jobID : string).

Definition serve (r : request) (m : Manager S) : option error * Manager S :=
  match r with
  | ReqUpdate now now_db job => let '(e, _, m') := UpdateJob now now_db job m in (e, m')
  | ReqStart now now_db id => StartJob now now_db id m
  | ReqStop now now_db id => StopJob now now_db id m
  | ReqPause now now_db id => PauseJob now now_db id m
  | ReqResume now now_db id => ResumeJob now now_db id m
  end.

(** The job a request is about and the status it asks for. *)
Definition request_job (r : request) : string :=
  match r with
  | ReqUpdate _ _ job => JobID job
  | ReqStart _ _ id | ReqStop _ _ id | ReqPause _ _ id | ReqResume _ _ id => id
  end.

Definition request_to (r : request) : JobStatus :=
  match r with
  | ReqUpdate _ _ job => Status job
  | ReqStart _ _ _ | ReqResume _ _ _ => JobStatusRunning
  | ReqStop _ _ _ => JobStatusCompleted
  | ReqPause _ _ _ => JobStatusPaused
  end.

(** The status change a request attempts on the persisted job: from the
    stored status to the requested one.  An update that carries the stored
    status asks for no change. *)
Definition attempted (r : request) (m : Manager S) : option (JobStatus * JobStatus) :=
  match database.GetJob (request_job r) (store m) with
  | inr _ => None
  | inl job =>
      match r with
      | ReqUpdate _ _ j =>
          if decide (Status j = Status job) then None else Some (Status job, Status j)
      | _ => Some (Status job, request_to r)
      end
  end.

(** Serving a sequence of requests, logging each accepted status change. *)
Fixpoint serve_all (rs : list request) (m : Manager S)
  : list (JobStatus * JobStatus) * Manager S :=
  match rs with
  | [] => ([], m)
  | r :: rs' =>
      let '(e, m') := serve r m in
      let '(log, m'') := serve_all rs' m' in
      (match e, attempted r m with
       | None, Some tr => tr :: log
       | _, _ => log
       end, m'')
  end.

End WithYaml.

Section Queries.
Context {S : Type} `{!database.MetadataStore S}.

(** [GetJob]: the cached job, else the stored one, which is then cached. *)
Definition GetJob (jobID : string) (m : Manager S) : (Job + error) * Manager S :=
  match jobs m !! jobID with
  | Some instance => (inl (iJob instance), m)
  | None =>
      match database.GetJob jobID (store m) with
      | inr err => (inr (ErrJobNotFound err), m)
      | inl job =>
          (inl job,
           mkManager (store m)
             (<[jobID := mkInstance job (Status job) (UpdatedAt job) None None]> (jobs m))
             (running m) (ctx_next m) (ctx_cancelled m))
      end
  end.

Definition GetJobContext (jobID : string) (m : Manager S) : Ctx + error :=
  match jobs m !! jobID with
  | None => inr ErrNotCached
  | Some instance =>
      match iCtx instance with
      | None => inr ErrNotRunning
      | Some ctx => inl ctx
      end
  end.

End Queries.

(** The counters [GetJobStats] returns. *)
Record JobStats := mkJobStats {
  stat_total : Z;
  stat_draft : Z;
  stat_ready : Z;
  stat_running : Z;
  stat_paused : Z;
  stat_completed : Z;
  stat_failed : Z
}.

(** The [switch instance.Status] of [GetJobStats]. *)
Definition count_instance (instance : JobInstance) (stats : JobStats) : JobStats :=
  if decide (iStatus instance = JobStatusDraft) then
    mkJobStats (stat_total stats) (stat_draft stats + 1) (stat_ready stats)
      (stat_running stats) (stat_paused stats) (stat_completed stats) (stat_failed stats)
  else if decide (iStatus instance = JobStatusReady) then
    mkJobStats (stat_total stats) (stat_draft stats) (stat_ready stats + 1)
      (stat_running stats) (stat_paused stats) (stat_completed stats) (stat_failed stats)
  else if decide (iStatus instance = JobStatusRunning) then
    mkJobStats (stat_total stats) (stat_draft stats) (stat_ready stats)
      (stat_running stats + 1) (stat_paused stats) (stat_completed stats) (stat_failed stats)
  else if decide (iStatus instance = JobStatusPaused) then
    mkJobStats (stat_total stats) (stat_draft stats) (stat_ready stats)
      (stat_running stats) (stat_paused stats + 1) (stat_completed stats) (stat_failed stats)
  else if decide (iStatus instance = JobStatusCompleted) then
    mkJobStats (stat_total stats) (stat_draft stats) (stat_ready stats)
      (stat_running stats) (stat_paused stats) (stat_completed stats + 1) (stat_failed stats)
  else if decide (iStatus instance = JobStatusFailed) then
    mkJobStats (stat_total stats) (stat_draft stats) (stat_ready stats)
      (stat_running stats) (stat_paused stats) (stat_completed stats) (stat_failed stats + 1)
  else stats.

Definition GetJobStats {S} (m : Manager S) : JobStats :=
  map_fold (λ _ instance stats, count_instance instance stats)
    (mkJobStats (Z.of_nat (size (jobs m))) 0 0 0 0 0 0) (jobs m).

(** The number of cached jobs whose cached status is [status]. *)
Definition cached_as {S} (status : JobStatus) (m : Manager S) : Z :=
  Z.of_nat (size (filter (λ ki, iStatus ki.2 = status) (jobs m))).

(** A call on the manager with the values it will read from the clock and
    the id generator, and a run of calls. *)
Inductive call :=
| CallCreate (uuid : string) (now : Time) (job : Job)
| CallGet (jobID : string)
| CallUpdate (now now_db : Time) (job : Job)
| CallDelete (jobID : string)
| CallStart (now now_db : Time) (jobID : string)
| CallStop (now now_db : Time) (jobID : string)
| CallPause (now now_db : Time) (jobID : string)
| CallResume (now now_db : Time) (jobID : string).

Section Calls.
Variable yaml_Unmarshal : string -> gmap string YamlNode + string.
Context {S : Type} `{!database.MetadataStore S}.

Definition perform (m : Manager S) (c : call) : Manager S :=
  match c with
  | CallCreate uuid now job => (CreateJob yaml_Unmarshal uuid now job m).2
  | CallGet jobID => (GetJob jobID m).2
  | CallUpdate now now_db job => (UpdateJob yaml_Unmarshal now now_db job m).2
  | CallDelete jobID => (DeleteJob jobID m).2
  | CallStart now now_db jobID => (StartJob now now_db jobID m).2
  | CallStop now now_db jobID => (StopJob now now_db jobID m).2
  | CallPause now now_db jobID => (PauseJob now now_db jobID m).2
  | CallResume now now_db jobID => (ResumeJob now now_db jobID m).2
  end.

Definition perform_all (calls : list call) (m : Manager S) : Manager S :=
  foldl perform m calls.

End Calls.

(** Every running job has a context of its own that has been created and
    not cancelled, and no context is newer than the next one to be made. *)
Definition contexts_live {S} (m : Manager S) : Prop :=
  (∀ jobID ctx, running m !! jobID = Some ctx →
     (ctx < ctx_next m)%nat ∧ ctx ∉ ctx_cancelled m) ∧
  (∀ id1 id2 ctx, running m !! id1 = Some ctx → running m !! id2 = Some ctx → id1 = id2) ∧
  (∀ ctx, ctx ∈ ctx_cancelled m → (ctx < ctx_next m)%nat).

(** Every row of the table is stored under its own job id. *)
Definition well_keyed (st : database.SQLiteStore) : Prop :=
  ∀ jobID row, database.jobs_table st !! jobID = Some row → JobID row = jobID.

(** The cache agrees with the table: a cached job is a stored job, under
    the same id and with the same status. *)
Definition coherent (m : Manager database.SQLiteStore) : Prop :=
  ∀ jobID instance, jobs m !! jobID = Some instance →
    JobID (iJob instance) = jobID ∧
    iStatus instance = Status (iJob instance) ∧
    ∃ row, database.jobs_table (store m) !! jobID = Some row ∧
           Status row = iStatus instance.

(** The job as [CreateJob] has filled it in before validating it. *)
Definition prepared (uuid : string) (now : Time) (job : Job) : Job :=
  set_UpdatedAt now (set_CreatedAt now
    (let job := if decide (JobID job = "") then set_JobID uuid job else job in
     if decide (Status job = "") then set_Status JobStatusDraft job else job)).

(** The allowed-transitions table of the specification. *)
Definition allowed_transitions : list (JobStatus * JobStatus) :=
  [ (JobStatusDraft, JobStatusReady);
    (JobStatusReady, JobStatusRunning); (JobStatusReady, JobStatusDraft);
    (JobStatusRunning, JobStatusPaused); (JobStatusRunning, JobStatusCompleted);
    (JobStatusRunning, JobStatusFailed);
    (JobStatusPaused, JobStatusRunning); (JobStatusPaused, JobStatusCompleted);
    (JobStatusCompleted, JobStatusReady);
    (JobStatusFailed, JobStatusReady) ].

(** The errors by which the manager refuses a status change. *)
Definition invalid_transition (e : error) : Prop :=
  match e with
  | ErrInvalidStateTransition _ _ | ErrNoValidTransitions _
  | ErrCannotStartFrom _ | ErrCannotStopIn _ => True
  | _ => False
  end.

(** A toy YAML reader for worked examples: it knows two documents. *)
Definition yaml_example (text : string) : gmap string YamlNode + string :=
  if decide (text = "input: {type: csv}
output: {type: csv}")
  then inl (<["input" := YMapping [("type", YScalar "csv")]]>
            (<["output" := YMapping [("type", YScalar "csv")]]> ∅))
  else if decide (text = "output: {type: csv}")
  then inl (<["output" := YMapping [("type", YScalar "csv")]]> ∅)
  else inr "yaml: did not find expected node content".

Definition example_job : Job :=
  mkJob "" "test-job" "etl" "Test job description"
    "input: {type: csv}
output: {type: csv}" "" "" "" "" 0 0 true 1 "" None.

(** A manager over an empty SQLite store after creating [example_job]
    under the id [job-1] at time 100. *)
Definition example_manager : Manager database.SQLiteStore :=
  (CreateJob yaml_example "job-1" 100 example_job (NewManager database.sqlite_empty)).2.

(** The job as a caller re-submits it with a new status. *)
Definition example_job_as (status : JobStatus) : Job :=
  set_Status status (set_JobID "job-1" example_job).

End jobmanager.

(* ===================================================================== *)
(** * Package [scheduler]: cron schedules for jobs *)
(* ===================================================================== *)

Module scheduler.
Import models.

(** The part of [cron.Cron] (github.com/robfig/cron/v3) the scheduler
    uses: the table of entries and the counter that numbers them.  An
    entry keeps the expression it was made from and the job its function
    executes. *)
Definition EntryID := nat.

Record Entry := mkEntry {
  spec : string;
  job : string
}.

Record Cron := mkCron {
  entries : gmap EntryID Entry;
  nextID : EntryID;
  cron_running : bool
}.

Inductive error :=
| ErrAlreadyRunning
| ErrNotRunning
| ErrAlreadyScheduled (jobID : string)
| ErrCronRequired
| ErrInvalidCron (cause : string)
| ErrNotScheduled (jobID : string)
| ErrNoSchedulingConfig.

(** [err.Error()]. *)
Definition Error (e : error) : string :=
  match e with
  | ErrAlreadyRunning => "scheduler is already running"
  | ErrNotRunning => "scheduler is not running"
  | ErrAlreadyScheduled jobID =>
      String.append "job " (String.append jobID " is already scheduled")
  | ErrCronRequired => "cron expression is required"
  | ErrInvalidCron cause => String.append "invalid cron expression: " cause
  | ErrNotScheduled jobID => String.append "job " (String.append jobID " is not scheduled")
  | ErrNoSchedulingConfig => "no scheduling configuration found"
  end.

(** [Scheduler]; [has_ctx] tells whether [ctx] and [cancel] are set. *)
Record Scheduler := mkScheduler {
  cron : Cron;
  jobs : gmap string EntryID;
  running : bool;
  has_ctx : bool
}.

Definition NewScheduler : Scheduler := mkScheduler (mkCron ∅ 0%nat false) ∅ false false.

Definition Start (s : Scheduler) : option error * Scheduler :=
  if running s then (Some ErrAlreadyRunning, s)
  else (None, mkScheduler (mkCron (entries (cron s)) (nextID (cron s)) true) (jobs s) true true).

Definition Stop (s : Scheduler) : option error * Scheduler :=
  if negb (running s) then (Some ErrNotRunning, s)
  else (None,
        mkScheduler (mkCron (entries (cron s)) (nextID (cron s)) false) (jobs s) false
          (has_ctx s)).

Definition IsRunning (s : Scheduler) : bool := running s.

Section WithParser.

(** The parser of the cron: the message for an expression it refuses. *)
Variable parse_error : string -> option string.

(** [cron.AddFunc]: a refused expression adds nothing; an accepted one
    gets the next entry id. *)
Definition cron_AddFunc (cronExpr jobID : string) (c : Cron) : (EntryID + string) * Cron :=
  match parse_error cronExpr with
  | Some msg => (inr msg, c)
  | None =>
      let id := S (nextID c) in
      (inl id, mkCron (<[id := mkEntry cronExpr jobID]> (entries c)) id (cron_running c))
  end.

Definition cron_Remove (id : EntryID) (c : Cron) : Cron :=
  mkCron (delete id (entries c)) (nextID c) (cron_running c).

Definition AddJob (jobID cronExpr : string) (s : Scheduler) : option error * Scheduler :=
  match jobs s !! jobID with
  | Some _ => (Some (ErrAlreadyScheduled jobID), s)
  | None =>
      if decide (cronExpr = "") then (Some ErrCronRequired, s)
      else match cron_AddFunc cronExpr jobID (cron s) with
           | (inr msg, c) =>
               (Some (ErrInvalidCron msg), mkScheduler c (jobs s) (running s) (has_ctx s))
           | (inl entryID, c) =>
               (None, mkScheduler c (<[jobID := entryID]> (jobs s)) (running s) (has_ctx s))
           end
  end.

Definition RemoveJob (jobID : string) (s : Scheduler) : option error * Scheduler :=
  match jobs s !! jobID with
  | None => (Some (ErrNotScheduled jobID), s)
  | Some entryID =>
      (None,
       mkScheduler (cron_Remove entryID (cron s)) (delete jobID (jobs s)) (running s)
         (has_ctx s))
  end.

(** [UpdateJob]: remove, then add; an error of the removal other than
    not-scheduled, recognised by its text, is returned. *)
Definition UpdateJob (jobID cronExpr : string) (s : Scheduler) : option error * Scheduler :=
  let '(err, s') := RemoveJob jobID s in
  match err with
  | Some e =>
      if decide (Error e ≠ String.append "job " (String.append jobID " is not scheduled"))
      then (Some e, s')
      else AddJob jobID cronExpr s'
  | None => AddJob jobID cronExpr s'
  end.

(** [GetScheduledJobs], in the order the iteration over the map takes. *)
Definition GetScheduledJobs (s : Scheduler) : list string := (map_to_list (jobs s)).*1.

Definition GetJobCount (s : Scheduler) : Z := Z.of_nat (size (jobs s)).

(** A call on the scheduler, and a run of calls. *)
Inductive call :=
| CallStart
| CallStop
| CallAdd (jobID cronExpr : string)
| CallRemove (jobID : string)
| CallUpdate (jobID cronExpr : string).

Definition perform (s : Scheduler) (c : call) : Scheduler :=
  match c with
  | CallStart => (Start s).2
  | CallStop => (Stop s).2
  | CallAdd jobID cronExpr => (AddJob jobID cronExpr s).2
  | CallRemove jobID => (RemoveJob jobID s).2
  | CallUpdate jobID cronExpr => (UpdateJob jobID cronExpr s).2
  end.

(** The job table and the cron agree: each scheduled job has one entry,
    which runs that job on an expression the parser accepted, and the cron
    has no other entry; entry ids are not reused. *)
Definition in_step (s : Scheduler) : Prop :=
  (∀ jobID id, jobs s !! jobID = Some id →
     ∃ cronExpr, entries (cron s) !! id = Some (mkEntry cronExpr jobID) ∧
                 cronExpr ≠ "" ∧ parse_error cronExpr = None) ∧
  (∀ id entry, entries (cron s) !! id = Some entry → jobs s !! job entry = Some id) ∧
  (∀ id entry, entries (cron s) !! id = Some entry → (id ≤ nextID (cron s))%nat).

End WithParser.

(** [SchedulingConfig] and [ParseSchedulingConfig]. *)
Record SchedulingConfig := mkSchedulingConfig {
  Enabled : bool;
  CronExpr : string;
  Timezone : string;
  MaxRetries : Z;
  RetryDelay : string;
  Timeout : string
}.

Definition ParseSchedulingConfig (j : Job) : SchedulingConfig + error :=
  if decide (models.SchedulingConfig j = "") then inr ErrNoSchedulingConfig
  else inl (mkSchedulingConfig true (models.SchedulingConfig j) "" 0 "" "").

(** A toy parser for worked examples: it refuses one text. *)
Definition toy_parser (cronExpr : string) : option string :=
  if decide (cronExpr = "invalid cron")
  then Some "expected exactly 5 fields, found 3" else None.

End scheduler.

(* ===================================================================== *)
(** * Package [queue]: the in-memory task queue *)
(* ===================================================================== *)

Module queue.

Record Task := mkTask {
  ID : string;
  JobID : string;
  Priority : Z;
  CreatedAt : Time;
  Data : string;
  Retries : Z;
  MaxRetries : Z
}.

Inductive error :=
| ErrQueueClosed
| ErrQueueFull (maxSize : Z)
| ErrQueueAlreadyClosed
| ErrQueueEmpty
| ErrTaskNotFound (taskID : string)
| ErrContext.

(** [MemoryQueue]; [tasks] is the [container/list] from front to back. *)
Record MemoryQueue := mkQueue {
  tasks : list Task;
  maxSize : Z;
  closed : bool;
  enqueued : Z;
  dequeued : Z;
  failed : Z
}.

Definition NewMemoryQueue (maxSize : Z) : MemoryQueue := mkQueue [] maxSize false 0 0 0.

(** The insertion loop of [Enqueue]: before the first element of strictly
    lower priority, at the back when there is none. *)
Fixpoint insert_by_priority (task : Task) (l : list Task) : list Task :=
  match l with
  | [] => [task]
  | t :: rest =>
      if (Priority t <? Priority task)%Z then task :: t :: rest
      else t :: insert_by_priority task rest
  end.

Definition Enqueue (task : Task) (q : MemoryQueue) : option error * MemoryQueue :=
  if closed q then (Some ErrQueueClosed, q)
  else if (maxSize q <=? Z.of_nat (length (tasks q)))%Z then (Some (ErrQueueFull (maxSize q)), q)
  else (None, mkQueue (insert_by_priority task (tasks q)) (maxSize q) (closed q)
                (enqueued q + 1) (dequeued q) (failed q)).

(** What one pass of the [Dequeue] loop does: return a task, return an
    error, or wait on the condition variable (the loop runs again after a
    signal; the queue is unchanged while it waits). *)
Inductive dequeue_result :=
| Dequeued (t : Task)
| DequeueError (e : error)
| DequeueWait.

(** [ctx_done] tells whether the caller's context is cancelled. *)
Definition Dequeue (ctx_done : bool) (q : MemoryQueue) : dequeue_result * MemoryQueue :=
  if ctx_done then (DequeueError ErrContext, q)
  else if closed q then (DequeueError ErrQueueClosed, q)
  else match tasks q with
       | task :: rest =>
           (Dequeued task,
            mkQueue rest (maxSize q) (closed q) (enqueued q) (dequeued q + 1) (failed q))
       | [] => (DequeueWait, q)
       end.

Definition Size (q : MemoryQueue) : Z := Z.of_nat (length (tasks q)).

Definition Clear (q : MemoryQueue) : option error * MemoryQueue :=
  if closed q then (Some ErrQueueClosed, q)
  else (None, mkQueue [] (maxSize q) (closed q) (enqueued q) (dequeued q) (failed q)).

Definition Close (q : MemoryQueue) : option error * MemoryQueue :=
  if closed q then (Some ErrQueueAlreadyClosed, q)
  else (None, mkQueue (tasks q) (maxSize q) true (enqueued q) (dequeued q) (failed q)).

Definition Peek (q : MemoryQueue) : Task + error :=
  if closed q then inr ErrQueueClosed
  else match tasks q with
       | [] => inr ErrQueueEmpty
       | task :: _ => inl task
       end.

(** The removal loop of [RemoveTask]: the first task with the id, if any. *)
Fixpoint remove_first (taskID : string) (l : list Task) : option (list Task) :=
  match l with
  | [] => None
  | t :: rest =>
      if decide (ID t = taskID) then Some rest
      else match remove_first taskID rest with
           | Some rest' => Some (t :: rest')
           | None => None
           end
  end.

Definition RemoveTask (taskID : string) (q : MemoryQueue) : option error * MemoryQueue :=
  if closed q then (Some ErrQueueClosed, q)
  else match remove_first taskID (tasks q) with
       | Some l => (None, mkQueue l (maxSize q) (closed q) (enqueued q) (dequeued q) (failed q))
       | None => (Some (ErrTaskNotFound taskID), q)
       end.

(** A call on the queue, and a run of calls that collects the tasks handed
    out by [Dequeue], oldest first. *)
Inductive call :=
| CallEnqueue (task : Task)
| CallDequeue (ctx_done : bool)
| CallRemove (taskID : string)
| CallClear
| CallClose.

Definition perform (c : call) (q : MemoryQueue) : list Task * MemoryQueue :=
  match c with
  | CallEnqueue task => ([], (Enqueue task q).2)
  | CallDequeue ctx_done =>
      match Dequeue ctx_done q with
      | (Dequeued t, q') => ([t], q')
      | (_, q') => ([], q')
      end
  | CallRemove taskID => ([], (RemoveTask taskID q).2)
  | CallClear => ([], (Clear q).2)
  | CallClose => ([], (Close q).2)
  end.

Fixpoint perform_all (cs : list call) (q : MemoryQueue) : list Task * MemoryQueue :=
  match cs with
  | [] => ([], q)
  | c :: cs' =>
      let '(out, q') := perform c q in
      let '(outs, q'') := perform_all cs' q' in
      (out ++ outs, q'')
  end.

(** Priority descending from front to back. *)
Definition sorted_desc (l : list Task) : Prop :=
  StronglySorted (λ a b, (Priority b ≤ Priority a)%Z) l.

(** The tasks of one priority, in list order. *)
Definition of_priority (p : Z) (l : list Task) : list Task :=
  filter (λ t, Priority t = p) l.

Definition task_of (id : string) (priority : Z) : Task :=
  mkTask id "job-1" priority 0 "" 0 3.

(** [IsClosed] and [GetTasks]. *)
Definition IsClosed (q : MemoryQueue) : bool := closed q.

Definition GetTasks (q : MemoryQueue) : list Task := tasks q.

(** The calls of a run that are neither [Clear] nor [RemoveTask]. *)
Definition keeps_tasks (c : call) : bool :=
  match c with
  | CallRemove _ | CallClear => false
  | _ => true
  end.

(** ** [PriorityQueue]: one [MemoryQueue] for each priority level *)

Record PriorityQueue := mkPriorityQueue {
  queues : gmap Z MemoryQueue
}.

Inductive pq_error :=
| ErrNoQueueForPriority (priority : Z)
| ErrNoQueuesAvailable
| ErrOfQueue (e : error).

(** [NewPriorityQueue], every level with the same configuration. *)
Definition NewPriorityQueue (priorities : list Z) (maxSize : Z) : PriorityQueue :=
  mkPriorityQueue
    (foldl (λ m priority, <[priority := NewMemoryQueue maxSize]> m) ∅ priorities).

Definition PriorityQueue_Enqueue (task : Task) (pq : PriorityQueue)
  : option pq_error * PriorityQueue :=
  match queues pq !! Priority task with
  | None => (Some (ErrNoQueueForPriority (Priority task)), pq)
  | Some queue =>
      let '(e, queue') := Enqueue task queue in
      (ErrOfQueue <$> e, mkPriorityQueue (<[Priority task := queue']> (queues pq)))
  end.

(** The body of the sorting loops of [Dequeue]:
    [if priorities[i] < priorities[j] { swap }]. *)
Definition swap_if_less (i j : nat) (a : list Z) : list Z :=
  match a !! i, a !! j with
  | Some x, Some y => if (x <? y)%Z then <[j := x]> (<[i := y]> a) else a
  | _, _ => a
  end.

(** [for i := 0; i < len; i++ { for j := i + 1; j < len; j++ { ... } }]. *)
Definition sort_priorities (a : list Z) : list Z :=
  let n := length a in
  foldl (λ a i, foldl (λ a j, swap_if_less i j a) a (seq (S i) (n - S i))) a (seq 0 n).

(** What [Dequeue] of a [PriorityQueue] returns; a level missing from the
    map would be a nil queue, whose first use panics. *)
Inductive pq_dequeue_result :=
| PQDequeued (t : Task)
| PQError (e : pq_error)
| PQWait
| PQPanic.

(** [return queue.Dequeue(ctx)] for the queue of level [priority]. *)
Definition dequeue_from (ctx_done : bool) (priority : Z) (pq : PriorityQueue)
  : pq_dequeue_result * PriorityQueue :=
  match queues pq !! priority with
  | None => (PQPanic, pq)
  | Some queue =>
      let '(r, queue') := Dequeue ctx_done queue in
      (match r with
       | Dequeued t => PQDequeued t
       | DequeueError e => PQError (ErrOfQueue e)
       | DequeueWait => PQWait
       end, mkPriorityQueue (<[priority := queue']> (queues pq)))
  end.

(** The loop [for _, priority := range priorities] over the sorted levels:
    the first level whose queue is not empty. *)
Fixpoint try_queues (ctx_done : bool) (priorities : list Z) (pq : PriorityQueue)
  : option (pq_dequeue_result * PriorityQueue) :=
  match priorities with
  | [] => None
  | priority :: rest =>
      match queues pq !! priority with
      | None => Some (PQPanic, pq)
      | Some queue =>
          if (0 <? Size queue)%Z then Some (dequeue_from ctx_done priority pq)
          else try_queues ctx_done rest pq
      end
  end.

(** [Dequeue]; [order] is the order in which [range pq.queues] yields the
    levels, which the Go runtime chooses. *)
Definition PriorityQueue_Dequeue (ctx_done : bool) (order : list Z) (pq : PriorityQueue)
  : pq_dequeue_result * PriorityQueue :=
  let priorities := sort_priorities order in
  match try_queues ctx_done priorities pq with
  | Some r => r
  | None =>
      match priorities with
      | highest :: _ => dequeue_from ctx_done highest pq
      | [] => (PQError ErrNoQueuesAvailable, pq)
      end
  end.

Definition PriorityQueue_Size (pq : PriorityQueue) : Z :=
  map_fold (λ _ queue total, total + Size queue)%Z 0%Z (queues pq).

(** [Close] closes every level and drops the errors. *)
Definition PriorityQueue_Close (pq : PriorityQueue) : option pq_error * PriorityQueue :=
  (None, mkPriorityQueue ((λ queue, (Close queue).2) <$> queues pq)).

(** A call on a priority queue, and a run of calls. *)
Inductive pq_call :=
| PQCallEnqueue (task : Task)
| PQCallDequeue (ctx_done : bool) (order : list Z)
| PQCallClose.

Definition pq_perform (pq : PriorityQueue) (c : pq_call) : PriorityQueue :=
  match c with
  | PQCallEnqueue task => (PriorityQueue_Enqueue task pq).2
  | PQCallDequeue ctx_done order => (PriorityQueue_Dequeue ctx_done order pq).2
  | PQCallClose => (PriorityQueue_Close pq).2
  end.

(** The levels of a priority queue, in some order of iteration. *)
Definition levels (pq : PriorityQueue) : list Z := (map_to_list (queues pq)).*1.

(** ** What the sorting loops establish *)

(** Position [k] holds a value no smaller than any value behind it. *)
Definition leads (a : list Z) (k : nat) : Prop :=
  ∀ m x y, (k < m)%nat → a !! k = Some x → a !! m = Some y → (y ≤ x)%Z.

(** Position [i] holds a value no smaller than those strictly between [i]
    and [j]. *)
Definition leads_upto (a : list Z) (i j : nat) : Prop :=
  ∀ m x y, (i < m < j)%nat → a !! i = Some x → a !! m = Some y → (y ≤ x)%Z.

(** Every task waits in the queue of its own priority. *)
Definition levelled (pq : PriorityQueue) : Prop :=
  ∀ p q, queues pq !! p = Some q → Forall (λ t, Priority t = p) (tasks q).

End queue.

(* ===================================================================== *)
(** * Package [types]: checkpoints and batches *)
(* ===================================================================== *)

Module types.

(** The dynamically typed values of [interface{}] fields. *)
Inductive Value :=
| VNil
| VString (s : string)
| VInt (n : Z)
| VBool (b : bool).

Record Checkpoint := mkCheckpoint {
  Position : Value;
  Timestamp : Time;
  Metadata : gmap string string
}.

Definition set_Timestamp (v : Time) (c : Checkpoint) : Checkpoint :=
  mkCheckpoint (Position c) v (Metadata c).

(** A [*Checkpoint]: [None] is [nil], [Some l] the object at location [l] of
    the heap of checkpoint objects. *)
Abbreviation loc := positive (only parsing).
Abbreviation CheckpointPtr := (option loc) (only parsing).
Abbreviation Heap := (gmap loc Checkpoint) (only parsing).

Record Record_ := mkRecord {
  Values : list Value;
  RMetadata : gmap string string
}.

(** [DataBatch]; the schema plays no part in the runtime's decisions and is
    kept as its list of column names. *)
Record DataBatch := mkBatch {
  Schema : list string;
  Records : list Record_;
  BMetadata : gmap string string;
  BCheckpoint : CheckpointPtr
}.

Definition Size (db : DataBatch) : Z := Z.of_nat (length (Records db)).

Definition IsEmpty (db : DataBatch) : bool := bool_decide (length (Records db) = 0%nat).

End types.

(* ===================================================================== *)
(** * Package [checkpoint] *)
(* ===================================================================== *)

Module checkpoint.
Import types.

Definition StorageErr := string.

(** [checkpoint.Storage]: a storage is a state [St]; [Save] is given the
    contents of the checkpoint object at the time of the call. *)
Class Storage (St : Type) := {
  Storage_Save : string -> string -> Checkpoint -> St -> option StorageErr * St;
  Storage_Load : string -> string -> St -> option Checkpoint + StorageErr;
  Storage_Delete : string -> string -> St -> option StorageErr * St;
  Storage_Clear : string -> St -> option StorageErr * St
}.

Inductive error :=
| ErrFailedToSave (cause : StorageErr)
| ErrFailedToDelete (cause : StorageErr)
| ErrFailedToClear (cause : StorageErr).

(** [Manager]; [checkpoints] holds pointers, as the Go map does. *)
Record Manager (St : Type) := mkManager {
  jobID : string;
  checkpoints : gmap string loc;
  storage : St;
  interval : Z;
  enabled : bool
}.
Arguments mkManager {St}.
Arguments jobID {St}.
Arguments checkpoints {St}.
Arguments storage {St}.
Arguments interval {St}.
Arguments enabled {St}.

(** The outcome of a call that may dereference [nil]. *)
Inductive outcome (A : Type) :=
| Returns (a : A)
| Panics.
Arguments Returns {A}.
Arguments Panics {A}.

Section WithStorage.
Context {St : Type} `{!Storage St}.

(** [SaveCheckpoint]: the heap is the caller's and the manager's alike. *)
Definition SaveCheckpoint (stage : string) (checkpoint : CheckpointPtr) (now : Time)
    (h : Heap) (m : Manager St) : outcome (option error * Heap * Manager St) :=
  if negb (enabled m) then Returns (None, h, m)
  else match checkpoint with
  | None => Panics
  | Some l =>
      match h !! l with
      | None => Panics
      | Some c =>
          (* checkpoint.Timestamp = time.Now() *)
          let h := <[l := set_Timestamp now c]> h in
          (* m.checkpoints[stage] = checkpoint *)
          let cps := <[stage := l]> (checkpoints m) in
          match Storage_Save (jobID m) stage (set_Timestamp now c) (storage m) with
          | (Some err, st) =>
              Returns (Some (ErrFailedToSave err), h,
                       mkManager (jobID m) cps st (interval m) (enabled m))
          | (None, st) =>
              Returns (None, h, mkManager (jobID m) cps st (interval m) (enabled m))
          end
      end
  end.

(** [LoadCheckpoint]; its error is always [nil]. *)
Definition LoadCheckpoint (stage : string) (m : Manager St) : CheckpointPtr :=
  if negb (enabled m) then None
  else checkpoints m !! stage.

(** [GetAllCheckpoints]: a new map with the same pointers. *)
Definition GetAllCheckpoints (m : Manager St) : gmap string loc :=
  map_fold (λ k v result, <[k := v]> result) ∅ (checkpoints m).

Definition DeleteCheckpoint (stage : string) (m : Manager St) : option error * Manager St :=
  if negb (enabled m) then (None, m)
  else
    let cps := delete stage (checkpoints m) in
    match Storage_Delete (jobID m) stage (storage m) with
    | (Some err, st) =>
        (Some (ErrFailedToDelete err), mkManager (jobID m) cps st (interval m) (enabled m))
    | (None, st) => (None, mkManager (jobID m) cps st (interval m) (enabled m))
    end.

Definition Clear (m : Manager St) : option error * Manager St :=
  if negb (enabled m) then (None, m)
  else
    match Storage_Clear (jobID m) (storage m) with
    | (Some err, st) =>
        (Some (ErrFailedToClear err), mkManager (jobID m) ∅ st (interval m) (enabled m))
    | (None, st) => (None, mkManager (jobID m) ∅ st (interval m) (enabled m))
    end.

(** A sequence of saves [(stage, pointer, time)], first to last. *)
Fixpoint save_all (saves : list (string * CheckpointPtr * Time)) (h : Heap) (m : Manager St)
  : outcome (Heap * Manager St) :=
  match saves with
  | [] => Returns (h, m)
  | (stage, p, now) :: rest =>
      match SaveCheckpoint stage p now h m with
      | Panics => Panics
      | Returns (_, h', m') => save_all rest h' m'
      end
  end.

(** What a caller reads through a pointer. *)
Definition deref (h : Heap) (p : CheckpointPtr) : option Checkpoint :=
  match p with
  | None => None
  | Some l => h !! l
  end.

Definition IsEnabled (m : Manager St) : bool := enabled m.

(** A call that changes the manager, and a run of such calls; the errors
    the calls return are dropped, as the pipeline drops them. *)
Inductive op :=
| OpSave (stage : string) (checkpoint : CheckpointPtr) (now : Time)
| OpDelete (stage : string)
| OpClear.

Fixpoint run_ops (ops : list op) (h : Heap) (m : Manager St) : outcome (Heap * Manager St) :=
  match ops with
  | [] => Returns (h, m)
  | OpSave stage p now :: rest =>
      match SaveCheckpoint stage p now h m with
      | Panics => Panics
      | Returns (_, h', m') => run_ops rest h' m'
      end
  | OpDelete stage :: rest => run_ops rest h (DeleteCheckpoint stage m).2
  | OpClear :: rest => run_ops rest h (Clear m).2
  end.

End WithStorage.

(** The stages a run of calls leaves in memory, with their pointers: a
    save records its pointer, a delete forgets the stage, a clear all. *)
Fixpoint remembered (ops : list op) (cps : gmap string loc) : gmap string loc :=
  match ops with
  | [] => cps
  | OpSave stage (Some l) _ :: rest => remembered rest (<[stage := l]> cps)
  | OpSave _ None _ :: rest => remembered rest cps
  | OpDelete stage :: rest => remembered rest (delete stage cps)
  | OpClear :: rest => remembered rest ∅
  end.

(** The pointer of a save is one the caller can dereference. *)
Definition addressable (h : Heap) (o : op) : Prop :=
  match o with
  | OpSave _ p _ => is_Some (deref h p)
  | _ => True
  end.

(** A storage that keeps the last record saved for each job and stage, as
    [FileStorage] keeps one file for each; it never fails. *)
Definition FileStorage := gmap (string * string) Checkpoint.

#[global] Instance FileStorage_Storage : Storage FileStorage := {
  Storage_Save jobID stage c fs := (None, <[(jobID, stage) := c]> fs);
  Storage_Load jobID stage fs := inl (fs !! (jobID, stage));
  Storage_Delete jobID stage fs := (None, delete (jobID, stage) fs);
  Storage_Clear jobID fs := (None, filter (λ kv, kv.1.1 ≠ jobID) fs)
}.

(** A storage whose every write fails. *)
Definition BrokenStorage := unit.

#[global] Instance BrokenStorage_Storage : Storage BrokenStorage := {
  Storage_Save _ _ _ st := (Some "disk full", st);
  Storage_Load _ _ _ := inr "disk unreadable";
  Storage_Delete _ _ st := (Some "disk full", st);
  Storage_Clear _ st := (Some "disk full", st)
}.

Definition example_checkpoint : Checkpoint :=
  mkCheckpoint (VString "12345") 0
    (<["file" := "data.csv"]> (<["offset" := "12345"]> ∅)).

Definition example_heap : Heap :=
  <[1%positive := example_checkpoint]> (<[2%positive := mkCheckpoint (VInt 200) 0 ∅]> ∅).

Definition example_manager : Manager FileStorage :=
  mkManager "test-job-2" ∅ ∅ 30 true.

End checkpoint.

(* ===================================================================== *)
(** * Package [worker]: the worker pool *)
(* ===================================================================== *)

Module worker.
Import models.

Inductive error :=
| ErrWorkerNotFound (workerID : string)
| ErrFailedToRegister (cause : database.StoreErr)
| ErrFailedToUnregister (cause : database.StoreErr)
| ErrFailedToUpdateHeartbeat (cause : database.StoreErr)
| ErrAlreadyRunning
| ErrNotRunning.

(** [Pool]; [workers] is the in-memory cache. *)
Record Pool (S : Type) := mkPool {
  store : S;
  workers : gmap string Worker;
  heartbeatInterval : Z;
  heartbeatTimeout : Z;
  running : bool
}.
Arguments mkPool {S}.
Arguments store {S}.
Arguments workers {S}.
Arguments heartbeatInterval {S}.
Arguments heartbeatTimeout {S}.
Arguments running {S}.

(** [NewPool] with the default configuration: 30 s and 90 s, in
    nanoseconds. *)
Definition NewPool {S} (st : S) : Pool S :=
  mkPool st ∅ 30000000000 90000000000 false.

Section WithStore.
Context {S : Type} `{!database.MetadataStore S}.

(** [UpdateHeartbeat]; [now] is the pool's [time.Now()], [now_db] the one
    the store takes inside [UpdateWorkerHeartbeat]. *)
Definition UpdateHeartbeat (workerID : string) (now now_db : Time) (p : Pool S)
  : option error * Pool S :=
  let found :=
    match workers p !! workerID with
    | Some worker => inl (worker, workers p)
    | None =>
        match database.GetWorker workerID (store p) with
        | inr _ => inr (ErrWorkerNotFound workerID)
        | inl dbWorker => inl (dbWorker, <[workerID := dbWorker]> (workers p))
        end
    end in
  match found with
  | inr err => (Some err, p)
  | inl (worker, cache) =>
      (* worker.LastHeartbeat = time.Now(), through the cached pointer *)
      let cache := <[workerID := set_LastHeartbeat now worker]> cache in
      match database.UpdateWorkerHeartbeat workerID now_db (store p) with
      | (Some err, st) =>
          (Some (ErrFailedToUpdateHeartbeat err),
           mkPool st cache (heartbeatInterval p) (heartbeatTimeout p) (running p))
      | (None, st) =>
          (None, mkPool st cache (heartbeatInterval p) (heartbeatTimeout p) (running p))
      end
  end.

(** The pool's [GetWorker]. *)
Definition GetWorker (workerID : string) (p : Pool S) : Worker + database.StoreErr :=
  match workers p !! workerID with
  | Some worker => inl worker
  | None => database.GetWorker workerID (store p)
  end.

(** The worker a heartbeat is about: the cached one, else the stored one. *)
Definition known (workerID : string) (p : Pool S) : option Worker :=
  match workers p !! workerID with
  | Some w => Some w
  | None =>
      match database.GetWorker workerID (store p) with
      | inl w => Some w
      | inr _ => None
      end
  end.

(** The body of the loop of [checkWorkerHealth] for one worker. *)
Definition check_one (now timeout : Z) (worker : Worker) : Worker :=
  if (timeout <? now - LastHeartbeat worker)%Z then
    if decide (WStatus worker ≠ WorkerStatusOffline)
    then set_WStatus WorkerStatusOffline worker
    else worker
  else if decide (WStatus worker = WorkerStatusOffline)
  then set_WStatus WorkerStatusOnline worker
  else worker.

(** [checkWorkerHealth], one tick of the monitor at time [now]. *)
Definition checkWorkerHealth (now : Time) (p : Pool S) : Pool S :=
  mkPool (store p) (check_one now (heartbeatTimeout p) <$> workers p)
    (heartbeatInterval p) (heartbeatTimeout p) (running p).

End WithStore.

Section Lifecycle.
Context {S : Type} `{!database.MetadataStore S}.

(** [RegisterWorker]; [uuid] is the value of [uuid.New().String()], [ip]
    the local address found (or 127.0.0.1), [cores] and [memory] the
    readings of the runtime, [now_hb] and [now_reg] the two readings of
    [time.Now()]. *)
Definition RegisterWorker (uuid ip : string) (cores memory : Z) (now_hb now_reg : Time)
    (hostname : string) (port : Z) (p : Pool S) : (Worker + error) * Pool S :=
  let worker :=
    mkWorker uuid hostname ip port WorkerStatusOnline cores memory now_hb now_reg in
  match database.RegisterWorker worker (store p) with
  | (Some err, st) =>
      (inr (ErrFailedToRegister err),
       mkPool st (workers p) (heartbeatInterval p) (heartbeatTimeout p) (running p))
  | (None, st) =>
      (inl worker,
       mkPool st (<[uuid := worker]> (workers p)) (heartbeatInterval p) (heartbeatTimeout p)
         (running p))
  end.

Definition UnregisterWorker (workerID : string) (p : Pool S) : option error * Pool S :=
  match workers p !! workerID with
  | None => (Some (ErrWorkerNotFound workerID), p)
  | Some _ =>
      match database.UnregisterWorker workerID (store p) with
      | (Some err, st) =>
          (Some (ErrFailedToUnregister err),
           mkPool st (workers p) (heartbeatInterval p) (heartbeatTimeout p) (running p))
      | (None, st) =>
          (None,
           mkPool st (delete workerID (workers p)) (heartbeatInterval p) (heartbeatTimeout p)
             (running p))
      end
  end.

Definition GetWorkerCount (p : Pool S) : Z := Z.of_nat (size (workers p)).

(** [GetHealthyWorkers]; [clock] gives the reading of the clock at the
    moment the worker of that id is examined. *)
Definition GetHealthyWorkers (clock : string -> Time) (p : Pool S) : list Worker :=
  (filter (λ kw, IsHealthy (clock kw.1) (heartbeatTimeout p) kw.2 = true)
     (map_to_list (workers p))).*2.

End Lifecycle.

(** The statistics [GetPoolStats] returns. *)
Record PoolStats := mkPoolStats {
  total_workers : Z;
  online_workers : Z;
  offline_workers : Z;
  busy_workers : Z;
  total_cpu_cores : Z;
  total_memory_mb : Z
}.

(** The body of the loop of [GetPoolStats] for one worker. *)
Definition count_worker (worker : Worker) (stats : PoolStats) : PoolStats :=
  let stats :=
    if decide (WStatus worker = WorkerStatusOnline) then
      mkPoolStats (total_workers stats) (online_workers stats + 1) (offline_workers stats)
        (busy_workers stats) (total_cpu_cores stats) (total_memory_mb stats)
    else if decide (WStatus worker = WorkerStatusOffline) then
      mkPoolStats (total_workers stats) (online_workers stats) (offline_workers stats + 1)
        (busy_workers stats) (total_cpu_cores stats) (total_memory_mb stats)
    else if decide (WStatus worker = WorkerStatusBusy) then
      mkPoolStats (total_workers stats) (online_workers stats) (offline_workers stats)
        (busy_workers stats + 1) (total_cpu_cores stats) (total_memory_mb stats)
    else stats in
  mkPoolStats (total_workers stats) (online_workers stats) (offline_workers stats)
    (busy_workers stats) (total_cpu_cores stats + CPUCores worker)
    (total_memory_mb stats + MemoryMB worker).

Definition GetPoolStats {S} (p : Pool S) : PoolStats :=
  map_fold (λ _ worker stats, count_worker worker stats)
    (mkPoolStats (Z.of_nat (size (workers p))) 0 0 0 0 0) (workers p).

(** The number of cached workers with a status, and the sum of a field
    over the cached workers. *)
Definition with_status {S} (status : WorkerStatus) (p : Pool S) : Z :=
  Z.of_nat (size (filter (λ kw, WStatus kw.2 = status) (workers p))).

Definition sum_over {S} (field : Worker -> Z) (p : Pool S) : Z :=
  foldr Z.add 0 (field <$> (map_to_list (workers p)).*2).

Definition example_worker (status : WorkerStatus) : Worker :=
  mkWorker "w-1" "test-worker" "127.0.0.1" 8080 status 4 512 0 0.

(** A pool over SQLite whose worker [w-1] has gone offline, in the cache
    and in the table. *)
Definition offline_pool : Pool database.SQLiteStore :=
  mkPool (database.mkSQLite ∅ (<["w-1" := example_worker WorkerStatusOffline]> ∅))
    (<["w-1" := example_worker WorkerStatusOffline]> ∅)
    50000000 100000000 true.

End worker.

(* ===================================================================== *)
(** * Package [types]: the plugin contracts *)
(* ===================================================================== *)

Module plugins.
Import types.

(** A plugin configuration, [map[string]interface{}]. *)
Abbreviation ConfigMap := (gmap string Value) (only parsing).

(** The base [Plugin] contract.  [Initialize] answers with the plugin's
    error, if any; [Validate] answers for the configuration the plugin was
    initialised with. *)
Record Plugin := mkPlugin {
  Name : string;
  Initialize : ConfigMap -> option string;
  Validate : ConfigMap -> option string
}.

(** What one [ReadBatch] call returns. *)
Inductive ReadResult :=
| ReadBatch_ok (batch : DataBatch)
| ReadBatch_nil
| ReadBatch_EOF
| ReadBatch_error (msg : string).

(** [InputPlugin].  [reads] lists what the successive [ReadBatch] calls of
    a run return; once they are used up the plugin returns [io.EOF]. *)
Record InputPlugin := mkInput {
  in_plugin : Plugin;
  in_Connect : option string;
  reads : list ReadResult
}.

(** [ProcessorPlugin]: [Process] returns a batch or an error. *)
Record ProcessorPlugin := mkProcessor {
  proc_plugin : Plugin;
  Process : DataBatch -> DataBatch + string
}.

(** [OutputPlugin]. *)
Record OutputPlugin := mkOutput {
  out_plugin : Plugin;
  out_Connect : option string;
  WriteBatch : DataBatch -> option string;
  Flush : option string
}.

End plugins.

(* ===================================================================== *)
(** * Package [plugin]: the registry *)
(* ===================================================================== *)

Module plugin.
Import plugins.

Inductive error :=
| ErrInputAlreadyRegistered (name : string)
| ErrProcessorAlreadyRegistered (name : string)
| ErrOutputAlreadyRegistered (name : string)
| ErrInputNotFound (name : string)
| ErrProcessorNotFound (name : string)
| ErrOutputNotFound (name : string).

Record Registry := mkRegistry {
  inputs : gmap string InputPlugin;
  processors : gmap string ProcessorPlugin;
  outputs : gmap string OutputPlugin
}.

Definition emptyRegistry : Registry := mkRegistry ∅ ∅ ∅.

Definition RegisterInput (name : string) (p : InputPlugin) (r : Registry)
  : option error * Registry :=
  match inputs r !! name with
  | Some _ => (Some (ErrInputAlreadyRegistered name), r)
  | None => (None, mkRegistry (<[name := p]> (inputs r)) (processors r) (outputs r))
  end.

Definition RegisterProcessor (name : string) (p : ProcessorPlugin) (r : Registry)
  : option error * Registry :=
  match processors r !! name with
  | Some _ => (Some (ErrProcessorAlreadyRegistered name), r)
  | None => (None, mkRegistry (inputs r) (<[name := p]> (processors r)) (outputs r))
  end.

Definition RegisterOutput (name : string) (p : OutputPlugin) (r : Registry)
  : option error * Registry :=
  match outputs r !! name with
  | Some _ => (Some (ErrOutputAlreadyRegistered name), r)
  | None => (None, mkRegistry (inputs r) (processors r) (<[name := p]> (outputs r)))
  end.

Definition GetInput (name : string) (r : Registry) : InputPlugin + error :=
  match inputs r !! name with
  | Some p => inl p
  | None => inr (ErrInputNotFound name)
  end.

Definition GetProcessor (name : string) (r : Registry) : ProcessorPlugin + error :=
  match processors r !! name with
  | Some p => inl p
  | None => inr (ErrProcessorNotFound name)
  end.

Definition GetOutput (name : string) (r : Registry) : OutputPlugin + error :=
  match outputs r !! name with
  | Some p => inl p
  | None => inr (ErrOutputNotFound name)
  end.

(** [ListInputs], [ListProcessors] and [ListOutputs]: the registered names,
    in the order the iteration over the map yields them. *)
Definition ListInputs (r : Registry) : list string := (map_to_list (inputs r)).*1.

Definition ListProcessors (r : Registry) : list string := (map_to_list (processors r)).*1.

Definition ListOutputs (r : Registry) : list string := (map_to_list (outputs r)).*1.

(** A registration call of any of the three kinds, and a run of them on
    the registry (the package-level functions act on the global one). *)
Inductive registration :=
| AsInput (name : string) (p : InputPlugin)
| AsProcessor (name : string) (p : ProcessorPlugin)
| AsOutput (name : string) (p : OutputPlugin).

Definition register (r : Registry) (x : registration) : option error * Registry :=
  match x with
  | AsInput name p => RegisterInput name p r
  | AsProcessor name p => RegisterProcessor name p r
  | AsOutput name p => RegisterOutput name p r
  end.

Definition register_all (regs : list registration) : Registry :=
  foldl (λ r x, (register r x).2) emptyRegistry regs.

(** The first plugin of each kind that a run of registrations offers under
    a name. *)
Fixpoint first_input (name : string) (regs : list registration) : option InputPlugin :=
  match regs with
  | [] => None
  | AsInput n p :: rest => if decide (n = name) then Some p else first_input name rest
  | _ :: rest => first_input name rest
  end.

Fixpoint first_processor (name : string) (regs : list registration)
  : option ProcessorPlugin :=
  match regs with
  | [] => None
  | AsProcessor n p :: rest => if decide (n = name) then Some p else first_processor name rest
  | _ :: rest => first_processor name rest
  end.

Fixpoint first_output (name : string) (regs : list registration) : option OutputPlugin :=
  match regs with
  | [] => None
  | AsOutput n p :: rest => if decide (n = name) then Some p else first_output name rest
  | _ :: rest => first_output name rest
  end.

End plugin.

(* ===================================================================== *)
(** * Package [pipeline]: the concurrent pipeline *)
(* ===================================================================== *)

Module pipeline.
Import types plugins.

(** [Pipeline], the serial pipeline object. *)
Record Pipeline := mkPipeline {
  s_input : InputPlugin;
  s_processors : list ProcessorPlugin;
  s_output : OutputPlugin;
  s_batchSize : Z
}.

Definition NewPipeline (input : InputPlugin) (processors : list ProcessorPlugin)
    (output : OutputPlugin) : Pipeline :=
  mkPipeline input processors output 1000.

Definition SetBatchSize (size : Z) (p : Pipeline) : Pipeline :=
  mkPipeline (s_input p) (s_processors p) (s_output p) size.

(** [ConcurrentPipelineConfig]; [CheckpointEnabled] stands for a
    checkpoint configuration that is present and enabled. *)
Record ConcurrentPipelineConfig := mkConcurrentConfig {
  BatchSize : Z;
  InputBufferSize : Z;
  ProcessorBufferSize : Z;
  OutputBufferSize : Z;
  BackpressureThreshold : Q;
  CheckpointEnabled : bool
}.

Definition DefaultConcurrentConfig : ConcurrentPipelineConfig :=
  mkConcurrentConfig 1000 10 10 5 (8 # 10) false.

(** [ConcurrentPipeline]; [checkpointManager] tells whether the manager
    pointer is non-nil.  The counters live in the run state below. *)
Record ConcurrentPipeline := mkConcurrent {
  input : InputPlugin;
  processors : list ProcessorPlugin;
  output : OutputPlugin;
  batchSize : Z;
  inputBufferSize : Z;
  processorBufferSize : Z;
  outputBufferSize : Z;
  backpressureThreshold : Q;
  checkpointManager : bool
}.

Definition NewConcurrentPipeline (input : InputPlugin) (processors : list ProcessorPlugin)
    (output : OutputPlugin) (config : option ConcurrentPipelineConfig) : ConcurrentPipeline :=
  let config := default DefaultConcurrentConfig config in
  mkConcurrent input processors output (BatchSize config) (InputBufferSize config)
    (ProcessorBufferSize config) (OutputBufferSize config) (BackpressureThreshold config)
    (CheckpointEnabled config).

(** The dynamic type of the [interface{}] argument of [isBackpressure], with
    the number of batches the channel holds. *)
Inductive ChanArg :=
| BidirectionalChan (length : Z)
| SendOnlyChan (length : Z)
| OtherArg.

(** [isBackpressure]; the quotient of the two [float64] conversions is
    taken over the rationals, a zero capacity giving no finite ratio. *)
Definition isBackpressure (p : ConcurrentPipeline) (ch : ChanArg) (capacity : Z) : bool :=
  match ch with
  | BidirectionalChan length =>
      if decide (capacity = 0) then bool_decide (0 < length)
      else Qle_bool (backpressureThreshold p) (inject_Z length / inject_Z capacity)
  | SendOnlyChan _ => false
  | OtherArg => false
  end.

(** ** The run of [Execute]

    [Execute] starts one goroutine for the input reader, one for each
    processor, one for the output writer and one that waits for them; the
    caller's goroutine then waits in a [select].  A run is a sequence of
    actions, each the work one goroutine does between two channel
    operations; which goroutine acts next is the scheduler's choice, and a
    [select] with several ready cases may take any of them.  Channels are
    buffered (capacity at least one). *)

Inductive error :=
| ErrConnectInput (cause : string)
| ErrConnectOutput (cause : string)
| ErrReadBatch (cause : string)
| ErrProcessorFailed (index : nat) (name : string) (cause : string)
| ErrWriteBatch (cause : string)
| ErrPipeline (cause : error)
| ErrPipelineCancelled
| ErrFlush (cause : string).

(** [err.Error()]; the cause of a cancellation is [ctx.Err()]. *)
Fixpoint Error (e : error) : string :=
  match e with
  | ErrConnectInput c => String.append "failed to connect input: " c
  | ErrConnectOutput c => String.append "failed to connect output: " c
  | ErrReadBatch c => String.append "failed to read batch: " c
  | ErrProcessorFailed _ name c =>
      String.append "processor (" (String.append name (String.append ") failed: " c))
  | ErrWriteBatch c => String.append "failed to write batch: " c
  | ErrPipeline c => String.append "pipeline error: " (Error c)
  | ErrPipelineCancelled => "pipeline cancelled: context canceled"
  | ErrFlush c => String.append "failed to flush output: " c
  end.

(** The calls a run makes on its plugins and its checkpoint manager, and
    the sleeps of the backpressure throttle (in milliseconds). *)
Inductive event :=
| EvConnectInput
| EvConnectOutput
| EvReadBatch
| EvProcess (index : nat) (batch : DataBatch)
| EvWriteBatch (batch : DataBatch)
| EvFlush
| EvCloseInput
| EvCloseOutput
| EvSaveCheckpoint (stage : string) (checkpoint : loc)
| EvSleep (ms : Z).

(** A [chan *types.DataBatch]. *)
Record Chan := mkChan {
  buf : list DataBatch;
  cap : Z;
  closed : bool
}.

Definition make_chan (capacity : Z) : Chan := mkChan [] capacity false.
Definition len (c : Chan) : Z := Z.of_nat (length (buf c)).
Definition has_room (c : Chan) : bool := (len c <? cap c)%Z.
Definition send (b : DataBatch) (c : Chan) : Chan := mkChan (buf c ++ [b]) (cap c) (closed c).
Definition close (c : Chan) : Chan := mkChan (buf c) (cap c) true.
Definition set_buf (l : list DataBatch) (c : Chan) : Chan := mkChan l (cap c) (closed c).

(** Where each goroutine stands. *)
Inductive ReaderState :=
| RLoop
| RSend (batch : DataBatch)
| RError (e : error)
| RDone.

Inductive ProcState :=
| PLoop
| PSend (batch : DataBatch)
| PError (e : error)
| PDone.

Inductive WriterState :=
| WLoop
| WError (e : error)
| WDone.

Inductive MainState :=
| MSelect
| MJoin (result : option error)
| MReturned (result : option error).

(** The state of a run.  [script] is what the input has yet to return;
    [chans] is [processorChans]; [ctx_cancelled] is the caller's context and
    [pipelineCtx_cancelled] the [cancel] of the derived one; [done] is the
    channel closed after [wg.Wait()]. *)
Record State := mkState {
  script : list ReadResult;
  reader : ReaderState;
  procs : list ProcState;
  writer : WriterState;
  chans : list Chan;
  errorChan : list error;
  ctx_cancelled : bool;
  pipelineCtx_cancelled : bool;
  done : bool;
  main : MainState;
  trace : list event;
  totalBatches : Z;
  totalRecords : Z
}.

Definition set_script (v : list ReadResult) (s : State) : State :=
  mkState v (reader s) (procs s) (writer s) (chans s) (errorChan s) (ctx_cancelled s) (pipelineCtx_cancelled s) (done s) (main s) (trace s) (totalBatches s) (totalRecords s).
Definition set_reader (v : ReaderState) (s : State) : State :=
  mkState (script s) v (procs s) (writer s) (chans s) (errorChan s) (ctx_cancelled s) (pipelineCtx_cancelled s) (done s) (main s) (trace s) (totalBatches s) (totalRecords s).
Definition set_procs (v : list ProcState) (s : State) : State :=
  mkState (script s) (reader s) v (writer s) (chans s) (errorChan s) (ctx_cancelled s) (pipelineCtx_cancelled s) (done s) (main s) (trace s) (totalBatches s) (totalRecords s).
Definition set_writer (v : WriterState) (s : State) : State :=
  mkState (script s) (reader s) (procs s) v (chans s) (errorChan s) (ctx_cancelled s) (pipelineCtx_cancelled s) (done s) (main s) (trace s) (totalBatches s) (totalRecords s).
Definition set_chans (v : list Chan) (s : State) : State :=
  mkState (script s) (reader s) (procs s) (writer s) v (errorChan s) (ctx_cancelled s) (pipelineCtx_cancelled s) (done s) (main s) (trace s) (totalBatches s) (totalRecords s).
Definition set_errorChan (v : list error) (s : State) : State :=
  mkState (script s) (reader s) (procs s) (writer s) (chans s) v (ctx_cancelled s) (pipelineCtx_cancelled s) (done s) (main s) (trace s) (totalBatches s) (totalRecords s).
Definition set_ctx_cancelled (v : bool) (s : State) : State :=
  mkState (script s) (reader s) (procs s) (writer s) (chans s) (errorChan s) v (pipelineCtx_cancelled s) (done s) (main s) (trace s) (totalBatches s) (totalRecords s).
Definition set_pipelineCtx_cancelled (v : bool) (s : State) : State :=
  mkState (script s) (reader s) (procs s) (writer s) (chans s) (errorChan s) (ctx_cancelled s) v (done s) (main s) (trace s) (totalBatches s) (totalRecords s).
Definition set_done (v : bool) (s : State) : State :=
  mkState (script s) (reader s) (procs s) (writer s) (chans s) (errorChan s) (ctx_cancelled s) (pipelineCtx_cancelled s) v (main s) (trace s) (totalBatches s) (totalRecords s).
Definition set_main (v : MainState) (s : State) : State :=
  mkState (script s) (reader s) (procs s) (writer s) (chans s) (errorChan s) (ctx_cancelled s) (pipelineCtx_cancelled s) (done s) v (trace s) (totalBatches s) (totalRecords s).
Definition set_trace (v : list event) (s : State) : State :=
  mkState (script s) (reader s) (procs s) (writer s) (chans s) (errorChan s) (ctx_cancelled s) (pipelineCtx_cancelled s) (done s) (main s) v (totalBatches s) (totalRecords s).
Definition set_totalBatches (v : Z) (s : State) : State :=
  mkState (script s) (reader s) (procs s) (writer s) (chans s) (errorChan s) (ctx_cancelled s) (pipelineCtx_cancelled s) (done s) (main s) (trace s) v (totalRecords s).
Definition set_totalRecords (v : Z) (s : State) : State :=
  mkState (script s) (reader s) (procs s) (writer s) (chans s) (errorChan s) (ctx_cancelled s) (pipelineCtx_cancelled s) (done s) (main s) (trace s) (totalBatches s) v.

Definition ctx_done (s : State) : bool := ctx_cancelled s || pipelineCtx_cancelled s.

Definition reader_done (st : ReaderState) : bool :=
  match st with RDone => true | _ => false end.

Definition proc_done (st : ProcState) : bool :=
  match st with PDone => true | _ => false end.

Definition writer_done (st : WriterState) : bool :=
  match st with WDone => true | _ => false end.

(** Every goroutine has called [wg.Done()]. *)
Definition all_done (s : State) : bool :=
  reader_done (reader s) && forallb proc_done (procs s) && writer_done (writer s).

(** The capacity of [errorChan]. *)
Definition errorChan_cap : nat := 10.

Definition errorChan_has_room (s : State) : bool := (length (errorChan s) <? errorChan_cap)%nat.

Definition log (evs : list event) (s : State) : State := set_trace (trace s ++ evs) s.

(** The checkpoint save of a stage, when the manager and the batch's
    checkpoint are both non-nil; its error is only logged. *)
Definition save_checkpoint (p : ConcurrentPipeline) (stage : string) (b : DataBatch)
  : list event :=
  if checkpointManager p then
    match BCheckpoint b with
    | Some l => [EvSaveCheckpoint stage l]
    | None => []
    end
  else [].

(** The deferred [close(outputChan)] of the reader and of processor [i]. *)
Definition close_chan (i : nat) (s : State) : State := set_chans (alter close i (chans s)) s.

Definition reader_returns (s : State) : State := close_chan 0 (set_reader RDone s).

Definition proc_returns (i : nat) (s : State) : State :=
  close_chan (S i) (set_procs (<[i := PDone]> (procs s)) s).

(** The deferred calls of [Execute], last deferred first: [cancel()],
    [p.output.Close()], [p.input.Close()]. *)
Definition execute_returns (result : option error) (s : State) : State :=
  set_main (MReturned result)
    (log [EvCloseOutput; EvCloseInput] (set_pipelineCtx_cancelled true s)).

Inductive action :=
| AReaderCancel
| AReaderSleep
| AReaderRead
| AReaderSend
| AReaderSendCancel
| AReaderError
| AProcCancel (i : nat)
| AProcClosed (i : nat)
| AProcRecv (i : nat)
| AProcSend (i : nat)
| AProcSendCancel (i : nat)
| AProcError (i : nat)
| AWriterCancel
| AWriterClosed
| AWriterRecv
| AWriterError
| AWaiter
| AMainDone
| AMainError
| AMainCancel
| AMainJoin
| ACancel.

(** The only action that is not the program's: the caller cancels. *)
Definition is_program (a : action) : bool :=
  match a with
  | ACancel => false
  | _ => true
  end.

Section Run.
Variable p : ConcurrentPipeline.

(** [runInputReader]. *)
Definition fire_reader (a : action) (s : State) : option State :=
  match a, reader s, chans s !! 0%nat with
  | AReaderCancel, RLoop, _ =>
      if ctx_done s then Some (reader_returns s) else None
  | AReaderSleep, RLoop, Some c =>
      if ctx_done s then None
      else if isBackpressure p (SendOnlyChan (len c)) (inputBufferSize p)
      then Some (log [EvSleep 100] s)
      else None
  | AReaderRead, RLoop, Some c =>
      if ctx_done s then None
      else if isBackpressure p (SendOnlyChan (len c)) (inputBufferSize p) then None
      else
        (* batch, err := p.input.ReadBatch(p.batchSize) *)
        let result := head (script s) in
        let s := log [EvReadBatch] (set_script (tail (script s)) s) in
        match result with
        | None | Some ReadBatch_EOF => Some (reader_returns s)
        | Some (ReadBatch_error msg) => Some (set_reader (RError (ErrReadBatch msg)) s)
        | Some ReadBatch_nil => Some (reader_returns s)
        | Some (ReadBatch_ok batch) =>
            if IsEmpty batch then Some (reader_returns s)
            else Some (set_reader (RSend batch) (log (save_checkpoint p "input" batch) s))
        end
  | AReaderSend, RSend batch, Some c =>
      if has_room c
      then Some (set_totalBatches (totalBatches s + 1)
                   (set_reader RLoop (set_chans (<[0%nat := send batch c]> (chans s)) s)))
      else None
  | AReaderSendCancel, RSend _, _ =>
      if ctx_done s then Some (reader_returns s) else None
  | AReaderError, RError e, _ =>
      if errorChan_has_room s
      then Some (reader_returns (set_errorChan (errorChan s ++ [e]) s))
      else None
  | _, _, _ => None
  end.

(** [runProcessor] for the processor of index [i], between
    [processorChans[i]] and [processorChans[i+1]]. *)
Definition fire_proc (a : action) (i : nat) (s : State) : option State :=
  match procs s !! i, processors p !! i, chans s !! i, chans s !! S i with
  | Some st, Some processor, Some cin, Some cout =>
      match a, st with
      | AProcCancel _, PLoop =>
          if ctx_done s then Some (proc_returns i s) else None
      | AProcClosed _, PLoop =>
          match buf cin with
          | [] => if closed cin then Some (proc_returns i s) else None
          | _ :: _ => None
          end
      | AProcRecv _, PLoop =>
          match buf cin with
          | [] => None
          | batch :: rest =>
              let s := set_chans (<[i := set_buf rest cin]> (chans s)) s in
              let s :=
                if isBackpressure p (SendOnlyChan (len cout)) (processorBufferSize p)
                then log [EvSleep 50] s else s in
              let s := log [EvProcess i batch] s in
              match Process processor batch with
              | inr msg =>
                  Some (set_procs
                          (<[i := PError (ErrProcessorFailed i (Name (proc_plugin processor)) msg)]>
                             (procs s)) s)
              | inl processed =>
                  if IsEmpty processed then Some s
                  else Some (set_procs (<[i := PSend processed]> (procs s)) s)
              end
          end
      | AProcSend _, PSend processed =>
          if has_room cout
          then Some (set_procs (<[i := PLoop]> (procs s))
                       (set_chans (<[S i := send processed cout]> (chans s)) s))
          else None
      | AProcSendCancel _, PSend _ =>
          if ctx_done s then Some (proc_returns i s) else None
      | AProcError _, PError e =>
          if errorChan_has_room s
          then Some (proc_returns i (set_errorChan (errorChan s ++ [e]) s))
          else None
      | _, _ => None
      end
  | _, _, _, _ => None
  end.

(** [runOutputWriter], reading [processorChans[len(p.processors)]]. *)
Definition fire_writer (a : action) (s : State) : option State :=
  let n := length (processors p) in
  match a, writer s, chans s !! n with
  | AWriterCancel, WLoop, _ =>
      if ctx_done s then Some (set_writer WDone s) else None
  | AWriterClosed, WLoop, Some c =>
      match buf c with
      | [] => if closed c then Some (set_writer WDone s) else None
      | _ :: _ => None
      end
  | AWriterRecv, WLoop, Some c =>
      match buf c with
      | [] => None
      | batch :: rest =>
          let s := log [EvWriteBatch batch] (set_chans (<[n := set_buf rest c]> (chans s)) s) in
          match WriteBatch (output p) batch with
          | Some msg => Some (set_writer (WError (ErrWriteBatch msg)) s)
          | None =>
              Some (log (save_checkpoint p "output" batch)
                      (set_totalRecords (totalRecords s + Size batch) s))
          end
      end
  | AWriterError, WError e, _ =>
      if errorChan_has_room s
      then Some (set_writer WDone (set_errorChan (errorChan s ++ [e]) s))
      else None
  | _, _, _ => None
  end.

(** The goroutine [wg.Wait(); close(done)] and the [select] of [Execute]
    with what follows each of its cases. *)
Definition fire_main (a : action) (s : State) : option State :=
  match a, main s with
  | AWaiter, _ =>
      if all_done s && negb (done s) then Some (set_done true s) else None
  | AMainDone, MSelect =>
      if done s then
        let s := log [EvFlush] s in
        match Flush (output p) with
        | Some msg => Some (execute_returns (Some (ErrFlush msg)) s)
        | None => Some (execute_returns None s)
        end
      else None
  | AMainError, MSelect =>
      match errorChan s with
      | [] => None
      | err :: rest =>
          Some (set_main (MJoin (Some (ErrPipeline err)))
                  (set_pipelineCtx_cancelled true (set_errorChan rest s)))
      end
  | AMainCancel, MSelect =>
      if ctx_cancelled s
      then Some (set_main (MJoin (Some ErrPipelineCancelled)) (set_pipelineCtx_cancelled true s))
      else None
  | AMainJoin, MJoin result =>
      if all_done s then Some (execute_returns result s) else None
  | _, _ => None
  end.

Definition fire (a : action) (s : State) : option State :=
  match a with
  | AReaderCancel | AReaderSleep | AReaderRead | AReaderSend | AReaderSendCancel
  | AReaderError => fire_reader a s
  | AProcCancel i | AProcClosed i | AProcRecv i | AProcSend i | AProcSendCancel i
  | AProcError i => fire_proc a i s
  | AWriterCancel | AWriterClosed | AWriterRecv | AWriterError => fire_writer a s
  | AWaiter | AMainDone | AMainError | AMainCancel | AMainJoin => fire_main a s
  | ACancel => Some (set_ctx_cancelled true s)
  end.

(** A schedule, run from a state; [None] when an action is not enabled. *)
Fixpoint run (schedule : list action) (s : State) : option State :=
  match schedule with
  | [] => Some s
  | a :: rest =>
      match fire a s with
      | Some s' => run rest s'
      | None => None
      end
  end.

(** A run that never started its goroutines. *)
Definition stopped (cancelled : bool) (result : option error) (evs : list event) : State :=
  mkState [] RDone [] WDone [] [] cancelled false false (MReturned result) evs 0 0.

(** [Execute] up to its [select]: the two connects, the channels and the
    goroutines.  [cancelled] tells whether the caller's context is already
    cancelled. *)
Definition start (cancelled : bool) : State :=
  match in_Connect (input p) with
  | Some msg => stopped cancelled (Some (ErrConnectInput msg)) [EvConnectInput]
  | None =>
      match out_Connect (output p) with
      | Some msg =>
          stopped cancelled (Some (ErrConnectOutput msg))
            [EvConnectInput; EvConnectOutput; EvCloseInput]
      | None =>
          mkState (reads (input p)) RLoop (replicate (length (processors p)) PLoop) WLoop
            (make_chan (inputBufferSize p)
               :: replicate (length (processors p)) (make_chan (processorBufferSize p)))
            [] cancelled false false MSelect [EvConnectInput; EvConnectOutput] 0 0
      end
  end.

End Run.

(** The batches the reader passes on before the input ends. *)
Fixpoint consumed (script : list ReadResult) : list DataBatch :=
  match script with
  | ReadBatch_ok batch :: rest => if IsEmpty batch then [] else batch :: consumed rest
  | _ => []
  end.

(** The input ends by [io.EOF], a nil batch or an empty batch, not by an
    error. *)
Fixpoint ends_cleanly (script : list ReadResult) : bool :=
  match script with
  | [] => true
  | ReadBatch_ok batch :: rest => if IsEmpty batch then true else ends_cleanly rest
  | ReadBatch_error _ :: _ => false
  | _ :: _ => true
  end.

(** Some processor of the chain returns an empty batch for the batch, the
    processors before it passing it on without error. *)
Fixpoint filtered_by (chain : list ProcessorPlugin) (batch : DataBatch) : bool :=
  match chain with
  | [] => false
  | processor :: rest =>
      match Process processor batch with
      | inr _ => false
      | inl processed => if IsEmpty processed then true else filtered_by rest processed
      end
  end.

Definition is_write (e : event) : bool :=
  match e with EvWriteBatch _ => true | _ => false end.

Definition is_flush (e : event) : bool :=
  match e with EvFlush => true | _ => false end.

Definition is_sleep (e : event) : bool :=
  match e with EvSleep _ => true | _ => false end.

Definition count (f : event -> bool) (evs : list event) : nat := length (List.filter f evs).

(** ** Runs in which every batch is filtered out

    What holds of every state of such a run when nobody cancels.  A batch
    waiting in [processorChans[k]] will be filtered by a processor from
    index [k] on, so none waits in the last channel. *)

Definition reader_ok (chain : list ProcessorPlugin) (script : list ReadResult)
    (st : ReaderState) : Prop :=
  match st with
  | RLoop =>
      ends_cleanly script = true ∧
      Forall (λ b, filtered_by chain b = true) (consumed script)
  | RSend batch =>
      (ends_cleanly script = true ∧
       Forall (λ b, filtered_by chain b = true) (consumed script)) ∧
      filtered_by chain batch = true
  | RError _ => False
  | RDone => True
  end.

Definition proc_ok (chain : list ProcessorPlugin) (i : nat) (st : ProcState) : Prop :=
  match st with
  | PSend batch => filtered_by (drop (S i) chain) batch = true
  | PError _ => False
  | _ => True
  end.

Definition chan_ok (chain : list ProcessorPlugin) (k : nat) (c : Chan) : Prop :=
  Forall (λ b, filtered_by (drop k chain) b = true) (buf c) ∧ (0 < cap c)%Z.

Record filtering (p : ConcurrentPipeline) (s : State) : Prop := mkFiltering {
  f_ctx : ctx_cancelled s = false;
  f_cancel : pipelineCtx_cancelled s = true → all_done s = true;
  f_errors : errorChan s = [];
  f_main : main s = MSelect ∨ main s = MReturned None;
  f_reader : reader_ok (processors p) (script s) (reader s);
  f_procs_len : length (procs s) = length (processors p);
  f_chans_len : length (chans s) = S (length (processors p));
  f_procs : ∀ i st, procs s !! i = Some st → proc_ok (processors p) i st;
  f_chans : ∀ k c, chans s !! k = Some c → chan_ok (processors p) k c;
  f_writer : match writer s with WError _ => False | _ => True end;
  f_writes : count is_write (trace s) = 0%nat;
  f_records : totalRecords s = 0;
  f_flush :
    count is_flush (trace s) = match main s with MReturned _ => 1%nat | _ => 0%nat end;
  f_closed0 : ∀ c, chans s !! 0%nat = Some c → closed c = reader_done (reader s);
  f_closedS : ∀ i c st,
    chans s !! S i = Some c → procs s !! i = Some st → closed c = proc_done st;
  f_drained : ∀ i c,
    procs s !! i = Some PDone → chans s !! i = Some c → buf c = [] ∧ closed c = true;
  f_drainedW : writer s = WDone →
    ∀ c, chans s !! length (processors p) = Some c → buf c = [] ∧ closed c = true;
  f_done : done s = true → all_done s = true;
  f_returned : ∀ r, main s = MReturned r → done s = true
}.

(** Some goroutine of the program can act. *)
Definition enabled (p : ConcurrentPipeline) (s : State) : Prop :=
  ∃ a, is_program a = true ∧ is_Some (fire p a s).

(** ** A bound on the length of runs

    Every batch weighs more the further it is from the output, and every
    goroutine weighs more the further it is from returning. *)

Definition weight (n k : nat) : nat := 2 * (n - k) + 2.

Fixpoint chans_measure (n k : nat) (cs : list Chan) : nat :=
  match cs with
  | [] => 0
  | c :: rest => length (buf c) * weight n k + chans_measure n (S k) rest
  end.

Definition proc_measure (n i : nat) (st : ProcState) : nat :=
  match st with
  | PLoop => 2
  | PSend _ => 2 * (n - i) + 3
  | PError _ => 1
  | PDone => 0
  end.

Fixpoint procs_measure (n i : nat) (ps : list ProcState) : nat :=
  match ps with
  | [] => 0
  | st :: rest => proc_measure n i st + procs_measure n (S i) rest
  end.

Definition reader_measure (n : nat) (script : list ReadResult) (st : ReaderState) : nat :=
  match st with
  | RLoop => 2 + (2 * n + 4) * length script
  | RSend _ => 2 * n + 5 + (2 * n + 4) * length script
  | RError _ => 1
  | RDone => 0
  end.

Definition writer_measure (st : WriterState) : nat :=
  match st with
  | WLoop => 2
  | WError _ => 1
  | WDone => 0
  end.

Definition main_measure (st : MainState) : nat :=
  match st with
  | MSelect => 2
  | MJoin _ => 1
  | MReturned _ => 0
  end.

Definition measure (p : ConcurrentPipeline) (s : State) : nat :=
  let n := length (processors p) in
  reader_measure n (script s) (reader s) + procs_measure n 0 (procs s)
  + chans_measure n 0 (chans s) + writer_measure (writer s)
  + (if done s then 0 else 1) + main_measure (main s).

(** ** The serial [Pipeline.Execute] *)

Inductive serial_error :=
| SErrConnectInput (cause : string)
| SErrConnectOutput (cause : string)
| SErrReadBatch (cause : string)
| SErrProcessorFailed (index : nat) (cause : string)
| SErrWriteBatch (cause : string)
| SErrFlush (cause : string).

(** The loop over the processors, from index [i] on: the batch it ends
    with (an empty one breaks the loop), or the error. *)
Fixpoint process_all (i : nat) (chain : list ProcessorPlugin) (processedBatch : DataBatch)
  : list event * (DataBatch + serial_error) :=
  match chain with
  | [] => ([], inl processedBatch)
  | processor :: rest =>
      match Process processor processedBatch with
      | inr msg => ([EvProcess i processedBatch], inr (SErrProcessorFailed i msg))
      | inl processed =>
          if IsEmpty processed then ([EvProcess i processedBatch], inl processed)
          else
            let '(evs, r) := process_all (S i) rest processed in
            (EvProcess i processedBatch :: evs, r)
      end
  end.

(** The loop over the batches; [script] is what the input has yet to
    return. *)
Fixpoint serial_loop (p : Pipeline) (script : list ReadResult)
  : list event * option serial_error :=
  match script with
  | ReadBatch_ok batch :: rest =>
      if IsEmpty batch then ([EvReadBatch], None)
      else
        match process_all 0 (s_processors p) batch with
        | (evs, inr e) => (EvReadBatch :: evs, Some e)
        | (evs, inl processedBatch) =>
            if IsEmpty processedBatch then
              let '(evs', r) := serial_loop p rest in
              (EvReadBatch :: evs ++ evs', r)
            else
              match WriteBatch (s_output p) processedBatch with
              | Some msg =>
                  (EvReadBatch :: evs ++ [EvWriteBatch processedBatch],
                   Some (SErrWriteBatch msg))
              | None =>
                  let '(evs', r) := serial_loop p rest in
                  (EvReadBatch :: evs ++ EvWriteBatch processedBatch :: evs', r)
              end
        end
  | ReadBatch_error msg :: _ => ([EvReadBatch], Some (SErrReadBatch msg))
  | ReadBatch_nil :: _ | ReadBatch_EOF :: _ | [] => ([EvReadBatch], None)
  end.

(** [Pipeline.Execute]: the calls it makes on its plugins and its result;
    the deferred [Close] calls run last, the output's first. *)
Definition Pipeline_Execute (p : Pipeline) : list event * option serial_error :=
  match in_Connect (s_input p) with
  | Some msg => ([EvConnectInput], Some (SErrConnectInput msg))
  | None =>
      match out_Connect (s_output p) with
      | Some msg =>
          ([EvConnectInput; EvConnectOutput; EvCloseInput], Some (SErrConnectOutput msg))
      | None =>
          let '(evs, r) := serial_loop p (reads (s_input p)) in
          match r with
          | Some e =>
              ([EvConnectInput; EvConnectOutput] ++ evs ++ [EvCloseOutput; EvCloseInput],
               Some e)
          | None =>
              ([EvConnectInput; EvConnectOutput] ++ evs
                 ++ [EvFlush; EvCloseOutput; EvCloseInput],
               match Flush (s_output p) with
               | Some msg => Some (SErrFlush msg)
               | None => None
               end)
          end
      end
  end.

(** The serial pipeline on the plugins of a concurrent one. *)
Definition serial_of (p : ConcurrentPipeline) : Pipeline :=
  mkPipeline (input p) (processors p) (output p) (batchSize p).

(** ** What a run says of its plugins *)

(** The batches given to [WriteBatch], in order. *)
Definition writes (evs : list event) : list DataBatch :=
  omap (λ e, match e with EvWriteBatch batch => Some batch | _ => None end) evs.

(** The records of the batches [WriteBatch] took without error. *)
Definition written_records (out : OutputPlugin) (evs : list event) : Z :=
  foldr (λ batch acc, match WriteBatch out batch with
                      | None => Size batch + acc
                      | Some _ => acc
                      end) 0 (writes evs).

Definition is_read (e : event) : bool :=
  match e with EvReadBatch => true | _ => false end.

Definition is_close (e : event) : bool :=
  match e with EvCloseInput | EvCloseOutput => true | _ => false end.

(** ** The batches on their way

    What a processor passes on of the batches it is given, up to its first
    error, and what the output is given, up to its first error. *)
Fixpoint through (processor : ProcessorPlugin) (l : list DataBatch) : list DataBatch :=
  match l with
  | [] => []
  | batch :: rest =>
      match Process processor batch with
      | inr _ => []
      | inl processed =>
          if IsEmpty processed then through processor rest
          else processed :: through processor rest
      end
  end.

Fixpoint write_attempts (out : OutputPlugin) (l : list DataBatch) : list DataBatch :=
  match l with
  | [] => []
  | batch :: rest =>
      match WriteBatch out batch with
      | Some _ => [batch]
      | None => batch :: write_attempts out rest
      end
  end.

(** The batches the reader has yet to pass on. *)
Definition reader_pending (s : State) : list DataBatch :=
  match reader s with
  | RLoop => consumed (script s)
  | RSend batch => batch :: consumed (script s)
  | _ => []
  end.

(** The batches that will have come out of [processorChans[k]] when the
    goroutines before it run to their end: those waiting in it, then the one
    the stage before it holds, then what that stage makes of the batches
    coming to it.  A stage that has returned passes nothing on. *)
Fixpoint arrivals (chain : list ProcessorPlugin) (first : list DataBatch)
    (ps : list ProcState) (bufs : list (list DataBatch)) (k : nat) : list DataBatch :=
  match k with
  | O => default [] (bufs !! 0%nat) ++ first
  | S i =>
      default [] (bufs !! S i) ++
      match ps !! i, chain !! i with
      | Some PLoop, Some processor => through processor (arrivals chain first ps bufs i)
      | Some (PSend batch), Some processor =>
          batch :: through processor (arrivals chain first ps bufs i)
      | _, _ => []
      end
  end.

(** The batches the writer will yet give to the output. *)
Definition expected (p : ConcurrentPipeline) (s : State) : list DataBatch :=
  match writer s with
  | WLoop =>
      write_attempts (output p)
        (arrivals (processors p) (reader_pending s) (procs s) (buf <$> chans s)
           (length (processors p)))
  | _ => []
  end.

(** What holds of every state of a run whose goroutines were started: a
    closed channel has its sender returned, [done] is closed after the last
    goroutine, and [Execute] returns after it. *)
Record started (p : ConcurrentPipeline) (s : State) : Prop := mkStarted {
  st_procs_len : length (procs s) = length (processors p);
  st_chans_len : length (chans s) = S (length (processors p));
  st_closed0 : (closed <$> chans s) !! 0%nat = Some true → reader s = RDone;
  st_closedS : ∀ i, (closed <$> chans s) !! S i = Some true → procs s !! i = Some PDone;
  st_done : done s = true → all_done s = true;
  st_join : ∀ r, main s = MJoin r → is_Some r;
  st_select : main s = MSelect → pipelineCtx_cancelled s = false;
  st_returned : ∀ r, main s = MReturned r → all_done s = true
}.

(** The mock plugins of the pipeline tests. *)
Definition mock_plugin (name : string) : Plugin := mkPlugin name (λ _, None) (λ _, None).

Definition createTestBatch (numRecords : nat) : DataBatch :=
  mkBatch ["id"; "name"] (replicate numRecords (mkRecord [VInt 0; VString "test"] ∅)) ∅ None.

Definition mockInputPlugin (batches : list DataBatch) : InputPlugin :=
  mkInput (mock_plugin "mock-input") None (ReadBatch_ok <$> batches).

Definition mockProcessorPlugin (name : string) (filterAll : bool) : ProcessorPlugin :=
  mkProcessor (mock_plugin name)
    (λ input, if filterAll then inl (mkBatch (Schema input) [] ∅ None) else inl input).

Definition mockOutputPlugin : OutputPlugin :=
  mkOutput (mock_plugin "mock-output") None (λ _, None) None.

(** The pipeline of [TestConcurrentPipelineExecuteWithFilter]. *)
Definition filter_pipeline : ConcurrentPipeline :=
  NewConcurrentPipeline (mockInputPlugin [createTestBatch 10; createTestBatch 20])
    [mockProcessorPlugin "filter" true] mockOutputPlugin None.

(** The pipeline of [TestConcurrentPipelineBackpressure], with two batches
    and a buffer of one slot. *)
Definition backpressure_pipeline : ConcurrentPipeline :=
  NewConcurrentPipeline (mockInputPlugin [createTestBatch 10; createTestBatch 10])
    [mockProcessorPlugin "slow-proc" false] mockOutputPlugin
    (Some (mkConcurrentConfig 100 1 1 2 (5 # 10) false)).

(** A pipeline with no processor whose input is at its end. *)
Definition empty_pipeline : ConcurrentPipeline :=
  NewConcurrentPipeline (mockInputPlugin []) [] mockOutputPlugin None.

(** A pipeline with no processor whose input fails at the first read. *)
Definition failing_pipeline : ConcurrentPipeline :=
  NewConcurrentPipeline
    (mkInput (mock_plugin "mock-input") None [ReadBatch_error "connection reset"])
    [] mockOutputPlugin None.

End pipeline.

(* ===================================================================== *)
(** * Package [config]: the configuration converter *)
(* ===================================================================== *)

Module config.
Import types plugins.

Record InputConfig := mkInputConfig {
  InputType : string;
  InputCfg : ConfigMap
}.

Record ProcessorConfig := mkProcessorConfig {
  ProcessorType : string;
  ProcessorCfg : ConfigMap
}.

Record OutputConfig := mkOutputConfig {
  OutputType : string;
  OutputCfg : ConfigMap
}.

Record SettingsConfig := mkSettings {
  BatchSize : Z;
  Mode : string
}.

Record PipelineConfig := mkPipelineConfig {
  Input : InputConfig;
  Processors : list ProcessorConfig;
  Output : OutputConfig;
  Settings : SettingsConfig
}.

Inductive error :=
| ErrParseYAML (cause : string)
| ErrInputTypeRequired
| ErrOutputTypeRequired
| ErrGetInputPlugin (name : string) (cause : plugin.error)
| ErrInitializeInput (cause : string)
| ErrGetProcessorPlugin (name : string) (cause : plugin.error)
| ErrInitializeProcessor (index : nat) (cause : string)
| ErrGetOutputPlugin (name : string) (cause : plugin.error)
| ErrInitializeOutput (cause : string).

(** The calls the converter makes on plugins. *)
Inductive call :=
| CallInitialize (name : string) (cfg : ConfigMap)
| CallValidate (name : string).

Definition is_validate (c : call) : bool :=
  match c with CallValidate _ => true | CallInitialize _ _ => false end.

(** [Converter]: the registry it looks plugins up in. *)
Record Converter := mkConverter {
  registry : plugin.Registry
}.

Definition NewConverter (r : plugin.Registry) : Converter := mkConverter r.

Definition ValidateConfig (c : Converter) (config : PipelineConfig) : option error :=
  if decide (InputType (Input config) = "") then Some ErrInputTypeRequired
  else if decide (OutputType (Output config) = "") then Some ErrOutputTypeRequired
  else None.

Section WithYaml.

(** [yaml.Unmarshal] into a [PipelineConfig] (gopkg.in/yaml.v3). *)
Variable yaml_Unmarshal : string -> PipelineConfig + string.

Definition ParseYAML (c : Converter) (yamlConfig : string) : PipelineConfig + error :=
  match yaml_Unmarshal yamlConfig with
  | inr msg => inr (ErrParseYAML msg)
  | inl config =>
      match ValidateConfig c config with
      | Some err => inr err
      | None => inl config
      end
  end.

End WithYaml.

(** The loop over [config.Processors] of both builders, from index [i]:
    the initialised processors or the first error, and the calls made. *)
Fixpoint build_processors (c : Converter) (procs : list ProcessorConfig) (i : nat)
  : (list ProcessorPlugin + error) * list call :=
  match procs with
  | [] => (inl [], [])
  | procConfig :: rest =>
      match plugin.GetProcessor (ProcessorType procConfig) (registry c) with
      | inr err => (inr (ErrGetProcessorPlugin (ProcessorType procConfig) err), [])
      | inl processor =>
          let made := CallInitialize (Name (proc_plugin processor)) (ProcessorCfg procConfig) in
          match Initialize (proc_plugin processor) (ProcessorCfg procConfig) with
          | Some err => (inr (ErrInitializeProcessor i err), [made])
          | None =>
              match build_processors c rest (S i) with
              | (inl processors, calls) => (inl (processor :: processors), made :: calls)
              | (inr err, calls) => (inr err, made :: calls)
              end
          end
      end
  end.

(** The part the two builders share: input, processors, output, in that
    order, stopping at the first error. *)
Definition build_stages (c : Converter) (config : PipelineConfig)
  : (InputPlugin * list ProcessorPlugin * OutputPlugin + error) * list call :=
  match plugin.GetInput (InputType (Input config)) (registry c) with
  | inr err => (inr (ErrGetInputPlugin (InputType (Input config)) err), [])
  | inl input =>
      let made_in := CallInitialize (Name (in_plugin input)) (InputCfg (Input config)) in
      match Initialize (in_plugin input) (InputCfg (Input config)) with
      | Some err => (inr (ErrInitializeInput err), [made_in])
      | None =>
          match build_processors c (Processors config) 0 with
          | (inr err, calls) => (inr err, made_in :: calls)
          | (inl processors, calls) =>
              match plugin.GetOutput (OutputType (Output config)) (registry c) with
              | inr err =>
                  (inr (ErrGetOutputPlugin (OutputType (Output config)) err), made_in :: calls)
              | inl output =>
                  let made_out :=
                    CallInitialize (Name (out_plugin output)) (OutputCfg (Output config)) in
                  match Initialize (out_plugin output) (OutputCfg (Output config)) with
                  | Some err => (inr (ErrInitializeOutput err), made_in :: calls ++ [made_out])
                  | None => (inl (input, processors, output), made_in :: calls ++ [made_out])
                  end
              end
          end
      end
  end.

Definition BuildPipeline (c : Converter) (config : PipelineConfig)
  : (pipeline.Pipeline + error) * list call :=
  match build_stages c config with
  | (inr err, calls) => (inr err, calls)
  | (inl (input, processors, output), calls) =>
      let p := pipeline.NewPipeline input processors output in
      (inl (if (0 <? BatchSize (Settings config))%Z
            then pipeline.SetBatchSize (BatchSize (Settings config)) p else p), calls)
  end.

Definition BuildConcurrentPipeline (c : Converter) (config : PipelineConfig)
  : (pipeline.ConcurrentPipeline + error) * list call :=
  match build_stages c config with
  | (inr err, calls) => (inr err, calls)
  | (inl (input, processors, output), calls) =>
      let d := pipeline.DefaultConcurrentConfig in
      let pipelineConfig :=
        if (0 <? BatchSize (Settings config))%Z
        then pipeline.mkConcurrentConfig (BatchSize (Settings config))
               (pipeline.InputBufferSize d) (pipeline.ProcessorBufferSize d)
               (pipeline.OutputBufferSize d) (pipeline.BackpressureThreshold d)
               (pipeline.CheckpointEnabled d)
        else d in
      (inl (pipeline.NewConcurrentPipeline input processors output (Some pipelineConfig)), calls)
  end.

(** A registry with the plugins [csv] (input and output) and [filter]; the
    filter's [Validate] refuses a configuration without a condition. *)
Definition csv_input : InputPlugin := mkInput (mkPlugin "csv" (λ _, None) (λ _, None)) None [].

Definition csv_output : OutputPlugin :=
  mkOutput (mkPlugin "csv" (λ _, None) (λ _, None)) None (λ _, None) None.

Definition filter_processor : ProcessorPlugin :=
  mkProcessor
    (mkPlugin "filter" (λ _, None)
       (λ cfg, match cfg !! "condition" with
               | Some _ => None
               | None => Some "condition is required"
               end))
    inl.

Definition example_registry : plugin.Registry :=
  plugin.mkRegistry (<["csv" := csv_input]> ∅) (<["filter" := filter_processor]> ∅)
    (<["csv" := csv_output]> ∅).

(** Three specs over [example_registry]: a processor with an empty type, a
    processor that is not registered, and a filter whose own [Validate]
    refuses its configuration. *)
Definition spec_with (procs : list ProcessorConfig) : PipelineConfig :=
  mkPipelineConfig (mkInputConfig "csv" ∅) procs (mkOutputConfig "csv" ∅) (mkSettings 1000 "async").

Definition spec_empty_type : PipelineConfig := spec_with [mkProcessorConfig "" ∅].
Definition spec_unregistered : PipelineConfig := spec_with [mkProcessorConfig "dedupe" ∅].
Definition spec_invalid_filter : PipelineConfig := spec_with [mkProcessorConfig "filter" ∅].

(** A toy YAML reader for the worked examples. *)
Definition yaml_example (text : string) : PipelineConfig + string :=
  if decide (text = "input: {type: csv}
processors: [{type: ''}]
output: {type: csv}")
  then inl spec_empty_type
  else inr "yaml: unmarshal errors".

End config.

(* ===================================================================== *)
(** * Properties of the job manager *)
(* ===================================================================== *)

Module jobmanager_props.
Import models jobmanager.

Lemma validTransitions_lookup (from : JobStatus) :
  validTransitions !! from =
    if decide (from = JobStatusDraft) then Some [JobStatusReady]
    else if decide (from = JobStatusReady) then Some [JobStatusRunning; JobStatusDraft]
    else if decide (from = JobStatusRunning)
         then Some [JobStatusPaused; JobStatusCompleted; JobStatusFailed]
    else if decide (from = JobStatusPaused) then Some [JobStatusRunning; JobStatusCompleted]
    else if decide (from = JobStatusCompleted) then Some [JobStatusReady]
    else if decide (from = JobStatusFailed) then Some [JobStatusReady]
    else None.
Proof.
  unfold validTransitions.
  rewrite !lookup_insert, lookup_empty.
  repeat case_decide; congruence.
Qed.

Lemma range_allowed_None allowed from to :
  range_allowed allowed from to = None ↔ to ∈ allowed.
Proof.
  induction allowed as [|s rest IH]; simpl.
  - split; [discriminate | intros H; inversion H].
  - case_decide as Hs.
    + subst. split; [intros _; left | done].
    + rewrite IH, elem_of_cons. split; [tauto | intros [?|?]; [congruence | done]].
Qed.

Lemma range_allowed_Some allowed from to e :
  range_allowed allowed from to = Some e → e = ErrInvalidStateTransition from to.
Proof.
  induction allowed as [|s rest IH]; simpl; [congruence|].
  case_decide; [discriminate | exact IH].
Qed.

(** [validateStateTransition] accepts exactly the pairs of the table. *)
Lemma validateStateTransition_table from to :
  validateStateTransition from to = None ↔ (from, to) ∈ allowed_transitions.
Proof.
  unfold validateStateTransition. rewrite validTransitions_lookup.
  unfold allowed_transitions.
  repeat case_decide; subst; rewrite ?range_allowed_None;
    rewrite ?elem_of_cons, ?elem_of_nil;
    (split; [intros Hin | intros Hin]);
    repeat match goal with
           | H : _ ∨ _ |- _ => destruct H
           | H : (_, _) = (_, _) |- _ => injection H as ? ?
           | H : _ ∈ _ :: _ |- _ => apply elem_of_cons in H
           | H : _ ∈ [] |- _ => apply elem_of_nil in H
           end; subst; try done; try congruence; naive_solver.
Qed.

Lemma validateStateTransition_error from to e :
  validateStateTransition from to = Some e → invalid_transition e.
Proof.
  unfold validateStateTransition.
  destruct (validTransitions !! from) as [allowed|].
  - intros H%range_allowed_Some. subst. exact I.
  - intros [= <-]. exact I.
Qed.

Section Requests.
Context {S : Type} `{!database.MetadataStore S}.
Variable yaml_Unmarshal : string -> gmap string YamlNode + string.

Lemma serve_accepts_table r (m m' : Manager S) tr :
  serve yaml_Unmarshal r m = (None, m') →
  attempted r m = Some tr →
  tr ∈ allowed_transitions.
Proof.
  unfold attempted.
  destruct (database.GetJob (request_job r) (store m)) as [job|err] eqn:Hget; [|done].
  destruct r as [now now_db j|now now_db id|now now_db id|now now_db id|now now_db id];
    simpl in *.
  - unfold UpdateJob. rewrite Hget.
    destruct (decide (Status j = Status job)) as [|Hne]; [done|].
    intros Hs [= <-].
    destruct (validateStateTransition (Status job) (Status j)) eqn:Hv.
    + simpl in Hs. congruence.
    + by apply validateStateTransition_table.
  - unfold StartJob. rewrite Hget. intros Hs [= <-].
    destruct (decide (Status job = JobStatusRunning)); [simpl in Hs; congruence|].
    destruct (validateStateTransition (Status job) JobStatusRunning) eqn:Hv;
      [simpl in Hs; congruence|].
    by apply validateStateTransition_table.
  - unfold StopJob. rewrite Hget. intros Hs [= <-].
    destruct (decide (Status job ≠ JobStatusRunning ∧ Status job ≠ JobStatusPaused))
      as [|Hn]; [simpl in Hs; congruence|].
    unfold allowed_transitions, request_to.
    destruct (decide (Status job = JobStatusRunning)) as [->|];
      [|destruct (decide (Status job = JobStatusPaused)) as [->|]; [|tauto]];
      rewrite !elem_of_cons; tauto.
  - unfold PauseJob, transitionJob. rewrite Hget. intros Hs [= <-].
    destruct (validateStateTransition (Status job) JobStatusPaused) eqn:Hv;
      [simpl in Hs; congruence|].
    by apply validateStateTransition_table.
  - unfold ResumeJob, transitionJob. rewrite Hget. intros Hs [= <-].
    destruct (validateStateTransition (Status job) JobStatusRunning) eqn:Hv;
      [simpl in Hs; congruence|].
    by apply validateStateTransition_table.
Qed.

Lemma serve_rejects_outside r (m : Manager S) tr :
  attempted r m = Some tr →
  tr ∉ allowed_transitions →
  ∃ e, serve yaml_Unmarshal r m = (Some e, m) ∧ invalid_transition e.
Proof.
  unfold attempted.
  destruct (database.GetJob (request_job r) (store m)) as [job|err] eqn:Hget; [|done].
  destruct r as [now now_db j|now now_db id|now now_db id|now now_db id|now now_db id];
    simpl in *.
  - destruct (decide (Status j = Status job)) as [|Hne]; [done|].
    intros [= <-] Hout. unfold UpdateJob. rewrite Hget.
    rewrite decide_False by done.
    destruct (validateStateTransition (Status job) (Status j)) as [e|] eqn:Hv.
    + exists e. split; [done|]. by eapply validateStateTransition_error.
    + by apply validateStateTransition_table in Hv.
  - intros [= <-] Hout. unfold StartJob. rewrite Hget.
    destruct (decide (Status job = JobStatusRunning)).
    { eexists. split; [done|]. exact I. }
    destruct (validateStateTransition (Status job) JobStatusRunning) as [e|] eqn:Hv.
    + exists e. split; [done|]. by eapply validateStateTransition_error.
    + by apply validateStateTransition_table in Hv.
  - intros [= <-] Hout. unfold StopJob. rewrite Hget.
    destruct (decide (Status job ≠ JobStatusRunning ∧ Status job ≠ JobStatusPaused))
      as [|Hn].
    { eexists. split; [done|]. exact I. }
    exfalso. apply Hout. unfold allowed_transitions, request_to.
    destruct (decide (Status job = JobStatusRunning)) as [->|];
      [|destruct (decide (Status job = JobStatusPaused)) as [->|]; [|tauto]];
      rewrite !elem_of_cons; tauto.
  - intros [= <-] Hout. unfold PauseJob, transitionJob. rewrite Hget.
    destruct (validateStateTransition (Status job) JobStatusPaused) as [e|] eqn:Hv.
    + exists e. split; [done|]. by eapply validateStateTransition_error.
    + by apply validateStateTransition_table in Hv.
  - intros [= <-] Hout. unfold ResumeJob, transitionJob. rewrite Hget.
    destruct (validateStateTransition (Status job) JobStatusRunning) as [e|] eqn:Hv.
    + exists e. split; [done|]. by eapply validateStateTransition_error.
    + by apply validateStateTransition_table in Hv.
Qed.

Lemma serve_all_log rs (m : Manager S) :
  Forall (λ tr, tr ∈ allowed_transitions) (serve_all yaml_Unmarshal rs m).1.
Proof.
  revert m. induction rs as [|r rs IH]; intros m; simpl; [constructor|].
  destruct (serve yaml_Unmarshal r m) as [e m'] eqn:Hs.
  specialize (IH m').
  destruct (serve_all yaml_Unmarshal rs m') as [log m''] eqn:Hall. simpl in *.
  destruct e as [e|]; [done|].
  destruct (attempted r m) as [tr|] eqn:Hat; [|done].
  constructor; [|done]. by eapply serve_accepts_table.
Qed.

Lemma StartJob_draft now now_db id (m : Manager S) job :
  database.GetJob id (store m) = inl job →
  Status job = JobStatusDraft →
  StartJob now now_db id m =
    (Some (ErrInvalidStateTransition JobStatusDraft JobStatusRunning), m).
Proof.
  intros Hget Hst. unfold StartJob. rewrite Hget, Hst. reflexivity.
Qed.

(** C3. Every status change the manager accepts through update, start,
    stop, pause or resume is a pair of the allowed-transitions table, over
    single requests and over every sequence of requests; every attempted
    change outside the table is refused with an invalid-transition error and
    leaves the manager as it was; starting a draft job is refused.  (An
    update carrying the stored status attempts no change.) *)
Theorem job_status_changes_follow_table :
  (∀ rs (m : Manager S),
     Forall (λ tr, tr ∈ allowed_transitions) (serve_all yaml_Unmarshal rs m).1) ∧
  (∀ r (m m' : Manager S) tr,
     serve yaml_Unmarshal r m = (None, m') →
     attempted r m = Some tr → tr ∈ allowed_transitions) ∧
  (∀ r (m : Manager S) tr,
     attempted r m = Some tr → tr ∉ allowed_transitions →
     ∃ e, serve yaml_Unmarshal r m = (Some e, m) ∧ invalid_transition e) ∧
  (∀ now now_db id (m : Manager S) job,
     database.GetJob id (store m) = inl job →
     Status job = JobStatusDraft →
     ∃ e, StartJob now now_db id m = (Some e, m) ∧ invalid_transition e).
Proof.
  split; [exact serve_all_log|].
  split; [exact serve_accepts_table|].
  split; [exact serve_rejects_outside|].
  intros now now_db id m job Hget Hst.
  eexists. split; [by eapply StartJob_draft|]. exact I.
Qed.

(** [validateJobConfig] reads the name and the configuration text only,
    and writes the [Config] field only. *)
Lemma validateJobConfig_inv job e job' :
  validateJobConfig yaml_Unmarshal job = (e, job') →
  JobID job' = JobID job ∧ Status job' = Status job ∧
  CreatedAt job' = CreatedAt job ∧ UpdatedAt job' = UpdatedAt job ∧
  JobName job' = JobName job ∧ ConfigYAML job' = ConfigYAML job.
Proof.
  unfold validateJobConfig.
  repeat case_decide; [by intros [= <- <-] | by intros [= <- <-] |].
  destruct (yaml_Unmarshal (ConfigYAML job)) as [config|msg]; [|by intros [= <- <-]].
  destruct (config !! "input"); [|by intros [= <- <-]].
  destruct (config !! "output"); by intros [= <- <-].
Qed.

Lemma validateJobConfig_ext job1 job2 :
  JobName job1 = JobName job2 → ConfigYAML job1 = ConfigYAML job2 →
  (validateJobConfig yaml_Unmarshal job1).1 = (validateJobConfig yaml_Unmarshal job2).1.
Proof.
  intros Hn Hc. unfold validateJobConfig. rewrite Hn, Hc.
  repeat case_decide; try done.
  destruct (yaml_Unmarshal (ConfigYAML job2)) as [config|msg]; [|done].
  destruct (config !! "input"); [|done].
  by destruct (config !! "output").
Qed.

Lemma prepared_fields uuid now job :
  JobID (prepared uuid now job) = (if decide (JobID job = "") then uuid else JobID job) ∧
  Status (prepared uuid now job)
    = (if decide (Status job = "") then JobStatusDraft else Status job) ∧
  CreatedAt (prepared uuid now job) = now ∧ UpdatedAt (prepared uuid now job) = now ∧
  JobName (prepared uuid now job) = JobName job ∧
  ConfigYAML (prepared uuid now job) = ConfigYAML job.
Proof. unfold prepared. repeat case_decide; simpl; repeat case_decide; done. Qed.

(** C8, as the code has it.  For a job with a valid configuration, create
    assigns [uuid] if the id is empty, sets the status to draft if the
    status is empty and keeps a status the caller gave, sets both timestamps
    to [now], and hands the job to the store; when the store accepts it the
    job is cached under its id and create succeeds.  On an invalid
    configuration create fails and neither the store nor the cache
    changes. *)
Theorem create_job_defaults_and_persists uuid now job (m : Manager S) :
  let r := CreateJob yaml_Unmarshal uuid now job m in
  let job' := r.1.2 in
  JobID job' = (if decide (JobID job = "") then uuid else JobID job) ∧
  Status job' = (if decide (Status job = "") then JobStatusDraft else Status job) ∧
  CreatedAt job' = now ∧ UpdatedAt job' = now ∧
  ((validateJobConfig yaml_Unmarshal job).1 = None →
     store r.2 = (database.SaveJob job' (store m)).2 ∧
     ((database.SaveJob job' (store m)).1 = None →
        r.1.1 = None ∧
        jobs r.2 !! JobID job' = Some (mkInstance job' (Status job') now None None))) ∧
  (∀ e, (validateJobConfig yaml_Unmarshal job).1 = Some e →
     r.1.1 = Some (ErrInvalidJobConfiguration e) ∧ r.2 = m).
Proof.
  intros r job'. subst r job'. unfold CreateJob. fold (prepared uuid now job).
  destruct (prepared_fields uuid now job) as (Hid & Hst & Hc & Hu & Hn & Hy).
  pose proof (validateJobConfig_ext (prepared uuid now job) job Hn Hy) as Hext.
  destruct (validateJobConfig yaml_Unmarshal (prepared uuid now job)) as [e job1] eqn:Hv.
  apply validateJobConfig_inv in Hv as (Hid1 & Hst1 & Hc1 & Hu1 & _ & _).
  simpl in Hext.
  destruct e as [e|].
  - simpl. rewrite Hid1, Hst1, Hc1, Hu1.
    repeat split; try done; congruence.
  - destruct (database.SaveJob job1 (store m)) as [[err|] st] eqn:Hsave; simpl;
      rewrite ?Hsave, Hid1, Hst1, Hc1, Hu1; simpl.
    + repeat split; try done; congruence.
    + repeat split; try done; try congruence.
      apply lookup_insert_eq.
Qed.

End Requests.

Example example_manager_row :
  Status <$> (database.jobs_table (store example_manager) !! "job-1") = Some JobStatusDraft.
Proof. vm_compute. reflexivity. Qed.

Lemma job_status_changes_follow_table_witness :
  (serve_all yaml_example
     [ReqStart 101 101 "job-1";
      ReqUpdate 102 102 (example_job_as JobStatusReady);
      ReqStart 103 103 "job-1";
      ReqPause 104 104 "job-1";
      ReqStop 105 105 "job-1";
      ReqStart 106 106 "job-1"] example_manager).1
  = [(JobStatusDraft, JobStatusReady); (JobStatusReady, JobStatusRunning);
     (JobStatusRunning, JobStatusPaused); (JobStatusPaused, JobStatusCompleted)]
  ∧ (JobStatusDraft, JobStatusReady) ∈ allowed_transitions
  ∧ (∃ e, serve yaml_example (ReqStart 101 101 "job-1") example_manager
          = (Some e, example_manager) ∧ invalid_transition e)
  ∧ (∃ e, StartJob 101 101 "job-1" example_manager = (Some e, example_manager)
          ∧ invalid_transition e).
Proof.
  destruct (job_status_changes_follow_table (S := database.SQLiteStore) yaml_example)
    as (_ & Hacc & Hrej & Hdraft).
  split; [vm_compute; reflexivity|].
  split.
  - apply (Hacc (ReqUpdate 102 102 (example_job_as JobStatusReady)) example_manager
             (serve yaml_example (ReqUpdate 102 102 (example_job_as JobStatusReady))
                example_manager).2).
    + vm_compute. reflexivity.
    + vm_compute. reflexivity.
  - split.
    + apply (Hrej (ReqStart 101 101 "job-1") example_manager
               (JobStatusDraft, JobStatusRunning)).
      * vm_compute. reflexivity.
      * unfold allowed_transitions. rewrite !elem_of_cons, elem_of_nil.
        intros Hin. repeat destruct Hin as [Hin|Hin]; try discriminate Hin. exact Hin.
    + apply (Hdraft 101 101 "job-1" example_manager
               (mkJob "job-1" "test-job" "etl" "Test job description"
                  (ConfigYAML example_job) "" "" JobStatusDraft "" 100 100 true 1 "" None)).
      * vm_compute. reflexivity.
      * reflexivity.
Defined.

Lemma create_job_defaults_and_persists_witness :
  let r := CreateJob yaml_example "job-1" 100 example_job
             (NewManager database.sqlite_empty) in
  r.1.1 = None ∧ JobID r.1.2 = "job-1" ∧ Status r.1.2 = JobStatusDraft ∧
  jobs r.2 !! "job-1" = Some (mkInstance r.1.2 JobStatusDraft 100 None None) ∧
  is_Some (database.jobs_table (store r.2) !! "job-1").
Proof.
  pose proof (create_job_defaults_and_persists (S := database.SQLiteStore) yaml_example
                "job-1" 100 example_job (NewManager database.sqlite_empty))
    as (Hid & Hst & _ & _ & Hvalid & _).
  destruct (Hvalid ltac:(vm_compute; reflexivity)) as (Hstore & Hok).
  destruct (Hok ltac:(vm_compute; reflexivity)) as (Hnil & Hcache).
  cbv zeta. split; [exact Hnil|]. split; [exact Hid|]. split; [exact Hst|].
  split; [|rewrite Hstore; vm_compute; eauto].
  rewrite Hid in Hcache. rewrite Hst in Hcache. exact Hcache.
Defined.

(** C8 as stated fails: a job submitted with status [ready] and a valid
    configuration is created with status [ready], not [draft]. *)
Lemma create_job_keeps_given_status :
  let r := CreateJob yaml_example "job-1" 100 (example_job_as JobStatusReady)
             (NewManager database.sqlite_empty) in
  (validateJobConfig yaml_example (example_job_as JobStatusReady)).1 = None ∧
  r.1.1 = None ∧
  Status r.1.2 = JobStatusReady ∧
  Status r.1.2 ≠ JobStatusDraft ∧
  iStatus <$> (jobs r.2 !! "job-1") = Some JobStatusReady.
Proof. vm_compute. repeat split; congruence. Qed.

(** ** Deleting, and the contexts of running jobs *)

(** [DeleteJob] refuses a job whose stored status is running and then
    changes nothing.  With the SQLite store, deleting a stored job of any
    other status removes the row and the cached instance, after which the
    job is not found by [GetJob] or by a second [DeleteJob]; the running set
    and the cancelled contexts are left as they were, so deleting a paused
    job neither cancels its context nor takes it out of the running set. *)
Theorem delete_job_spares_running_jobs :
  (∀ S `{!database.MetadataStore S} jobID (m : Manager S) job,
     database.GetJob jobID (store m) = inl job → Status job = JobStatusRunning →
     DeleteJob jobID m = (Some ErrCannotDeleteRunning, m)) ∧
  (∀ jobID (m : Manager database.SQLiteStore) row,
     database.jobs_table (store m) !! jobID = Some row → Status row ≠ JobStatusRunning →
     ∃ m', DeleteJob jobID m = (None, m') ∧
       database.jobs_table (store m') = delete jobID (database.jobs_table (store m)) ∧
       jobs m' = delete jobID (jobs m) ∧
       running m' = running m ∧ ctx_cancelled m' = ctx_cancelled m ∧
       GetJob jobID m' = (inr (ErrJobNotFound (String.append "job not found: " jobID)), m') ∧
       DeleteJob jobID m'
         = (Some (ErrJobNotFound (String.append "job not found: " jobID)), m')).
Proof.
  split.
  - intros S HS jobID m job Hget Hrun. unfold DeleteJob. rewrite Hget.
    by rewrite decide_True.
  - intros jobID m row Hrow Hst. unfold DeleteJob, GetJob. simpl.
    unfold database.sqlite_GetJob, database.sqlite_DeleteJob. rewrite Hrow.
    rewrite decide_False by done. simpl. eexists. split; [reflexivity|]. simpl.
    rewrite !lookup_delete_eq. done.
Qed.

Lemma delete_job_spares_running_jobs_witness :
  ∃ m', DeleteJob "job-1" example_manager = (None, m') ∧
    database.jobs_table (store m') = ∅ ∧ jobs m' = ∅ ∧
    GetJob "job-1" m' = (inr (ErrJobNotFound "job not found: job-1"), m').
Proof.
  destruct delete_job_spares_running_jobs as [_ Hdel].
  destruct (Hdel "job-1" example_manager
              (set_Config None (prepared "job-1" 100 example_job)))
    as (m' & Hd & Ht & Hj & _ & _ & Hg & _).
  - reflexivity.
  - discriminate.
  - exists m'. split; [exact Hd|]. rewrite Ht, Hj. split; [reflexivity|].
    split; [reflexivity | exact Hg].
Defined.
Section Contexts.
Context {S : Type} `{!database.MetadataStore S}.
Variable yaml_Unmarshal : string -> gmap string YamlNode + string.

Ltac open_call :=
  repeat match goal with
         | |- context [match ?x with _ => _ end] => destruct x eqn:?; simpl
         | |- context [if ?x then _ else _] => destruct x eqn:?; simpl
         end.

Lemma contexts_live_frame (m m' : Manager S) :
  running m' = running m → ctx_next m' = ctx_next m → ctx_cancelled m' = ctx_cancelled m →
  contexts_live m → contexts_live m'.
Proof. unfold contexts_live. by intros -> -> ->. Qed.

Lemma StartJob_contexts now now_db jobID (m m' : Manager S) e :
  StartJob now now_db jobID m = (e, m') →
  (running m' = running m ∧ ctx_next m' = ctx_next m ∧ ctx_cancelled m' = ctx_cancelled m ∧
   (e = None → False)) ∨
  (e = None ∧ running m !! jobID = None ∧
   running m' = <[jobID := ctx_next m]> (running m) ∧
   ctx_next m' = Datatypes.S (ctx_next m) ∧ ctx_cancelled m' = ctx_cancelled m ∧
   ∃ instance, jobs m' !! jobID = Some instance ∧ iCtx instance = Some (ctx_next m)).
Proof.
  unfold StartJob.
  destruct (database.GetJob jobID (store m)) as [job|err]; [|intros [= <- <-]; by left].
  case_decide; [intros [= <- <-]; by left|].
  destruct (validateStateTransition (Status job) JobStatusRunning);
    [intros [= <- <-]; by left|].
  destruct (running m !! jobID) as [c|] eqn:Hr; [intros [= <- <-]; by left|].
  destruct (database.UpdateJob _ now_db (store m)) as [[err|] st];
    intros [= <- <-]; simpl; [by left|].
  right. repeat split; try done. rewrite lookup_insert_eq. eauto.
Qed.

Lemma StopJob_contexts now now_db jobID (m m' : Manager S) e :
  StopJob now now_db jobID m = (e, m') →
  (e ≠ None ∧ m' = m) ∨
  (running m' = delete jobID (running m) ∧ ctx_next m' = ctx_next m ∧
   ctx_cancelled m' = match running m !! jobID with
                      | Some ctx => {[ctx]} ∪ ctx_cancelled m
                      | None => ctx_cancelled m
                      end ∧
   (e = None → ∀ instance, jobs m !! jobID = Some instance →
      ∃ instance', jobs m' !! jobID = Some instance' ∧ iCtx instance' = None)).
Proof.
  unfold StopJob.
  destruct (database.GetJob jobID (store m)) as [job|err]; [|intros [= <- <-]; by left].
  case_decide; [intros [= <- <-]; by left|].
  destruct (running m !! jobID) as [c|] eqn:Hr;
    destruct (database.UpdateJob _ now_db (store m)) as [[err|] st];
    intros [= <- <-]; simpl; right; repeat split; try done;
    try (by rewrite delete_id);
    intros _ instance Hi; rewrite Hi, lookup_insert_eq; eauto.
Qed.

Lemma perform_contexts_live (m : Manager S) c :
  contexts_live m → contexts_live (perform yaml_Unmarshal m c).
Proof.
  intros Hl. destruct c as [uuid now job|id|now now_db job|id|now now_db id|now now_db id
                           |now now_db id|now now_db id]; simpl.
  - eapply contexts_live_frame; [| | |exact Hl]; unfold CreateJob; open_call; done.
  - eapply contexts_live_frame; [| | |exact Hl]; unfold GetJob; open_call; done.
  - eapply contexts_live_frame; [| | |exact Hl]; unfold UpdateJob; open_call; done.
  - eapply contexts_live_frame; [| | |exact Hl]; unfold DeleteJob; open_call; done.
  - destruct (StartJob now now_db id m) as [e m'] eqn:Hs.
    apply StartJob_contexts in Hs as [(Hr & Hn & Hc & _)|(_ & Hno & Hr & Hn & Hc & _)].
    + by eapply contexts_live_frame.
    + simpl. destruct Hl as (Hlive & Hinj & Hold). split; [|split].
      * intros id' ctx. rewrite Hr, Hn, Hc.
        intros [[<- <-]|[Hne Hin]]%lookup_insert_Some.
        -- split; [lia|]. intros Hcan. apply Hold in Hcan. lia.
        -- destruct (Hlive _ _ Hin). split; [lia | done].
      * intros id1 id2 ctx. rewrite Hr.
        intros [[<- <-]|[Hne1 Hin1]]%lookup_insert_Some
               [[<- Hc2]|[Hne2 Hin2]]%lookup_insert_Some; try done.
        -- destruct (Hlive _ _ Hin2). lia.
        -- destruct (Hlive _ _ Hin1). lia.
        -- by eapply Hinj.
      * intros ctx. rewrite Hn, Hc. intros Hcan%Hold. lia.
  - destruct (StopJob now now_db id m) as [e m'] eqn:Hs.
    apply StopJob_contexts in Hs as [[_ ->]|(Hr & Hn & Hc & _)]; [done|].
    simpl. destruct Hl as (Hlive & Hinj & Hold). split; [|split].
    + intros id' ctx. rewrite Hr, Hn, Hc. intros [Hne Hin]%lookup_delete_Some.
      destruct (Hlive _ _ Hin) as [Hlt Hnc]. split; [done|].
      destruct (running m !! id) as [c|] eqn:Hid; [|done].
      intros [Hcc%elem_of_singleton|Hcc]%elem_of_union; [|done].
      subst c. by destruct Hne; eapply Hinj.
    + intros id1 id2 ctx. rewrite Hr.
      intros [_ Hin1]%lookup_delete_Some [_ Hin2]%lookup_delete_Some. by eapply Hinj.
    + intros ctx. rewrite Hn, Hc.
      destruct (running m !! id) as [c|] eqn:Hid; [|apply Hold].
      intros [Hcc%elem_of_singleton|Hcc]%elem_of_union; [|by apply Hold].
      subst c. by destruct (Hlive _ _ Hid).
  - eapply contexts_live_frame; [| | |exact Hl]; unfold PauseJob, transitionJob;
      open_call; done.
  - eapply contexts_live_frame; [| | |exact Hl]; unfold ResumeJob, transitionJob;
      open_call; done.
Qed.

Lemma perform_all_contexts_live calls (m : Manager S) :
  contexts_live m → contexts_live (perform_all yaml_Unmarshal calls m).
Proof.
  unfold perform_all. revert m. induction calls as [|c calls IH]; intros m Hl; simpl; [done|].
  by apply IH, perform_contexts_live.
Qed.

End Contexts.

(** Every started job gets a context of its own, and stopping a job
    cancels that job's context and no other.  After any run of calls on a
    new manager, each job of the running set has a context that has not
    been cancelled and that it shares with no other job.  A successful
    [StartJob] enters the job into the running set with a fresh context,
    which [GetJobContext] then returns, and leaves the other running jobs
    alone; a successful [StopJob] takes the job out of the running set,
    cancels its context if it had one, and [GetJobContext] then reports that
    the job is not running. *)
Theorem running_jobs_have_their_own_context :
  (∀ S `{!database.MetadataStore S} yaml calls (st : S),
     contexts_live (perform_all yaml calls (NewManager st))) ∧
  (∀ S `{!database.MetadataStore S} now now_db jobID (m m' : Manager S),
     contexts_live m → StartJob now now_db jobID m = (None, m') →
     ∃ ctx, running m' !! jobID = Some ctx ∧ GetJobContext jobID m' = inl ctx ∧
       (ctx ∉ ctx_cancelled m') ∧ ctx_cancelled m' = ctx_cancelled m ∧
       ∀ other, other ≠ jobID →
         (running m' !! other = running m !! other) ∧ (running m' !! other ≠ Some ctx)) ∧
  (∀ S `{!database.MetadataStore S} now now_db jobID (m m' : Manager S),
     contexts_live m → StopJob now now_db jobID m = (None, m') →
     running m' !! jobID = None ∧
     (∀ other, other ≠ jobID → running m' !! other = running m !! other) ∧
     ctx_cancelled m' = match running m !! jobID with
                        | Some ctx => {[ctx]} ∪ ctx_cancelled m
                        | None => ctx_cancelled m
                        end ∧
     (∀ other ctx, running m' !! other = Some ctx → ctx ∉ ctx_cancelled m') ∧
     (is_Some (jobs m !! jobID) → GetJobContext jobID m' = inr ErrNotRunning)).
Proof.
  split; [|split].
  - intros S HS yaml calls st. apply perform_all_contexts_live.
    split; [|split]; simpl.
    + intros jobID ctx Hr. by rewrite lookup_empty in Hr.
    + intros id1 id2 ctx Hr. by rewrite lookup_empty in Hr.
    + intros ctx Hin. by apply elem_of_empty in Hin.
  - intros S HS now now_db jobID m m' Hl Hs.
    apply StartJob_contexts in Hs as [(_ & _ & _ & Habs)|(_ & Hno & Hr & Hn & Hc & Hi)];
      [by destruct Habs|].
    destruct Hl as (Hlive & Hinj & Hold).
    destruct Hi as (instance & Hi & Hctx).
    exists (ctx_next m). rewrite Hr, Hc, lookup_insert_eq. split; [done|].
    unfold GetJobContext. rewrite Hi, Hctx. split; [done|]. split.
    { intros Hcan%Hold. lia. }
    split; [done|]. intros other Hne. rewrite lookup_insert_ne by done.
    split; [done|]. intros Hin. destruct (Hlive _ _ Hin). lia.
  - intros S HS now now_db jobID m m' Hl Hs.
    pose proof (perform_contexts_live (λ _, inr "") m (CallStop now now_db jobID) Hl) as Hl'.
    simpl in Hl'. rewrite Hs in Hl'. simpl in Hl'.
    apply StopJob_contexts in Hs as [[Habs _]|(Hr & Hn & Hc & Hi)]; [done|].
    rewrite Hr, lookup_delete_eq. split; [done|]. split.
    { intros other Hne. by rewrite lookup_delete_ne. }
    split; [done|]. split.
    { intros other ctx Hin. rewrite <- Hr in Hin. by destruct Hl' as (Hlive' & _); destruct (Hlive' _ _ Hin). }
    intros [instance Hinst]. destruct (Hi eq_refl _ Hinst) as (instance' & Hi' & Hctx).
    unfold GetJobContext. by rewrite Hi', Hctx.
Qed.

Lemma running_jobs_have_their_own_context_witness :
  let m0 := (UpdateJob yaml_example 150 151 (example_job_as JobStatusReady)
               example_manager).2 in
  ∃ m1 m2 ctx,
    StartJob 200 201 "job-1" m0 = (None, m1) ∧
    GetJobContext "job-1" m1 = inl ctx ∧ (ctx ∉ ctx_cancelled m1) ∧
    StopJob 300 301 "job-1" m1 = (None, m2) ∧
    running m2 !! "job-1" = None ∧ ctx_cancelled m2 = {[ctx]} ∪ ctx_cancelled m1 ∧
    GetJobContext "job-1" m2 = inr ErrNotRunning.
Proof.
  cbv zeta.
  destruct running_jobs_have_their_own_context as (Hall & Hstart & Hstop).
  set (m0 := (UpdateJob yaml_example 150 151 (example_job_as JobStatusReady)
                example_manager).2).
  assert (contexts_live m0) as Hl0.
  { apply (Hall database.SQLiteStore _ yaml_example
             [CallCreate "job-1" 100 example_job;
              CallUpdate 150 151 (example_job_as JobStatusReady)] database.sqlite_empty). }
  destruct (StartJob 200 201 "job-1" m0) as [e1 m1] eqn:Hs1.
  assert (e1 = None) as -> by (vm_compute in Hs1; by injection Hs1 as <- _).
  destruct (Hstart _ _ _ _ _ _ _ Hl0 Hs1) as (ctx & Hr1 & Hg1 & Hn1 & _ & _).
  assert (contexts_live m1) as Hl1.
  { pose proof (Hall database.SQLiteStore _ yaml_example
             [CallCreate "job-1" 100 example_job;
              CallUpdate 150 151 (example_job_as JobStatusReady);
              CallStart 200 201 "job-1"] database.sqlite_empty) as Hl.
    unfold perform_all in Hl. simpl in Hl. fold example_manager in Hl. fold m0 in Hl.
    by rewrite Hs1 in Hl. }
  destruct (StopJob 300 301 "job-1" m1) as [e2 m2] eqn:Hs2.
  assert (e2 = None) as ->.
  { revert Hs2. vm_compute in Hs1. injection Hs1 as <-. vm_compute. by intros [= <- _]. }
  destruct (Hstop _ _ _ _ _ _ _ Hl1 Hs2) as (Hr2 & _ & Hc2 & _ & Hg2).
  exists m1, m2, ctx. rewrite Hr1 in Hc2.
  repeat split; try done.
  apply Hg2. revert Hs1. vm_compute. intros [= <-]. eauto.
Defined.
(** ** The cache and the table *)

Lemma coherent_update (m : Manager database.SQLiteStore) jobID job row' st' jobs' r n c :
  coherent m → well_keyed (store m) →
  database.jobs_table st' = <[jobID := row']> (database.jobs_table (store m)) →
  Status row' = Status job → JobID job = jobID → JobID row' = jobID →
  (∃ t c1 c2, jobs' = <[jobID := mkInstance job (Status job) t c1 c2]> (jobs m)) ∨
  (jobs' = jobs m ∧ jobs m !! jobID = None) →
  coherent (mkManager st' jobs' r n c) ∧ well_keyed st'.
Proof.
  intros Hco Hkeys Htable Hst Hid Hid' Hjobs. split.
  - intros id instance. simpl. rewrite Htable.
    destruct Hjobs as [(t & c1 & c2 & ->)|[-> Hnone]].
    + intros [[<- <-]|[Hne Hin]]%lookup_insert_Some; simpl.
      * rewrite lookup_insert_eq. eauto.
      * rewrite lookup_insert_ne by done. by apply Hco.
    + intros Hin. destruct (decide (jobID = id)) as [->|Hne]; [congruence|].
      rewrite lookup_insert_ne by done. by apply Hco.
  - intros id row. rewrite Htable.
    intros [[<- <-]|[Hne Hin]]%lookup_insert_Some; [done | by apply Hkeys].
Qed.

Lemma coherent_same_store (m : Manager database.SQLiteStore) jobs' r n c :
  coherent m → jobs' = jobs m →
  coherent (mkManager (store m) jobs' r n c).
Proof. by intros Hco ->. Qed.

Lemma transition_coherent target now now_db jobID (m : Manager database.SQLiteStore) :
  coherent m → well_keyed (store m) →
  coherent (transitionJob target now now_db jobID m).2 ∧
  well_keyed (store (transitionJob target now now_db jobID m).2).
Proof.
  intros Hco Hkeys. unfold transitionJob. simpl. unfold database.sqlite_GetJob.
  destruct (database.jobs_table (store m) !! jobID) as [row|] eqn:Hrow; [|done].
  destruct (validateStateTransition (Status row) target); [done|].
  unfold database.sqlite_UpdateJob. simpl.
  pose proof (Hkeys _ _ Hrow) as Hid. rewrite Hid, Hrow. simpl.
  eapply (coherent_update m jobID (set_UpdatedAt now (set_Status target row)));
    [exact Hco | exact Hkeys | simpl; reflexivity | done | done | done |].
  destruct (jobs m !! jobID) eqn:Hj; [left; eauto | by right].
Qed.

Section Coherence.
Variable yaml_Unmarshal : string -> gmap string YamlNode + string.

Lemma validateJobConfig_keeps job e job' :
  validateJobConfig yaml_Unmarshal job = (e, job') →
  JobID job' = JobID job ∧ Status job' = Status job.
Proof.
  unfold validateJobConfig.
  repeat case_decide; try (by intros [= <- <-]).
  destruct (yaml_Unmarshal (ConfigYAML job)) as [config|msg]; [|by intros [= <- <-]].
  destruct (config !! "input"); [|by intros [= <- <-]].
  destruct (config !! "output"); by intros [= <- <-].
Qed.

Lemma perform_coherent (m : Manager database.SQLiteStore) c :
  coherent m → well_keyed (store m) →
  coherent (perform yaml_Unmarshal m c) ∧ well_keyed (store (perform yaml_Unmarshal m c)).
Proof.
  intros Hco Hkeys.
  destruct c as [uuid now job|id|now now_db job|id|now now_db id|now now_db id
                |now now_db id|now now_db id]; simpl.
  - unfold CreateJob.
    set (job0 := set_UpdatedAt now (set_CreatedAt now _)).
    destruct (validateJobConfig yaml_Unmarshal job0) as [[e|] job'] eqn:Hv; [done|].
    apply validateJobConfig_keeps in Hv as [Hid Hst].
    simpl. unfold database.sqlite_SaveJob.
    destruct (database.jobs_table (store m) !! JobID job') as [old|] eqn:Hrow; [done|].
    simpl. eapply (coherent_update m (JobID job') job');
      [exact Hco | exact Hkeys | simpl; reflexivity | done | done | done |].
    left. eauto.
  - unfold GetJob. destruct (jobs m !! id) as [instance|] eqn:Hi; [done|].
    simpl. unfold database.sqlite_GetJob.
    destruct (database.jobs_table (store m) !! id) as [row|] eqn:Hrow; [|done].
    simpl. split; [|done].
    intros id' instance. simpl.
    intros [[<- <-]|[Hne Hin]]%lookup_insert_Some; simpl; [|by apply Hco].
    split; [by apply Hkeys|]. eauto.
  - unfold UpdateJob. simpl. unfold database.sqlite_GetJob.
    destruct (database.jobs_table (store m) !! JobID job) as [row|] eqn:Hrow; [|done].
    destruct (if decide (Status job = Status row) then None
              else validateStateTransition (Status row) (Status job)); [done|].
    match goal with
    | |- context [if decide (ConfigYAML ?a = ?b) then ?x else ?y] =>
        destruct (if decide (ConfigYAML a = b) then x else y) as [[e|] job'] eqn:Hv
    end; [done|].
    assert (JobID job' = JobID job ∧ Status job' = Status job) as [Hid Hst].
    { revert Hv. case_decide; [by intros [= <-]|].
      intros Hv. by apply validateJobConfig_keeps in Hv as [-> ->]. }
    unfold database.sqlite_UpdateJob. simpl. rewrite Hid, Hrow. simpl.
    unfold refresh_instance. rewrite Hid.
    eapply (coherent_update m (JobID job) job');
      [exact Hco | exact Hkeys | simpl; reflexivity | done | done | done |].
    destruct (jobs m !! JobID job) eqn:Hj; [left; eauto | by right].
  - unfold DeleteJob. simpl. unfold database.sqlite_GetJob.
    destruct (database.jobs_table (store m) !! id) as [row|] eqn:Hrow; [|done].
    case_decide; [done|]. simpl. split.
    + intros id' instance. simpl. intros [Hne Hin]%lookup_delete_Some.
      rewrite lookup_delete_ne by done. by apply Hco.
    + intros id' row'. simpl. intros [Hne Hin]%lookup_delete_Some. by apply Hkeys.
  - unfold StartJob. simpl. unfold database.sqlite_GetJob.
    destruct (database.jobs_table (store m) !! id) as [row|] eqn:Hrow; [|done].
    case_decide; [done|].
    destruct (validateStateTransition (Status row) JobStatusRunning); [done|].
    destruct (running m !! id); [done|].
    unfold database.sqlite_UpdateJob. simpl.
    pose proof (Hkeys _ _ Hrow) as Hid. rewrite Hid, Hrow. simpl.
    eapply (coherent_update m id (set_UpdatedAt now (set_Status JobStatusRunning row)));
      [exact Hco | exact Hkeys | simpl; reflexivity | done | done | done |].
    left. eauto.
  - unfold StopJob. simpl. unfold database.sqlite_GetJob.
    destruct (database.jobs_table (store m) !! id) as [row|] eqn:Hrow; [|done].
    case_decide; [done|].
    unfold database.sqlite_UpdateJob. simpl.
    pose proof (Hkeys _ _ Hrow) as Hid. rewrite Hid, Hrow.
    destruct (running m !! id); simpl;
      (eapply (coherent_update m id (set_UpdatedAt now (set_Status JobStatusCompleted row)));
       [exact Hco | exact Hkeys | simpl; reflexivity | done | done | done
       | destruct (jobs m !! id) eqn:Hj; [left; eauto | by right]]).
  - by apply transition_coherent.
  - by apply transition_coherent.
Qed.

Lemma perform_all_coherent calls (m : Manager database.SQLiteStore) :
  coherent m → well_keyed (store m) →
  coherent (perform_all yaml_Unmarshal calls m) ∧
  well_keyed (store (perform_all yaml_Unmarshal calls m)).
Proof.
  unfold perform_all. revert m.
  induction calls as [|c calls IH]; intros m Hco Hkeys; simpl; [done|].
  destruct (perform_coherent m c Hco Hkeys). by apply IH.
Qed.

End Coherence.


Lemma StartJob_sqlite now now_db jobID (m m1 : Manager database.SQLiteStore) :
  well_keyed (store m) → StartJob now now_db jobID m = (None, m1) →
  ∃ row, database.jobs_table (store m) !! jobID = Some row ∧
    validateStateTransition (Status row) JobStatusRunning = None ∧
    running m !! jobID = None ∧
    m1 = mkManager
           (database.mkSQLite
              (<[jobID := set_Config None (set_UpdatedAt now_db
                            (set_Status JobStatusRunning row))]>
                 (database.jobs_table (store m)))
              (database.workers_table (store m)))
           (<[jobID := mkInstance (set_UpdatedAt now (set_Status JobStatusRunning row))
                         JobStatusRunning now (Some (ctx_next m)) (Some (ctx_next m))]>
              (jobs m))
           (<[jobID := ctx_next m]> (running m)) (Datatypes.S (ctx_next m)) (ctx_cancelled m).
Proof.
  intros Hkeys. unfold StartJob. simpl. unfold database.sqlite_GetJob.
  destruct (database.jobs_table (store m) !! jobID) as [row|] eqn:Hrow; [|done].
  case_decide; [done|].
  destruct (validateStateTransition (Status row) JobStatusRunning) eqn:Hv; [done|].
  destruct (running m !! jobID) eqn:Hr; [done|].
  unfold database.sqlite_UpdateJob. simpl.
  rewrite (Hkeys _ _ Hrow), Hrow. intros [= <-].
  exists row. repeat split; try done.
Qed.

(** A running job that is marked completed through [UpdateJob] stays in
    the running set, which only [StopJob] clears.  With the SQLite store:
    once [StartJob] has succeeded, updating the stored job to completed and
    then to ready both succeed, and the job is then ready in the store but
    can be neither started, which fails with already-running, nor stopped,
    which fails because it is ready. *)
Theorem job_completed_by_update_stays_in_running_set
    yaml t1 d1 t2 d2 t3 d3 t4 d4 jobID (m m1 : Manager database.SQLiteStore) :
  well_keyed (store m) →
  StartJob t1 d1 jobID m = (None, m1) →
  ∃ row1 job2 m2 row2 job3 m3,
    database.jobs_table (store m1) !! jobID = Some row1 ∧ Status row1 = JobStatusRunning ∧
    UpdateJob yaml t2 d2 (set_Status JobStatusCompleted row1) m1 = (None, job2, m2) ∧
    database.jobs_table (store m2) !! jobID = Some row2 ∧ Status row2 = JobStatusCompleted ∧
    UpdateJob yaml t3 d3 (set_Status JobStatusReady row2) m2 = (None, job3, m3) ∧
    (Status <$> database.jobs_table (store m3) !! jobID) = Some JobStatusReady ∧
    is_Some (running m3 !! jobID) ∧
    StartJob t4 d4 jobID m3 = (Some ErrAlreadyRunning, m3) ∧
    StopJob t4 d4 jobID m3 = (Some (ErrCannotStopIn JobStatusReady), m3).
Proof.
  intros Hkeys Hstart.
  destruct (StartJob_sqlite _ _ _ _ _ Hkeys Hstart) as (row & Hrow & Hv & Hr & ->).
  pose proof (Hkeys _ _ Hrow) as Hid.
  assert (validateStateTransition JobStatusRunning JobStatusCompleted = None) as Hrc
    by reflexivity.
  assert (validateStateTransition JobStatusCompleted JobStatusReady = None) as Hcr
    by reflexivity.
  assert (validateStateTransition JobStatusReady JobStatusRunning = None) as Hrr
    by reflexivity.
  eexists _, _, _, _, _, _. simpl.
  split; [apply lookup_insert_eq|]. split; [reflexivity|].
  split.
  { unfold UpdateJob. simpl. unfold database.sqlite_GetJob, database.sqlite_UpdateJob.
    repeat (progress (simpl; rewrite ?Hid, ?lookup_insert_eq, ?Hrc, ?decide_True by done)).
    reflexivity. }
  repeat (progress (simpl; rewrite ?Hid, ?lookup_insert_eq)).
  split; [reflexivity|]. split; [reflexivity|].
  split.
  { unfold UpdateJob. simpl. unfold database.sqlite_GetJob, database.sqlite_UpdateJob.
    repeat (progress (simpl; rewrite ?Hid, ?lookup_insert_eq, ?Hcr, ?decide_True by done)).
    reflexivity. }
  repeat (progress (simpl; rewrite ?Hid, ?lookup_insert_eq)).
  split; [reflexivity|]. split; [eauto|].
  split.
  - unfold StartJob. simpl. unfold database.sqlite_GetJob.
    repeat (progress (simpl; rewrite ?Hid, ?lookup_insert_eq, ?Hrr)). reflexivity.
  - unfold StopJob. simpl. unfold database.sqlite_GetJob.
    repeat (progress (simpl; rewrite ?Hid, ?lookup_insert_eq)).
    reflexivity.
Qed.

Lemma job_completed_by_update_stays_in_running_set_witness :
  let m0 := (UpdateJob yaml_example 150 151 (example_job_as JobStatusReady)
               example_manager).2 in
  ∃ m1 m3,
    StartJob 200 201 "job-1" m0 = (None, m1) ∧
    (Status <$> database.jobs_table (store m3) !! "job-1") = Some JobStatusReady ∧
    StartJob 500 501 "job-1" m3 = (Some ErrAlreadyRunning, m3) ∧
    StopJob 500 501 "job-1" m3 = (Some (ErrCannotStopIn JobStatusReady), m3).
Proof.
  cbv zeta.
  destruct (StartJob 200 201 "job-1"
              (UpdateJob yaml_example 150 151 (example_job_as JobStatusReady)
                 example_manager).2) as [e1 m1] eqn:Hs1.
  assert (e1 = None) as -> by (vm_compute in Hs1; by injection Hs1 as <- _).
  assert (well_keyed (store (UpdateJob yaml_example 150 151 (example_job_as JobStatusReady)
                               example_manager).2)) as Hkeys.
  { apply (perform_all_coherent yaml_example
             [CallCreate "job-1" 100 example_job;
              CallUpdate 150 151 (example_job_as JobStatusReady)]
             (NewManager database.sqlite_empty)); by intros ??. }
  destruct (job_completed_by_update_stays_in_running_set yaml_example
              200 201 300 301 400 401 500 501 "job-1"
              (UpdateJob yaml_example 150 151 (example_job_as JobStatusReady)
                 example_manager).2 m1 Hkeys Hs1)
    as (row1 & job2 & m2 & row2 & job3 & m3 & _ & _ & _ & _ & _ & _ & Hready & _
        & Hstart & Hstop).
  exists m1, m3. done.
Defined.

(** ** [GetJobStats] *)

Lemma size_cached_as_insert (jobs : gmap string JobInstance) id instance status :
  jobs !! id = None →
  Z.of_nat (size (filter (λ ki : string * JobInstance, iStatus ki.2 = status)
                    (<[id := instance]> jobs)))
  = (Z.of_nat (size (filter (λ ki : string * JobInstance, iStatus ki.2 = status) jobs))
     + if decide (iStatus instance = status) then 1 else 0)%Z.
Proof.
  intros Hid. rewrite map_filter_insert. simpl.
  destruct (decide (iStatus instance = status)) as [Hs|Hs].
  - rewrite map_size_insert_None; [lia|].
    apply map_lookup_filter_None. by left.
  - rewrite delete_id by done. lia.
Qed.

Lemma count_instance_fields instance st :
  let st' := count_instance instance st in
  stat_total st' = stat_total st ∧
  stat_draft st' =
    (stat_draft st + if decide (iStatus instance = JobStatusDraft) then 1 else 0)%Z ∧
  stat_ready st' =
    (stat_ready st + if decide (iStatus instance = JobStatusReady) then 1 else 0)%Z ∧
  stat_running st' =
    (stat_running st + if decide (iStatus instance = JobStatusRunning) then 1 else 0)%Z ∧
  stat_paused st' =
    (stat_paused st + if decide (iStatus instance = JobStatusPaused) then 1 else 0)%Z ∧
  stat_completed st' =
    (stat_completed st + if decide (iStatus instance = JobStatusCompleted) then 1 else 0)%Z ∧
  stat_failed st' =
    (stat_failed st + if decide (iStatus instance = JobStatusFailed) then 1 else 0)%Z.
Proof.
  unfold count_instance.
  destruct (decide (iStatus instance = JobStatusDraft)) as [H1|H1].
  { rewrite H1. simpl. repeat split; lia. }
  destruct (decide (iStatus instance = JobStatusReady)) as [H2|H2].
  { rewrite H2. simpl. repeat split; lia. }
  destruct (decide (iStatus instance = JobStatusRunning)) as [H3|H3].
  { rewrite H3. simpl. repeat split; lia. }
  destruct (decide (iStatus instance = JobStatusPaused)) as [H4|H4].
  { rewrite H4. simpl. repeat split; lia. }
  destruct (decide (iStatus instance = JobStatusCompleted)) as [H5|H5].
  { rewrite H5. simpl. repeat split; lia. }
  destruct (decide (iStatus instance = JobStatusFailed)) as [H6|H6];
    simpl; repeat split; lia.
Qed.

Lemma job_stats_fold (jobs : gmap string JobInstance) st0 :
  let st := map_fold (λ _ instance stats, count_instance instance stats) st0 jobs in
  let n status :=
    Z.of_nat (size (filter (λ ki : string * JobInstance, iStatus ki.2 = status) jobs)) in
  stat_total st = stat_total st0 ∧
  stat_draft st = (stat_draft st0 + n JobStatusDraft)%Z ∧
  stat_ready st = (stat_ready st0 + n JobStatusReady)%Z ∧
  stat_running st = (stat_running st0 + n JobStatusRunning)%Z ∧
  stat_paused st = (stat_paused st0 + n JobStatusPaused)%Z ∧
  stat_completed st = (stat_completed st0 + n JobStatusCompleted)%Z ∧
  stat_failed st = (stat_failed st0 + n JobStatusFailed)%Z.
Proof.
  cbv zeta. induction jobs as [|id instance jobs Hid Hfirst IH] using map_first_key_ind.
  - rewrite map_fold_empty, !map_filter_empty, map_size_empty. simpl. repeat split; lia.
  - rewrite map_fold_insert_first_key by done.
    destruct (count_instance_fields instance
                (map_fold (λ _ instance stats, count_instance instance stats) st0 jobs))
      as (Ht & H1 & H2 & H3 & H4 & H5 & H6).
    destruct IH as (IHt & IH1 & IH2 & IH3 & IH4 & IH5 & IH6).
    rewrite Ht, H1, H2, H3, H4, H5, H6, !size_cached_as_insert by done.
    repeat split; lia.
Qed.

(** [GetJobStats] counts the cache: [total] is the number of cached jobs
    and each of the six status counters is the number of cached jobs whose
    cached status is that status, whatever order the iteration takes; the
    six counters add up to at most the total. *)
Theorem job_stats_count_cached_jobs :
  ∀ S (m : Manager S),
    let stats := GetJobStats m in
    stat_total stats = Z.of_nat (size (jobs m)) ∧
    stat_draft stats = cached_as JobStatusDraft m ∧
    stat_ready stats = cached_as JobStatusReady m ∧
    stat_running stats = cached_as JobStatusRunning m ∧
    stat_paused stats = cached_as JobStatusPaused m ∧
    stat_completed stats = cached_as JobStatusCompleted m ∧
    stat_failed stats = cached_as JobStatusFailed m ∧
    (stat_draft stats + stat_ready stats + stat_running stats + stat_paused stats
       + stat_completed stats + stat_failed stats ≤ stat_total stats)%Z.
Proof.
  intros S m. cbv zeta. unfold GetJobStats, cached_as.
  destruct (job_stats_fold (jobs m) (mkJobStats (Z.of_nat (size (jobs m))) 0 0 0 0 0 0))
    as (Ht & H1 & H2 & H3 & H4 & H5 & H6). simpl in *.
  rewrite Ht, H1, H2, H3, H4, H5, H6.
  repeat split; try lia.
  generalize (jobs m). intros jobs.
  induction jobs as [|id instance jobs Hid IH] using map_ind.
  - rewrite !map_filter_empty, map_size_empty. simpl. lia.
  - rewrite !size_cached_as_insert by done. rewrite map_size_insert_None by done.
    repeat case_decide;
      unfold JobStatusDraft, JobStatusReady, JobStatusRunning, JobStatusPaused,
        JobStatusCompleted, JobStatusFailed in *;
      try congruence; lia.
Qed.

End jobmanager_props.

(* ===================================================================== *)
(** * Package [scheduler]: the cron table kept beside the job table *)
(* ===================================================================== *)

Module scheduler_props.
Import scheduler.

Section WithParser.
Variable parse_error : string -> option string.

Lemma RemoveJob_in_step jobID s :
  in_step parse_error s → in_step parse_error (RemoveJob jobID s).2.
Proof.
  intros (Hjobs & Hentries & Hids). unfold RemoveJob.
  destruct (jobs s !! jobID) as [id|] eqn:Hj; [|done]. simpl.
  split; [|split]; simpl.
  - intros jobID' id' [Hne Hj']%lookup_delete_Some.
    destruct (Hjobs _ _ Hj') as (expr & He & Hok).
    exists expr. split; [|done]. rewrite lookup_delete_ne; [done|].
    intros <-. destruct (Hjobs _ _ Hj) as (expr0 & He0 & _).
    rewrite He in He0. by injection He0.
  - intros id' entry [Hne He]%lookup_delete_Some.
    rewrite lookup_delete_ne; [by apply Hentries|].
    intros Heq. apply Hentries in He. congruence.
  - intros id' entry [_ He]%lookup_delete_Some. by eapply Hids.
Qed.

Lemma AddJob_in_step jobID cronExpr s :
  in_step parse_error s → in_step parse_error (AddJob parse_error jobID cronExpr s).2.
Proof.
  intros (Hjobs & Hentries & Hids). unfold AddJob, cron_AddFunc.
  destruct (jobs s !! jobID) as [id|] eqn:Hj; [done|].
  case_decide as Hempty; [done|].
  destruct (parse_error cronExpr) as [msg|] eqn:Hparse; [done|]. simpl.
  assert (entries (cron s) !! S (nextID (cron s)) = None) as Hfresh.
  { destruct (entries (cron s) !! S (nextID (cron s))) as [entry|] eqn:He; [|done].
    apply Hids in He. lia. }
  split; [|split]; simpl.
  - intros jobID' id' [[<- <-]|[Hne Hj']]%lookup_insert_Some.
    + exists cronExpr. by rewrite lookup_insert_eq.
    + destruct (Hjobs _ _ Hj') as (expr & He & Hok).
      exists expr. split; [|done]. rewrite lookup_insert_ne; [done|].
      intros Heq. apply Hids in He. lia.
  - intros id' entry [[<- <-]|[Hne He]]%lookup_insert_Some; simpl.
    + by rewrite lookup_insert_eq.
    + rewrite lookup_insert_ne; [by apply Hentries|].
      intros Heq. apply Hentries in He. congruence.
  - intros id' entry [[<- <-]|[Hne He]]%lookup_insert_Some; [lia|].
    apply Hids in He. lia.
Qed.

Lemma UpdateJob_unfold jobID cronExpr s :
  UpdateJob parse_error jobID cronExpr s
  = AddJob parse_error jobID cronExpr (RemoveJob jobID s).2.
Proof.
  unfold UpdateJob, RemoveJob. destruct (jobs s !! jobID); [done|]. simpl.
  by rewrite decide_False by (by intros []).
Qed.

Lemma perform_in_step s c :
  in_step parse_error s → in_step parse_error (perform parse_error s c).
Proof.
  intros Hs. destruct c as [| |jobID expr|jobID|jobID expr]; simpl.
  - unfold Start. by destruct (running s).
  - unfold Stop. by destruct (running s).
  - by apply AddJob_in_step.
  - by apply RemoveJob_in_step.
  - rewrite UpdateJob_unfold. by apply AddJob_in_step, RemoveJob_in_step.
Qed.

Lemma size_jobs_entries s :
  in_step parse_error s → size (jobs s) = size (entries (cron s)).
Proof.
  intros (Hjobs & Hentries & _).
  rewrite <- !length_map_to_list.
  rewrite <- (length_fmap (λ ie : EntryID * Entry, (job ie.2, ie.1))
                (map_to_list (entries (cron s)))).
  apply Permutation_length.
  apply NoDup_Permutation.
  - apply NoDup_map_to_list.
  - apply NoDup_fmap_2_strong; [|apply NoDup_map_to_list].
    intros [id1 e1] [id2 e2] H1 H2 [= Hjob ->]. simpl in *.
    apply elem_of_map_to_list in H1, H2. congruence.
  - intros [jobID id]. rewrite elem_of_map_to_list, list_elem_of_fmap. split.
    + intros Hj. destruct (Hjobs _ _ Hj) as (expr & He & _).
      exists (id, mkEntry expr jobID). split; [done|]. by apply elem_of_map_to_list.
    + intros ([id' entry] & [= -> ->] & He). apply elem_of_map_to_list in He.
      by apply Hentries.
Qed.

End WithParser.

(** The scheduler's job table and the cron stay in step: after any run of
    [Start], [Stop], [AddJob], [RemoveJob] and [UpdateJob] calls on a new
    scheduler, every scheduled job has exactly one cron entry, which runs
    that job on a non-empty expression the parser accepted, the cron has no
    entry without a scheduled job, and [GetJobCount] is the number of cron
    entries; [GetScheduledJobs] lists every scheduled job once. *)
Theorem schedule_and_cron_stay_in_step parse_error calls :
  let s := foldl (perform parse_error) NewScheduler calls in
  in_step parse_error s ∧
  GetJobCount s = Z.of_nat (size (entries (cron s))) ∧
  NoDup (GetScheduledJobs s) ∧
  (∀ jobID, jobID ∈ GetScheduledJobs s ↔ is_Some (jobs s !! jobID)).
Proof.
  cbv zeta.
  assert (∀ s, in_step parse_error s →
            in_step parse_error (foldl (perform parse_error) s calls)) as Hgen.
  { induction calls as [|c calls IH]; intros s Hs; simpl; [done|].
    by apply IH, perform_in_step. }
  assert (in_step parse_error NewScheduler) as H0.
  { split; [|split]; simpl; intros ??; by rewrite lookup_empty. }
  specialize (Hgen _ H0). split; [done|].
  split; [unfold GetJobCount; by rewrite (size_jobs_entries parse_error)|].
  unfold GetScheduledJobs. split; [apply NoDup_fst_map_to_list|].
  intros jobID. rewrite list_elem_of_fmap. split.
  - intros ([j id] & -> & Hin). apply elem_of_map_to_list in Hin. eauto.
  - intros [id Hj]. exists (jobID, id). split; [done|]. by apply elem_of_map_to_list.
Qed.

(** [UpdateJob] is a removal followed by an addition, so the old schedule
    is gone before the new expression is looked at: with an expression that
    is not empty and that the parser accepts, the job ends up scheduled on a
    new entry with that expression; with an empty or refused expression
    [UpdateJob] fails and the job is left unscheduled, its old entry removed
    from the cron.  A job that was not scheduled is simply added.  Other
    jobs keep their entries. *)
Theorem update_job_replaces_or_drops_schedule parse_error jobID cronExpr s :
  let r := UpdateJob parse_error jobID cronExpr s in
  r = AddJob parse_error jobID cronExpr (RemoveJob jobID s).2 ∧
  (cronExpr ≠ "" → parse_error cronExpr = None →
     r.1 = None ∧
     jobs r.2 !! jobID = Some (S (nextID (cron s))) ∧
     entries (cron r.2) !! S (nextID (cron s)) = Some (mkEntry cronExpr jobID)) ∧
  (cronExpr = "" ∨ is_Some (parse_error cronExpr) →
     r.1 = Some (if decide (cronExpr = "") then ErrCronRequired
                 else ErrInvalidCron (default "" (parse_error cronExpr))) ∧
     jobs r.2 !! jobID = None ∧
     ∀ id, jobs s !! jobID = Some id → entries (cron r.2) !! id = None) ∧
  (∀ other, other ≠ jobID → jobs r.2 !! other = jobs s !! other).
Proof.
  cbv zeta. rewrite UpdateJob_unfold. split; [done|].
  assert (jobs (RemoveJob jobID s).2 !! jobID = None) as Hgone.
  { unfold RemoveJob. destruct (jobs s !! jobID) eqn:Hj; simpl; [|done].
    apply lookup_delete_eq. }
  assert (nextID (cron (RemoveJob jobID s).2) = nextID (cron s)) as Hnext.
  { unfold RemoveJob. by destruct (jobs s !! jobID). }
  assert (∀ other, other ≠ jobID →
            jobs (RemoveJob jobID s).2 !! other = jobs s !! other) as Hother.
  { intros other Hne. unfold RemoveJob. destruct (jobs s !! jobID); simpl; [|done].
    by rewrite lookup_delete_ne. }
  assert (∀ id, jobs s !! jobID = Some id →
            entries (cron (RemoveJob jobID s).2) !! id = None) as Hentry.
  { intros id Hj. unfold RemoveJob. rewrite Hj. simpl. apply lookup_delete_eq. }
  unfold AddJob, cron_AddFunc. rewrite Hgone, Hnext.
  split; [|split].
  - intros Hne Hok. rewrite decide_False by done. rewrite Hok. simpl.
    by rewrite !lookup_insert_eq.
  - intros Hbad. case_decide as Hempty; simpl.
    + by repeat split.
    + destruct Hbad as [?|[msg Hmsg]]; [done|]. rewrite Hmsg. simpl. by repeat split.
  - intros other Hne. case_decide; simpl; [by apply Hother|].
    destruct (parse_error cronExpr); simpl; [by apply Hother|].
    rewrite lookup_insert_ne by done. by apply Hother.
Qed.

Lemma update_job_replaces_or_drops_schedule_witness :
  let s := (AddJob toy_parser "job-1" "*/1 * * * *" NewScheduler).2 in
  let r := UpdateJob toy_parser "job-1" "invalid cron" s in
  jobs s !! "job-1" = Some 1%nat ∧
  r.1 = Some (ErrInvalidCron "expected exactly 5 fields, found 3") ∧
  jobs r.2 !! "job-1" = None ∧ entries (cron r.2) !! 1%nat = None.
Proof.
  cbv zeta.
  destruct (update_job_replaces_or_drops_schedule toy_parser "job-1" "invalid cron"
              (AddJob toy_parser "job-1" "*/1 * * * *" NewScheduler).2)
    as (_ & _ & Hbad & _).
  destruct Hbad as (He & Hj & Hentry); [right; vm_compute; eauto|].
  split; [reflexivity|]. split; [exact He|]. split; [exact Hj|].
  apply Hentry. reflexivity.
Defined.

End scheduler_props.

(* ===================================================================== *)
(** * Properties of the task queue *)
(* ===================================================================== *)

Module queue_props.
Import queue.

Local Open Scope Z_scope.

(** Where [Enqueue] puts a task: behind a prefix of tasks that rank at least
    as high, in front of a task that ranks lower. *)
Lemma insert_by_priority_split task l :
  ∃ l1 l2, l = l1 ++ l2 ∧ insert_by_priority task l = l1 ++ task :: l2 ∧
    Forall (λ t, Priority task ≤ Priority t) l1 ∧
    match l2 with [] => True | t :: _ => Priority t < Priority task end.
Proof.
  induction l as [|t rest IH]; simpl.
  - exists [], []. repeat split. constructor.
  - destruct (Priority t <? Priority task) eqn:Hlt.
    + exists [], (t :: rest). apply Z.ltb_lt in Hlt. repeat split; [constructor | done].
    + destruct IH as (l1 & l2 & -> & -> & Hl1 & Hl2). apply Z.ltb_ge in Hlt.
      exists (t :: l1), l2. repeat split; [by constructor | done].
Qed.

Lemma sorted_desc_below_head t l :
  sorted_desc (t :: l) → Forall (λ t', Priority t' ≤ Priority t) l.
Proof. unfold sorted_desc. rewrite StronglySorted_cons. tauto. Qed.

Lemma insert_by_priority_split_sorted task l :
  sorted_desc l →
  ∃ l1 l2, l = l1 ++ l2 ∧ insert_by_priority task l = l1 ++ task :: l2 ∧
    Forall (λ t, Priority task ≤ Priority t) l1 ∧
    Forall (λ t, Priority t < Priority task) l2.
Proof.
  intros Hs.
  destruct (insert_by_priority_split task l) as (l1 & l2 & -> & Hins & Hl1 & Hl2).
  exists l1, l2. repeat split; try done.
  apply StronglySorted_app_1_r in Hs.
  destruct l2 as [|t l2]; [constructor|].
  constructor; [done|].
  apply sorted_desc_below_head in Hs.
  eapply Forall_impl; [exact Hs|]. simpl. intros t' Ht'. lia.
Qed.

Lemma insert_by_priority_sorted task l :
  sorted_desc l → sorted_desc (insert_by_priority task l).
Proof.
  intros Hs.
  destruct (insert_by_priority_split_sorted task l Hs) as (l1 & l2 & -> & -> & Hl1 & Hl2).
  unfold sorted_desc in *. apply StronglySorted_app in Hs as (Hcross & Hs1 & Hs2).
  apply StronglySorted_app. split; [|split; [done|]].
  - intros x1 Hx1 x2 Hx2. apply elem_of_cons in Hx2 as [->|Hx2].
    + by eapply (proj1 (Forall_forall _ _) Hl1).
    + by apply Hcross.
  - constructor; [done|].
    eapply Forall_impl; [exact Hl2|]. simpl. intros t' Ht'. lia.
Qed.

Lemma insert_by_priority_perm task l : insert_by_priority task l ≡ₚ task :: l.
Proof.
  destruct (insert_by_priority_split task l) as (l1 & l2 & -> & -> & _).
  symmetry. apply Permutation_middle.
Qed.

Lemma of_priority_cons p t l :
  of_priority p (t :: l) =
    if decide (Priority t = p) then t :: of_priority p l else of_priority p l.
Proof. unfold of_priority. by rewrite filter_cons. Qed.

Lemma of_priority_none p l :
  Forall (λ t, Priority t ≠ p) l → of_priority p l = [].
Proof.
  unfold of_priority. induction 1 as [|t l Ht _ IH]; [done|].
  rewrite filter_cons_False; [exact IH | exact Ht].
Qed.

(** Among the tasks of its own priority the new task comes last; the tasks
    of any other priority keep their order. *)
Lemma of_priority_insert p task l :
  sorted_desc l →
  of_priority p (insert_by_priority task l) =
    if decide (Priority task = p) then of_priority p l ++ [task] else of_priority p l.
Proof.
  intros Hs.
  destruct (insert_by_priority_split_sorted task l Hs) as (l1 & l2 & -> & -> & Hl1 & Hl2).
  unfold of_priority. rewrite !filter_app. rewrite filter_cons.
  case_decide as Hp; [|done].
  fold (of_priority p l2). rewrite of_priority_none, app_nil_r; [done|].
  eapply Forall_impl; [exact Hl2|]. simpl. intros t Ht. lia.
Qed.

Lemma remove_first_sorted taskID l l' :
  sorted_desc l → remove_first taskID l = Some l' → sorted_desc l'.
Proof.
  unfold sorted_desc. revert l'.
  induction l as [|t rest IH]; intros l' Hs; simpl; [done|].
  apply StronglySorted_cons in Hs as [Hall Hs].
  case_decide; [by intros [= <-]|].
  destruct (remove_first taskID rest) as [rest'|] eqn:Hrm; [|done].
  intros [= <-]. apply StronglySorted_cons. split; [|by apply IH].
  clear IH Hs. revert rest' Hrm.
  induction Hall as [|t' rest Ht' Hall IH]; intros rest'; simpl; [done|].
  case_decide; [by intros [= <-]|].
  destruct (remove_first taskID rest) as [r|]; [|done].
  intros [= <-]. constructor; [done | by apply IH].
Qed.

Lemma perform_sorted c q :
  sorted_desc (tasks q) → sorted_desc (tasks (perform c q).2).
Proof.
  intros Hs. destruct c as [task|ctx_done|taskID| |]; simpl.
  - unfold Enqueue. destruct (closed q); [done|].
    destruct (maxSize q <=? Z.of_nat (length (tasks q))); [done|].
    by apply insert_by_priority_sorted.
  - unfold Dequeue. destruct ctx_done; [done|]. destruct (closed q); [done|].
    destruct (tasks q) as [|t rest] eqn:Ht; simpl; [by rewrite Ht|].
    unfold sorted_desc in *. by apply StronglySorted_cons in Hs as [_ Hs].
  - unfold RemoveTask. destruct (closed q); [done|].
    destruct (remove_first taskID (tasks q)) as [l|] eqn:Hrm; simpl; [|done].
    by eapply remove_first_sorted.
  - unfold Clear. destruct (closed q); [done|]. constructor.
  - unfold Close. by destruct (closed q).
Qed.

Lemma perform_all_sorted cs q :
  sorted_desc (tasks q) → sorted_desc (tasks (perform_all cs q).2).
Proof.
  revert q. induction cs as [|c cs IH]; intros q Hs; simpl; [done|].
  pose proof (perform_sorted c q Hs) as Hs'.
  destruct (perform c q) as [out q'].
  specialize (IH q' Hs'). by destruct (perform_all cs q') as [outs q''].
Qed.

Lemma perform_all_app cs1 cs2 q :
  perform_all (cs1 ++ cs2) q =
    let '(o1, q1) := perform_all cs1 q in
    let '(o2, q2) := perform_all cs2 q1 in
    (o1 ++ o2, q2).
Proof.
  revert q. induction cs1 as [|c cs1 IH]; intros q; simpl.
  - by destruct (perform_all cs2 q).
  - destruct (perform c q) as [out q']. rewrite IH.
    destruct (perform_all cs1 q') as [o1 q1].
    destruct (perform_all cs2 q1) as [o2 q2]. by rewrite app_assoc.
Qed.

(** Enqueues that fit: the resulting list, nothing handed out. *)
Lemma enqueue_all_tasks ts q :
  closed q = false →
  Z.of_nat (length (tasks q) + length ts) ≤ maxSize q →
  let r := perform_all (map CallEnqueue ts) q in
  r.1 = [] ∧ closed r.2 = false ∧
  tasks r.2 = fold_left (λ l t, insert_by_priority t l) ts (tasks q).
Proof.
  revert q. induction ts as [|t ts IH]; intros q Hopen Hfit; simpl; [done|].
  unfold Enqueue. rewrite Hopen.
  destruct (maxSize q <=? Z.of_nat (length (tasks q))) eqn:Hfull.
  { apply Z.leb_le in Hfull. simpl in Hfit. lia. }
  simpl.
  set (q' := mkQueue _ _ _ _ _ _).
  specialize (IH q' eq_refl).
  destruct (perform_all (map CallEnqueue ts) q') as [outs q''].
  apply IH. subst q'. simpl.
  rewrite (Permutation_length (insert_by_priority_perm t (tasks q))).
  simpl in *. lia.
Qed.

(** Dequeues on an open queue, one per queued task: the queue, front first. *)
Lemma drain_all q :
  closed q = false →
  let r := perform_all (replicate (length (tasks q)) (CallDequeue false)) q in
  r.1 = tasks q ∧ tasks r.2 = [].
Proof.
  destruct q as [l mx cl en de fa]. simpl. intros ->.
  revert de. induction l as [|t l IH]; intros de; simpl; [done|].
  specialize (IH (de + 1)).
  destruct (perform_all _ _) as [outs q'']. simpl in *.
  destruct IH as [-> ->]. done.
Qed.

Lemma fold_insert_sorted ts l :
  sorted_desc l → sorted_desc (fold_left (λ l t, insert_by_priority t l) ts l).
Proof.
  revert l. induction ts as [|t ts IH]; intros l Hs; simpl; [done|].
  apply IH. by apply insert_by_priority_sorted.
Qed.

Lemma fold_insert_perm ts l :
  fold_left (λ l t, insert_by_priority t l) ts l ≡ₚ l ++ ts.
Proof.
  revert l. induction ts as [|t ts IH]; intros l; simpl; [by rewrite app_nil_r|].
  rewrite IH, insert_by_priority_perm. by rewrite <- Permutation_middle.
Qed.

Lemma fold_insert_of_priority p ts l :
  sorted_desc l →
  of_priority p (fold_left (λ l t, insert_by_priority t l) ts l)
    = of_priority p l ++ of_priority p ts.
Proof.
  revert l. induction ts as [|t ts IH]; intros l Hs; simpl.
  - by rewrite app_nil_r.
  - rewrite IH by (by apply insert_by_priority_sorted).
    rewrite of_priority_insert by done.
    rewrite of_priority_cons.
    case_decide; [by rewrite <- app_assoc | done].
Qed.

Lemma Dequeue_head q t rest :
  closed q = false → tasks q = t :: rest →
  ∃ q', Dequeue false q = (Dequeued t, q') ∧ tasks q' = rest.
Proof. intros Hopen Ht. unfold Dequeue. rewrite Hopen, Ht. eauto. Qed.

Lemma Dequeue_outranks q t q' :
  sorted_desc (tasks q) → Dequeue false q = (Dequeued t, q') →
  Forall (λ t', Priority t' ≤ Priority t) (tasks q').
Proof.
  intros Hs. unfold Dequeue. destruct (closed q); [done|].
  destruct (tasks q) as [|t0 rest]; [done|].
  intros [= <- <-]. simpl. by apply sorted_desc_below_head.
Qed.

Lemma Enqueue_position task q q' :
  sorted_desc (tasks q) → Enqueue task q = (None, q') →
  ∃ l1 l2, tasks q = l1 ++ l2 ∧ tasks q' = l1 ++ task :: l2 ∧
    Forall (λ t, Priority task ≤ Priority t) l1 ∧
    Forall (λ t, Priority t < Priority task) l2.
Proof.
  intros Hs. unfold Enqueue. destruct (closed q); [done|].
  destruct (maxSize q <=? Z.of_nat (length (tasks q))); [done|].
  intros [= <-]. simpl. by apply insert_by_priority_split_sorted.
Qed.

Lemma enqueue_then_drain maxSize ts :
  Z.of_nat (length ts) ≤ maxSize →
  (perform_all (map CallEnqueue ts ++ map (λ _, CallDequeue false) ts)
     (NewMemoryQueue maxSize)).1
  = fold_left (λ l t, insert_by_priority t l) ts [].
Proof.
  intros Hfit. rewrite perform_all_app.
  pose proof (enqueue_all_tasks ts (NewMemoryQueue maxSize) eq_refl) as Henq.
  simpl in Henq. specialize (Henq Hfit).
  destruct (perform_all (map CallEnqueue ts) (NewMemoryQueue maxSize)) as [o1 q1].
  simpl in Henq. destruct Henq as (-> & Hopen & Htasks).
  pose proof (drain_all q1 Hopen) as Hdrain. simpl in Hdrain.
  assert (map (λ _ : Task, CallDequeue false) ts
          = replicate (length (tasks q1)) (CallDequeue false)) as ->.
  { rewrite Htasks, (Permutation_length (fold_insert_perm ts [])). simpl.
    clear. induction ts as [|t ts IH]; simpl; [done | by rewrite IH]. }
  destruct (perform_all _ q1) as [o2 q2]. simpl in *.
  destruct Hdrain as [-> _]. exact Htasks.
Qed.

(** C4. After any sequence of calls on a new queue the tasks are sorted by
    priority, highest first.  An accepted enqueue puts the task behind every
    queued task of the same or a higher priority and in front of every task
    of a lower one, and a dequeue on an open, non-empty queue removes and
    returns the head; so in every reachable state the task handed out ranks
    at least as high as every task left behind.  Tasks that fit into a new
    queue and are then dequeued come out sorted by priority, highest first,
    those of one priority in the order they were enqueued; priorities
    1, 10, 5 come out as 10, 5, 1. *)
Theorem queue_priority_fifo_order :
  (∀ maxSize cs, sorted_desc (tasks (perform_all cs (NewMemoryQueue maxSize)).2)) ∧
  (∀ task q q',
     sorted_desc (tasks q) → Enqueue task q = (None, q') →
     ∃ l1 l2, tasks q = l1 ++ l2 ∧ tasks q' = l1 ++ task :: l2 ∧
       Forall (λ t, Priority task ≤ Priority t) l1 ∧
       Forall (λ t, Priority t < Priority task) l2) ∧
  (∀ q t rest,
     closed q = false → tasks q = t :: rest →
     ∃ q', Dequeue false q = (Dequeued t, q') ∧ tasks q' = rest) ∧
  (∀ maxSize cs t q',
     Dequeue false (perform_all cs (NewMemoryQueue maxSize)).2 = (Dequeued t, q') →
     Forall (λ t', Priority t' ≤ Priority t) (tasks q')) ∧
  (∀ maxSize ts,
     Z.of_nat (length ts) ≤ maxSize →
     let out := (perform_all (map CallEnqueue ts ++ map (λ _, CallDequeue false) ts)
                   (NewMemoryQueue maxSize)).1 in
     out ≡ₚ ts ∧ sorted_desc out ∧ ∀ p, of_priority p out = of_priority p ts) ∧
  map Priority
    (perform_all
       [CallEnqueue (task_of "low" 1); CallEnqueue (task_of "high" 10);
        CallEnqueue (task_of "medium" 5);
        CallDequeue false; CallDequeue false; CallDequeue false]
       (NewMemoryQueue 10000)).1 = [10; 5; 1].
Proof.
  assert (∀ maxSize cs, sorted_desc (tasks (perform_all cs (NewMemoryQueue maxSize)).2))
    as Hinv.
  { intros maxSize cs. apply perform_all_sorted. constructor. }
  split; [exact Hinv|].
  split; [exact Enqueue_position|].
  split; [exact Dequeue_head|].
  split; [intros maxSize cs t q'; apply Dequeue_outranks, Hinv|].
  split; [|reflexivity].
  intros maxSize ts Hfit out. subst out. rewrite enqueue_then_drain by done.
  split; [apply (fold_insert_perm ts [])|].
  split; [apply fold_insert_sorted; constructor|].
  intros p. apply (fold_insert_of_priority p ts []). constructor.
Qed.

Lemma queue_priority_fifo_order_witness :
  let ts := [task_of "a" 5; task_of "b" 7; task_of "c" 5; task_of "d" 7] in
  let out := (perform_all (map CallEnqueue ts ++ map (λ _, CallDequeue false) ts)
                (NewMemoryQueue 4)).1 in
  map ID out = ["b"; "d"; "a"; "c"] ∧ of_priority 5 out = of_priority 5 ts ∧
  (∃ q', Dequeue false (mkQueue [task_of "b" 7; task_of "a" 5] 4 false 2 0 0)
         = (Dequeued (task_of "b" 7), q') ∧ tasks q' = [task_of "a" 5]) ∧
  Forall (λ t', Priority t' ≤ 7)
    (tasks (Dequeue false
       (perform_all (map CallEnqueue ts) (NewMemoryQueue 4)).2).2) ∧
  (∃ l1 l2, [task_of "b" 7; task_of "a" 5] = l1 ++ l2 ∧
     tasks (Enqueue (task_of "c" 5) (mkQueue [task_of "b" 7; task_of "a" 5] 4 false 2 0 0)).2
       = l1 ++ task_of "c" 5 :: l2 ∧
     Forall (λ t, 5 ≤ Priority t) l1 ∧ Forall (λ t, Priority t < 5) l2).
Proof.
  destruct queue_priority_fifo_order as (_ & Hpos & Hhead & Hout & Hdrain & _).
  cbv zeta.
  split; [vm_compute; reflexivity|].
  split.
  - apply (Hdrain 4 [task_of "a" 5; task_of "b" 7; task_of "c" 5; task_of "d" 7]).
    vm_compute. discriminate.
  - split.
    + apply (Hhead (mkQueue [task_of "b" 7; task_of "a" 5] 4 false 2 0 0)); reflexivity.
    + split.
      * apply (Hout 4 (map CallEnqueue
                 [task_of "a" 5; task_of "b" 7; task_of "c" 5; task_of "d" 7])
                 (task_of "b" 7)).
        vm_compute. reflexivity.
      * apply (Hpos (task_of "c" 5) (mkQueue [task_of "b" 7; task_of "a" 5] 4 false 2 0 0)).
        -- repeat constructor; simpl; lia.
        -- reflexivity.
Defined.

(** ** The capacity, the closed state and the counters *)

Lemma perform_maxSize c q : maxSize (perform c q).2 = maxSize q.
Proof.
  destruct c as [task|ctx_done|taskID| |]; simpl.
  - unfold Enqueue. destruct (closed q); [done|].
    by destruct (maxSize q <=? Z.of_nat (length (tasks q))).
  - unfold Dequeue. destruct ctx_done; [done|]. destruct (closed q); [done|].
    by destruct (tasks q).
  - unfold RemoveTask. destruct (closed q); [done|].
    by destruct (remove_first taskID (tasks q)).
  - unfold Clear. by destruct (closed q).
  - unfold Close. by destruct (closed q).
Qed.

Lemma remove_first_length taskID l l' :
  remove_first taskID l = Some l' → length l = S (length l').
Proof.
  revert l'. induction l as [|t rest IH]; intros l'; simpl; [done|].
  case_decide; [by intros [= <-]|].
  destruct (remove_first taskID rest) as [rest'|]; [|done].
  intros [= <-]. simpl. by rewrite (IH rest').
Qed.

Lemma insert_by_priority_length task l :
  length (insert_by_priority task l) = S (length l).
Proof. by rewrite (Permutation_length (insert_by_priority_perm task l)). Qed.

Lemma perform_within_capacity c q :
  Size q ≤ Z.max 0 (maxSize q) → Size (perform c q).2 ≤ Z.max 0 (maxSize q).
Proof.
  unfold Size. intros Hle. destruct c as [task|ctx_done|taskID| |]; simpl.
  - unfold Enqueue. destruct (closed q); [done|].
    destruct (maxSize q <=? Z.of_nat (length (tasks q))) eqn:Hfull; [done|].
    apply Z.leb_gt in Hfull. simpl. rewrite insert_by_priority_length. lia.
  - unfold Dequeue. destruct ctx_done; [done|]. destruct (closed q); [done|].
    destruct (tasks q) as [|t rest] eqn:Ht; simpl; [by rewrite Ht|].
    simpl in Hle. lia.
  - unfold RemoveTask. destruct (closed q); [done|].
    destruct (remove_first taskID (tasks q)) as [l|] eqn:Hrm; simpl; [|done].
    apply remove_first_length in Hrm. lia.
  - unfold Clear. destruct (closed q); [done|]. simpl. lia.
  - unfold Close. by destruct (closed q).
Qed.

(** The queue never holds more tasks than its configured maximum: after any
    calls on a new queue its size is at most [maxSize] (a maximum that is
    not positive lets no task in), and an open queue that has reached the
    maximum refuses an enqueue with the queue-is-full error and stays as it
    is. *)
Theorem queue_never_exceeds_capacity :
  (∀ maxSize cs,
     let q := (perform_all cs (NewMemoryQueue maxSize)).2 in
     queue.maxSize q = maxSize ∧ 0 ≤ Size q ≤ Z.max 0 maxSize) ∧
  (∀ task q,
     closed q = false → maxSize q ≤ Size q →
     Enqueue task q = (Some (ErrQueueFull (maxSize q)), q)).
Proof.
  split.
  - intros mx cs.
    assert (∀ q, Size q ≤ Z.max 0 (maxSize q) →
              maxSize (perform_all cs q).2 = maxSize q ∧
              Size (perform_all cs q).2 ≤ Z.max 0 (maxSize q)) as Hgen.
    { induction cs as [|c cs IH]; intros q Hq; simpl; [done|].
      pose proof (perform_within_capacity c q Hq) as Hq'.
      pose proof (perform_maxSize c q) as Hmx.
      destruct (perform c q) as [out q']. simpl in *.
      rewrite <- Hmx in Hq'. specialize (IH q' Hq').
      destruct (perform_all cs q') as [outs q'']. simpl in *. by rewrite <- Hmx. }
    destruct (Hgen (NewMemoryQueue mx)) as [Hm Hs].
    { unfold Size. simpl. lia. }
    cbv zeta. split; [done|]. split; [unfold Size; lia | done].
  - intros task q Hopen Hfull. unfold Enqueue, Size in *. rewrite Hopen.
    destruct (maxSize q <=? Z.of_nat (length (tasks q))) eqn:Hle; [done|].
    apply Z.leb_gt in Hle. lia.
Qed.



Lemma perform_counters c q :
  let r := perform c q in
  failed r.2 = failed q ∧
  dequeued r.2 = dequeued q + Z.of_nat (length r.1) ∧
  Size r.2 + dequeued r.2 - enqueued r.2 ≤ Size q + dequeued q - enqueued q ∧
  (keeps_tasks c = true →
   Size r.2 + dequeued r.2 - enqueued r.2 = Size q + dequeued q - enqueued q).
Proof.
  unfold Size. destruct c as [task|ctx_done|taskID| |]; simpl.
  - unfold Enqueue. destruct (closed q); [simpl; lia|].
    destruct (maxSize q <=? Z.of_nat (length (tasks q))); simpl; [lia|].
    rewrite insert_by_priority_length. lia.
  - unfold Dequeue. destruct ctx_done; [simpl; lia|]. destruct (closed q); [simpl; lia|].
    destruct (tasks q) as [|t rest] eqn:Ht; simpl; [rewrite Ht; simpl; lia|]. lia.
  - unfold RemoveTask. destruct (closed q); [simpl; lia|].
    destruct (remove_first taskID (tasks q)) as [l|] eqn:Hrm; simpl; [|lia].
    apply remove_first_length in Hrm. repeat split; try lia; done.
  - unfold Clear. destruct (closed q); simpl; [lia|]. repeat split; try lia; done.
  - unfold Close. destruct (closed q); simpl; lia.
Qed.

(** The counters behind [GetStatistics]: after any calls on a new queue,
    [dequeued] is the number of tasks handed out, [failed] is still zero (no
    operation counts a failure), and the size is at most [enqueued] less
    [dequeued]; it is exactly that as long as no task has been dropped by
    [Clear] or [RemoveTask], which count nowhere. *)
Theorem queue_counters_account_for_tasks maxSize cs :
  let r := perform_all cs (NewMemoryQueue maxSize) in
  failed r.2 = 0 ∧
  dequeued r.2 = Z.of_nat (length r.1) ∧
  Size r.2 ≤ enqueued r.2 - dequeued r.2 ∧
  (forallb keeps_tasks cs = true → Size r.2 = enqueued r.2 - dequeued r.2).
Proof.
  assert (∀ q, let r := perform_all cs q in
            failed r.2 = failed q ∧
            dequeued r.2 = dequeued q + Z.of_nat (length r.1) ∧
            Size r.2 + dequeued r.2 - enqueued r.2 ≤ Size q + dequeued q - enqueued q ∧
            (forallb keeps_tasks cs = true →
             Size r.2 + dequeued r.2 - enqueued r.2 = Size q + dequeued q - enqueued q))
    as Hgen.
  { induction cs as [|c cs IH]; intros q; simpl; [repeat split; lia|].
    pose proof (perform_counters c q) as Hc.
    destruct (perform c q) as [out q']. specialize (IH q').
    destruct (perform_all cs q') as [outs q'']. simpl in *.
    destruct Hc as (Hf & Hd & Hle & Heq). destruct IH as (Hf' & Hd' & Hle' & Heq').
    rewrite length_app, Nat2Z.inj_add.
    repeat split; try lia.
    intros [Hk Hks]%andb_true_iff. specialize (Heq Hk). specialize (Heq' Hks). lia. }
  specialize (Hgen (NewMemoryQueue maxSize)). cbv zeta in *.
  destruct Hgen as (Hf & Hd & Hle & Heq). unfold Size in *. simpl in *.
  repeat split; try lia.
  intros Hk. specialize (Heq Hk). lia.
Qed.

Lemma queue_counters_account_for_tasks_witness :
  let r := perform_all [CallEnqueue (task_of "a" 5); CallEnqueue (task_of "b" 7);
                        CallDequeue false; CallEnqueue (task_of "c" 1)]
             (NewMemoryQueue 10) in
  Size r.2 = enqueued r.2 - dequeued r.2 ∧ Size r.2 = 2 ∧ failed r.2 = 0.
Proof.
  cbv zeta.
  destruct (queue_counters_account_for_tasks 10
              [CallEnqueue (task_of "a" 5); CallEnqueue (task_of "b" 7);
               CallDequeue false; CallEnqueue (task_of "c" 1)])
    as (Hf & _ & _ & Heq).
  split; [apply Heq; reflexivity|]. split; [reflexivity | exact Hf].
Defined.

(** ** [RemoveTask] *)

Lemma remove_first_Some taskID l l' :
  remove_first taskID l = Some l' ↔
  ∃ l1 t l2, l = l1 ++ t :: l2 ∧ ID t = taskID ∧
             Forall (λ t', ID t' ≠ taskID) l1 ∧ l' = l1 ++ l2.
Proof.
  revert l'. induction l as [|t rest IH]; intros l'; simpl.
  - split; [done|]. intros (l1 & t & l2 & Hl & _). by destruct l1.
  - case_decide as Hid.
    + split.
      * intros [= <-]. exists [], t, rest. repeat split; [done | constructor].
      * intros (l1 & t' & l2 & Hl & Ht' & Hno & ->).
        destruct l1 as [|t1 l1]; simpl in *.
        -- by injection Hl as -> ->.
        -- injection Hl as -> ->. by apply Forall_cons in Hno as [? _].
    + destruct (remove_first taskID rest) as [rest'|] eqn:Hrm.
      * split.
        -- intros [= <-]. destruct (proj1 (IH rest') eq_refl) as (l1 & t' & l2 & -> & Ht' & Hno & ->).
           exists (t :: l1), t', l2. repeat split; try done. by constructor.
        -- intros (l1 & t' & l2 & Hl & Ht' & Hno & ->).
           destruct l1 as [|t1 l1]; simpl in *.
           ++ injection Hl as -> ->. done.
           ++ injection Hl as -> ->. apply Forall_cons in Hno as [_ Hno].
              f_equal. f_equal.
              assert (Some rest' = Some (l1 ++ l2)) as [= ->]; [|done].
              apply IH. by exists l1, t', l2.
      * split; [done|].
        intros (l1 & t' & l2 & Hl & Ht' & Hno & ->).
        destruct l1 as [|t1 l1]; simpl in *.
        -- injection Hl as -> ->. done.
        -- injection Hl as -> ->. apply Forall_cons in Hno as [_ Hno].
           assert (None = Some (l1 ++ l2)) as Habs; [|done].
           apply IH. by exists l1, t', l2.
Qed.

Lemma remove_first_None taskID l :
  remove_first taskID l = None ↔ Forall (λ t, ID t ≠ taskID) l.
Proof.
  induction l as [|t rest IH]; simpl; [by split; [constructor|]|].
  case_decide as Hid.
  - split; [done|]. by intros [? _]%Forall_cons.
  - destruct (remove_first taskID rest) as [rest'|].
    + split; [done|]. intros [_ Hno]%Forall_cons. by apply IH in Hno.
    + split; [|done]. intros _. constructor; [done | by apply IH].
Qed.

(** [RemoveTask] on an open queue takes out the first task with the given
    id, the one nearest the front, and nothing else: the tasks before and
    behind it keep their order, a later task with the same id stays, and no
    counter moves.  When no queued task has the id it fails with
    task-not-found and the queue is unchanged. *)
Theorem remove_task_takes_first_match taskID q :
  closed q = false →
  (∀ q', RemoveTask taskID q = (None, q') ↔
     ∃ l1 t l2, tasks q = l1 ++ t :: l2 ∧ ID t = taskID ∧
       Forall (λ t', ID t' ≠ taskID) l1 ∧
       q' = mkQueue (l1 ++ l2) (maxSize q) false (enqueued q) (dequeued q) (failed q)) ∧
  (RemoveTask taskID q = (Some (ErrTaskNotFound taskID), q) ↔
     Forall (λ t, ID t ≠ taskID) (tasks q)) ∧
  (∀ e q', RemoveTask taskID q = (Some e, q') → e = ErrTaskNotFound taskID ∧ q' = q).
Proof.
  intros Hopen. unfold RemoveTask. rewrite Hopen.
  destruct (remove_first taskID (tasks q)) as [l|] eqn:Hrm.
  - apply remove_first_Some in Hrm as Hsplit.
    split; [|split].
    + intros q'. split.
      * intros [= <-]. destruct Hsplit as (l1 & t & l2 & Hl & Ht & Hno & ->).
        by exists l1, t, l2.
      * intros (l1 & t & l2 & Hl & Ht & Hno & ->).
        assert (Some l = Some (l1 ++ l2)) as [= ->].
        { rewrite <- Hrm. apply remove_first_Some. by exists l1, t, l2. }
        done.
    + split; [done|]. intros Hno%remove_first_None. congruence.
    + done.
  - split; [|split].
    + intros q'. split; [done|].
      intros (l1 & t & l2 & Hl & Ht & Hno & _).
      assert (remove_first taskID (tasks q) = Some (l1 ++ l2)) as Habs.
      { apply remove_first_Some. by exists l1, t, l2. }
      congruence.
    + split; [|done]. intros _. by apply remove_first_None.
    + by intros e q' [= <- <-].
Qed.

Lemma remove_task_takes_first_match_witness :
  let q := mkQueue [task_of "a" 7; task_of "b" 5; task_of "a" 5] 10 false 3 0 0 in
  RemoveTask "a" q = (None, mkQueue [task_of "b" 5; task_of "a" 5] 10 false 3 0 0) ∧
  RemoveTask "z" q = (Some (ErrTaskNotFound "z"), q).
Proof.
  cbv zeta.
  destruct (remove_task_takes_first_match "a"
              (mkQueue [task_of "a" 7; task_of "b" 5; task_of "a" 5] 10 false 3 0 0) eq_refl)
    as (Hok & _ & _).
  destruct (remove_task_takes_first_match "z"
              (mkQueue [task_of "a" 7; task_of "b" 5; task_of "a" 5] 10 false 3 0 0) eq_refl)
    as (_ & Hno & _).
  split.
  - apply Hok. exists [], (task_of "a" 7), [task_of "b" 5; task_of "a" 5].
    repeat split. constructor.
  - apply Hno. repeat constructor; simpl; discriminate.
Defined.
(** ** The sorting loops of [PriorityQueue.Dequeue] *)

Lemma insert_swap_head (t : list Z) k y h :
  t !! k = Some y → y :: <[k := h]> t ≡ₚ h :: t.
Proof.
  revert k. induction t as [|z t IH]; intros [|k]; simpl; try done.
  - intros [= ->]. apply perm_swap.
  - intros Hk. rewrite (perm_swap z y), (IH k Hk). apply perm_swap.
Qed.

Lemma swap_Permutation (a : list Z) i j x y :
  i ≠ j → a !! i = Some x → a !! j = Some y → <[j := x]> (<[i := y]> a) ≡ₚ a.
Proof.
  revert i j. induction a as [|h a IH]; intros [|i] [|j] Hne; simpl; try done.
  - intros [= ->] Hj. by apply insert_swap_head.
  - intros Hi [= ->]. by apply insert_swap_head.
  - intros Hi Hj. f_equiv. apply IH; [congruence | done | done].
Qed.

Lemma swap_if_less_length i j a : length (swap_if_less i j a) = length a.
Proof.
  unfold swap_if_less. destruct (a !! i), (a !! j); try done.
  case_match; [|done]. by rewrite !length_insert.
Qed.

Lemma swap_if_less_Permutation i j a : i ≠ j → swap_if_less i j a ≡ₚ a.
Proof.
  intros Hne. unfold swap_if_less.
  destruct (a !! i) as [x|] eqn:Hi, (a !! j) as [y|] eqn:Hj; try done.
  case_match; [|done]. by apply swap_Permutation.
Qed.

Lemma swap_if_less_lookup i j a m :
  (i < j)%nat → (j < length a)%nat →
  swap_if_less i j a !! m =
    match a !! i, a !! j with
    | Some x, Some y =>
        if decide (m = i) then Some (Z.max x y)
        else if decide (m = j) then Some (Z.min x y)
        else a !! m
    | _, _ => a !! m
    end.
Proof.
  intros Hij Hj. unfold swap_if_less.
  destruct (a !! i) as [x|] eqn:Hi, (a !! j) as [y|] eqn:Hjy; try done.
  destruct (x <? y) eqn:Hlt.
  - apply Z.ltb_lt in Hlt.
    destruct (decide (m = i)) as [->|Hmi].
    + rewrite list_lookup_insert_ne by lia.
      rewrite list_lookup_insert_eq by lia. f_equal. lia.
    + destruct (decide (m = j)) as [->|Hmj].
      * rewrite list_lookup_insert_eq by (rewrite length_insert; lia). f_equal. lia.
      * by rewrite !list_lookup_insert_ne by done.
  - apply Z.ltb_ge in Hlt.
    destruct (decide (m = i)) as [->|Hmi]; [rewrite Hi; f_equal; lia|].
    destruct (decide (m = j)) as [->|Hmj]; [rewrite Hjy; f_equal; lia|]. done.
Qed.

Lemma swap_if_less_step i j a :
  (i < j)%nat → (j < length a)%nat →
  (∀ k, (k < i)%nat → leads a k) → leads_upto a i j →
  (∀ k, (k < i)%nat → leads (swap_if_less i j a) k) ∧
  leads_upto (swap_if_less i j a) i (S j).
Proof.
  intros Hij Hj Hsettled Hupto.
  destruct (lookup_lt_is_Some_2 a i) as [x Hx]; [lia|].
  destruct (lookup_lt_is_Some_2 a j) as [y Hy]; [done|].
  split.
  - intros k Hk m u v Hkm. rewrite !swap_if_less_lookup by done. rewrite Hx, Hy.
    rewrite decide_False by lia. rewrite (decide_False (P := k = j)) by lia.
    intros Hu.
    destruct (decide (m = i)) as [->|Hmi].
    { intros [= <-].
      pose proof (Hsettled k Hk i u x Hkm Hu Hx).
      pose proof (Hsettled k Hk j u y ltac:(lia) Hu Hy). lia. }
    destruct (decide (m = j)) as [->|Hmj].
    { intros [= <-].
      pose proof (Hsettled k Hk i u x ltac:(lia) Hu Hx).
      pose proof (Hsettled k Hk j u y ltac:(lia) Hu Hy). lia. }
    intros Hv. exact (Hsettled k Hk m u v Hkm Hu Hv).
  - intros m u v Hm. rewrite !swap_if_less_lookup by done. rewrite Hx, Hy.
    rewrite decide_True by done. intros [= <-].
    rewrite decide_False by lia.
    destruct (decide (m = j)) as [->|Hmj]; [intros [= <-]; lia|].
    intros Hv. pose proof (Hupto m x v ltac:(lia) Hx Hv). lia.
Qed.

(** The inner loop from [j] on, [len] positions. *)
Lemma inner_loop_spec i a j len :
  (i < j)%nat → (j + len = length a)%nat →
  (∀ k, (k < i)%nat → leads a k) → leads_upto a i j →
  let a' := foldl (λ a j, swap_if_less i j a) a (seq j len) in
  a' ≡ₚ a ∧ ∀ k, (k < S i)%nat → leads a' k.
Proof.
  revert a j. induction len as [|len IH]; intros a j Hij Hlen Hsettled Hupto; simpl.
  - split; [done|]. intros k Hk. destruct (decide (k = i)) as [->|]; [|apply Hsettled; lia].
    intros m x y Him Hx Hy. apply (Hupto m x y); [|done..].
    apply lookup_lt_Some in Hy. lia.
  - destruct (swap_if_less_step i j a) as [Hs' Hu']; [lia | lia | done | done |].
    destruct (IH (swap_if_less i j a) (S j)) as [Hp Hl]; [lia | | done | done |].
    { rewrite swap_if_less_length. lia. }
    split; [|done]. rewrite Hp. apply swap_if_less_Permutation. lia.
Qed.

Lemma outer_loop_spec a i len :
  (i + len = length a)%nat → (∀ k, (k < i)%nat → leads a k) →
  let a' := foldl (λ a i, foldl (λ a j, swap_if_less i j a) a
                            (seq (S i) (length a - S i))) a (seq i len) in
  a' ≡ₚ a ∧ ∀ k, leads a' k.
Proof.
  revert a i. induction len as [|len IH]; intros a i Hlen Hsettled; simpl.
  - split; [done|]. intros k. destruct (decide (k < i)%nat); [by apply Hsettled|].
    intros m x y Hkm Hx Hy. apply lookup_lt_Some in Hy. lia.
  - destruct (inner_loop_spec i a (S i) (length a - S i)) as [Hp Hl];
      [lia | lia | done | intros m x y ?; lia |].
    set (a1 := foldl _ a (seq (S i) _)) in *.
    assert (length a1 = length a) as Hlen1 by (by rewrite Hp).
    destruct (IH a1 (S i)) as [Hp' Hl']; [lia | done |].
    split; [by rewrite Hp', Hp | done].
Qed.

Lemma leads_sorted (a : list Z) :
  (∀ k, leads a k) → StronglySorted (λ x y, y ≤ x) a.
Proof.
  induction a as [|h a IH]; intros Hl; [constructor|].
  constructor.
  - apply IH. intros k m x y Hkm Hx Hy. by apply (Hl (S k) (S m) x y); [lia|..].
  - apply Forall_lookup. intros m y Hy. by apply (Hl 0%nat (S m) h y); [lia|..].
Qed.

Lemma sort_priorities_fold a :
  sort_priorities a =
    foldl (λ a' i, foldl (λ a' j, swap_if_less i j a') a'
                     (seq (S i) (length a' - S i))) a (seq 0 (length a)).
Proof.
  unfold sort_priorities.
  assert (∀ l (a' : list Z), length a' = length a →
            foldl (λ a' i, foldl (λ a' j, swap_if_less i j a') a'
                             (seq (S i) (length a - S i))) a' l
            = foldl (λ a' i, foldl (λ a' j, swap_if_less i j a') a'
                               (seq (S i) (length a' - S i))) a' l) as Hgen; [|by apply Hgen].
  induction l as [|i l IH]; intros a' Hlen; simpl; [done|].
  rewrite Hlen. apply IH. rewrite <- Hlen.
  generalize (seq (S i) (length a' - S i)). clear. intros js. revert a'.
  induction js as [|j js IH]; intros a'; simpl; [done|].
  by rewrite IH, swap_if_less_length.
Qed.

(** The two nested loops sort: the result holds the same levels, highest
    first. *)
Lemma sort_priorities_sorted a :
  sort_priorities a ≡ₚ a ∧ StronglySorted (λ x y, y ≤ x) (sort_priorities a).
Proof.
  rewrite sort_priorities_fold.
  destruct (outer_loop_spec a 0 (length a)) as [Hp Hl]; [done | intros k ?; lia |].
  split; [done | by apply leads_sorted].
Qed.

Lemma sort_priorities_order a b : a ≡ₚ b → sort_priorities a = sort_priorities b.
Proof.
  intros Hab.
  destruct (sort_priorities_sorted a) as [Hpa Hsa].
  destruct (sort_priorities_sorted b) as [Hpb Hsb].
  apply (StronglySorted_unique_strong (λ x y : Z, y ≤ x)); [|done | done |].
  - intros x y _ _ ??. lia.
  - by rewrite Hpa, Hpb.
Qed.
Lemma elem_of_levels pq p : p ∈ levels pq ↔ is_Some (queues pq !! p).
Proof.
  unfold levels. rewrite list_elem_of_fmap. split.
  - intros ([p' q] & -> & Hin). apply elem_of_map_to_list in Hin. eauto.
  - intros [q Hq]. exists (p, q). split; [done|]. by apply elem_of_map_to_list.
Qed.

Lemma dequeue_from_Dequeued ctx_done p pq t pq' :
  dequeue_from ctx_done p pq = (PQDequeued t, pq') →
  ∃ q q', queues pq !! p = Some q ∧ Dequeue ctx_done q = (Dequeued t, q') ∧
          pq' = mkPriorityQueue (<[p := q']> (queues pq)).
Proof.
  unfold dequeue_from. destruct (queues pq !! p) as [q|]; [|done].
  destruct (Dequeue ctx_done q) as [[t'|e|] q'] eqn:Hd; try done.
  intros [= -> <-]. eauto.
Qed.

Lemma Dequeue_Dequeued ctx_done q t q' :
  Dequeue ctx_done q = (Dequeued t, q') →
  ctx_done = false ∧ closed q = false ∧ tasks q = t :: tasks q'.
Proof.
  unfold Dequeue. destruct ctx_done; [done|]. destruct (closed q); [done|].
  destruct (tasks q) as [|t0 rest]; [done|]. by intros [= <- <-].
Qed.

Lemma try_queues_Some ctx_done ps pq r :
  try_queues ctx_done ps pq = Some r →
  (∀ p, p ∈ ps → is_Some (queues pq !! p)) →
  ∃ l1 p l2 q, ps = l1 ++ p :: l2 ∧ queues pq !! p = Some q ∧ tasks q ≠ [] ∧
    (∀ p' q', p' ∈ l1 → queues pq !! p' = Some q' → tasks q' = []) ∧
    r = dequeue_from ctx_done p pq.
Proof.
  induction ps as [|p ps IH]; simpl; [done|]. intros Hr Hall.
  destruct (Hall p) as [q Hq]; [by left|]. rewrite Hq in Hr.
  destruct (0 <? Size q) eqn:Hsz.
  - injection Hr as <-. exists [], p, ps, q. repeat split; try done.
    + unfold Size in Hsz. apply Z.ltb_lt in Hsz. by destruct (tasks q).
    + by intros p' q' ?%elem_of_nil.
  - destruct IH as (l1 & p0 & l2 & q0 & -> & Hq0 & Hne & Hempty & ->); [done | |].
    { intros p' Hp'. apply Hall. by right. }
    exists (p :: l1), p0, l2, q0. repeat split; try done.
    intros p' q' [->|Hin]%elem_of_cons Hq'.
    + assert (q' = q) as -> by congruence.
      unfold Size in Hsz. apply Z.ltb_ge in Hsz. destruct (tasks q); [done | simpl in Hsz; lia].
    + by eapply Hempty.
Qed.

Lemma try_queues_None ctx_done ps pq :
  try_queues ctx_done ps pq = None →
  ∀ p q, p ∈ ps → queues pq !! p = Some q → tasks q = [].
Proof.
  induction ps as [|p ps IH]; simpl; [by intros _ p q ?%elem_of_nil|].
  destruct (queues pq !! p) as [q|] eqn:Hq; [|done].
  destruct (0 <? Size q) eqn:Hsz; [done|]. intros Hnone p' q' [->|Hin]%elem_of_cons Hq'.
  - assert (q' = q) as -> by congruence.
    unfold Size in Hsz. apply Z.ltb_ge in Hsz. destruct (tasks q); [done | simpl in Hsz; lia].
  - by eapply IH.
Qed.

Lemma NewPriorityQueue_levelled priorities maxSize :
  levelled (NewPriorityQueue priorities maxSize).
Proof.
  unfold NewPriorityQueue.
  assert (∀ m : gmap Z MemoryQueue, (∀ p q, m !! p = Some q → tasks q = []) →
            ∀ p q, foldl (λ m priority, <[priority := NewMemoryQueue maxSize]> m) m priorities
                     !! p = Some q → tasks q = []) as Hgen.
  { induction priorities as [|p0 ps IH]; intros m Hm; simpl; [done|].
    apply IH. intros p q [[_ <-]|[_ Hq]]%lookup_insert_Some; [done | by eapply Hm]. }
  intros p q Hq. simpl in Hq. rewrite (Hgen ∅ (λ p q H, False_ind _ (lookup_empty_Some p q H)) p q Hq).
  constructor.
Qed.

Lemma pq_perform_levelled pq c : levelled pq → levelled (pq_perform pq c).
Proof.
  intros Hl. destruct c as [task|ctx_done order|]; simpl.
  - unfold PriorityQueue_Enqueue.
    destruct (queues pq !! Priority task) as [q|] eqn:Hq; [|done].
    destruct (Enqueue task q) as [e q'] eqn:He. unfold levelled. simpl.
    intros p q0 [[<- <-]|[_ Hq0]]%lookup_insert_Some; [|by eapply Hl].
    revert He. unfold Enqueue. destruct (closed q); [intros [= _ <-]; by eapply Hl|].
    destruct (maxSize q <=? Z.of_nat (length (tasks q))); [intros [= _ <-]; by eapply Hl|].
    intros [= _ <-]. simpl. rewrite insert_by_priority_perm.
    constructor; [done | by eapply Hl].
  - assert (∀ p, levelled (dequeue_from ctx_done p pq).2) as Hfrom.
    { intros p. unfold dequeue_from. destruct (queues pq !! p) as [q|] eqn:Hq; [|done].
      destruct (Dequeue ctx_done q) as [r q'] eqn:Hd. unfold levelled. simpl.
      intros p0 q0 [[<- <-]|[_ Hq0]]%lookup_insert_Some; [|by eapply Hl].
      revert Hd. unfold Dequeue. destruct ctx_done; [intros [= _ <-]; by eapply Hl|].
      destruct (closed q); [intros [= _ <-]; by eapply Hl|].
      specialize (Hl p q Hq). destruct (tasks q) as [|t rest] eqn:Ht.
      - intros [= _ <-]. by rewrite Ht.
      - intros [= _ <-]. simpl. by apply Forall_cons in Hl as [_ ?]. }
    unfold PriorityQueue_Dequeue.
    destruct (try_queues ctx_done (sort_priorities order) pq) as [r|] eqn:Htry.
    + revert Htry. generalize (sort_priorities order). intros ps.
      induction ps as [|p ps IH]; simpl; [done|].
      destruct (queues pq !! p); [|by intros [= <-]].
      destruct (0 <? Size m); [intros [= <-]; apply Hfrom | exact IH].
    + destruct (sort_priorities order); [exact Hl | apply Hfrom].
  - intros p q. simpl. rewrite lookup_fmap. destruct (queues pq !! p) as [q0|] eqn:Hq; [|done].
    intros [= <-]. unfold Close. destruct (closed q0); simpl; by eapply Hl.
Qed.

Lemma reachable_levelled priorities maxSize cs :
  levelled (foldl pq_perform (NewPriorityQueue priorities maxSize) cs).
Proof.
  assert (∀ pq, levelled pq → levelled (foldl pq_perform pq cs)) as Hgen.
  { induction cs as [|c cs IH]; intros pq Hl; simpl; [done|].
    by apply IH, pq_perform_levelled. }
  apply Hgen, NewPriorityQueue_levelled.
Qed.


Lemma queue_never_exceeds_capacity_witness :
  let q := (perform_all [CallEnqueue (task_of "a" 5); CallEnqueue (task_of "b" 7);
                         CallEnqueue (task_of "c" 9)] (NewMemoryQueue 2)).2 in
  Size q ≤ 2 ∧ Enqueue (task_of "d" 1) q = (Some (ErrQueueFull (maxSize q)), q).
Proof.
  cbv zeta. destruct queue_never_exceeds_capacity as [Hsize Hfull].
  split.
  - apply (Hsize 2 [CallEnqueue (task_of "a" 5); CallEnqueue (task_of "b" 7);
                    CallEnqueue (task_of "c" 9)]).
  - apply Hfull; [reflexivity | vm_compute; discriminate].
Defined.

Lemma dequeue_from_closed ctx_done p pq q :
  queues pq !! p = Some q → closed q = true →
  ∃ e, dequeue_from ctx_done p pq = (PQError e, pq).
Proof.
  intros Hq Hc. unfold dequeue_from, Dequeue. rewrite Hq, Hc.
  destruct pq as [m]. simpl in *.
  destruct ctx_done; rewrite insert_id by done; eauto.
Qed.

(** [PriorityQueue.Close] closes every level, and from then on the queue
    refuses all work: a dequeue, whatever the iteration order and whether or
    not tasks are waiting, returns an error, never a task, and an enqueue
    returns an error; neither changes the queue. *)
Theorem closed_priority_queue_refuses_work pq ctx_done order task :
  let pq' := (PriorityQueue_Close pq).2 in
  (PriorityQueue_Close pq).1 = None ∧
  levels pq' ≡ₚ levels pq ∧
  (∀ p q, queues pq' !! p = Some q →
     IsClosed q = true ∧ ∃ q0, queues pq !! p = Some q0 ∧ GetTasks q = GetTasks q0) ∧
  (order ≡ₚ levels pq → ∃ e, PriorityQueue_Dequeue ctx_done order pq' = (PQError e, pq')) ∧
  (∃ e, PriorityQueue_Enqueue task pq' = (Some e, pq')).
Proof.
  cbv zeta. unfold PriorityQueue_Close. simpl.
  set (pq' := mkPriorityQueue _).
  assert (∀ p q, queues pq' !! p = Some q →
            closed q = true ∧ ∃ q0, queues pq !! p = Some q0 ∧ tasks q = tasks q0) as Hcl.
  { intros p q. subst pq'. simpl. rewrite lookup_fmap.
    destruct (queues pq !! p) as [q0|]; [|done]. intros [= <-].
    unfold Close. destruct (closed q0) eqn:Hc; simpl; eauto. }
  assert (levels pq' ≡ₚ levels pq) as Hlev.
  { apply NoDup_Permutation; [apply NoDup_fst_map_to_list..|].
    intros p. rewrite !elem_of_levels. subst pq'. simpl. rewrite lookup_fmap.
    by rewrite fmap_is_Some. }
  split; [done|]. split; [done|]. split; [exact Hcl|]. split.
  - intros Horder. rewrite <- Hlev in Horder.
    destruct (sort_priorities_sorted order) as [Hperm _].
    assert (∀ p, p ∈ sort_priorities order → is_Some (queues pq' !! p)) as Hin.
    { intros p Hp. apply elem_of_levels. by rewrite <- Horder, <- Hperm. }
    unfold PriorityQueue_Dequeue.
    destruct (try_queues ctx_done (sort_priorities order) pq') as [r|] eqn:Htry.
    + destruct (try_queues_Some _ _ _ _ Htry Hin) as (l1 & p & l2 & q & _ & Hq & _ & _ & ->).
      apply (dequeue_from_closed _ _ _ q); [done|]. by destruct (Hcl p q Hq).
    + destruct (sort_priorities order) as [|highest ps]; [eauto|].
      destruct (Hin highest) as [q Hq]; [by left|].
      apply (dequeue_from_closed _ _ _ q); [done|]. by destruct (Hcl highest q Hq).
  - unfold PriorityQueue_Enqueue.
    destruct (queues pq' !! Priority task) as [q|] eqn:Hq; [|eauto].
    destruct (Hcl _ _ Hq) as [Hc _]. unfold Enqueue. rewrite Hc. simpl.
    rewrite insert_id by done. subst pq'. eauto.
Qed.

Lemma closed_priority_queue_refuses_work_witness :
  let pq := foldl pq_perform (NewPriorityQueue [1; 5] 100) [PQCallEnqueue (task_of "low" 1)] in
  let pq' := (PriorityQueue_Close pq).2 in
  (∃ e, PriorityQueue_Dequeue false (levels pq) pq' = (PQError e, pq')) ∧
  (∃ e, PriorityQueue_Enqueue (task_of "x" 5) pq' = (Some e, pq')).
Proof.
  cbv zeta.
  destruct (closed_priority_queue_refuses_work
              (foldl pq_perform (NewPriorityQueue [1; 5] 100) [PQCallEnqueue (task_of "low" 1)])
              false
              (levels (foldl pq_perform (NewPriorityQueue [1; 5] 100)
                         [PQCallEnqueue (task_of "low" 1)]))
              (task_of "x" 5)) as (_ & _ & _ & Hd & He).
  split; [apply Hd; reflexivity | exact He].
Defined.

End queue_props.

(* ===================================================================== *)
(** * Properties of the checkpoint manager *)
(* ===================================================================== *)

Module checkpoint_props.
Import types checkpoint.

Section WithStorage.
Context {St : Type} `{!Storage St}.

(** What an enabled [SaveCheckpoint] does to the heap and to the map,
    whatever the storage answers. *)
Lemma SaveCheckpoint_enabled stage l c now (h : Heap) (m : Manager St) :
  enabled m = true → h !! l = Some c →
  ∃ e st,
    SaveCheckpoint stage (Some l) now h m =
      Returns (e, <[l := set_Timestamp now c]> h,
               mkManager (jobID m) (<[stage := l]> (checkpoints m)) st (interval m) true).
Proof.
  intros Hen Hl. unfold SaveCheckpoint. rewrite Hen, Hl. simpl.
  destruct (Storage_Save _ _ _ _) as [[err|] st]; eauto.
Qed.

(** What the saves to other stages leave alone. *)
Lemma save_all_frame stage l c (others : list (string * CheckpointPtr * Time))
    (h : Heap) (m : Manager St) :
  enabled m = true → checkpoints m !! stage = Some l → h !! l = Some c →
  Forall (λ o, o.1.1 ≠ stage ∧ is_Some (deref h o.1.2)) others →
  ∃ h' m' c',
    save_all others h m = Returns (h', m') ∧
    enabled m' = true ∧ checkpoints m' !! stage = Some l ∧ h' !! l = Some c' ∧
    Position c' = Position c ∧ Metadata c' = Metadata c ∧
    (Forall (λ o, o.1.2 ≠ Some l) others → Timestamp c' = Timestamp c).
Proof.
  revert h m c. induction others as [|[[s p] t] rest IH]; intros h m c Hen Hm Hl Hall.
  - exists h, m, c. simpl. repeat split; done.
  - apply Forall_cons in Hall as [[Hs Hp] Hall]. simpl in Hs, Hp.
    destruct p as [l'|]; [|by destruct Hp].
    destruct Hp as [c0 Hc0]. simpl in Hc0.
    destruct (SaveCheckpoint_enabled s l' c0 t h m Hen Hc0) as (e & st & Hsave).
    simpl. rewrite Hsave.
    set (h1 := <[l' := set_Timestamp t c0]> h).
    set (m1 := mkManager _ _ _ _ _).
    assert (∃ c1, h1 !! l = Some c1 ∧ Position c1 = Position c ∧ Metadata c1 = Metadata c
                  ∧ (l' ≠ l → c1 = c)) as (c1 & Hc1 & Hpos & Hmeta & Hsame).
    { subst h1. destruct (decide (l' = l)) as [->|Hne].
      - exists (set_Timestamp t c0). rewrite lookup_insert_eq.
        assert (c0 = c) as -> by congruence. repeat split; done.
      - exists c. rewrite lookup_insert_ne by done. repeat split; done. }
    destruct (IH h1 m1 c1) as (h' & m' & c' & Hrun & Hen' & Hm' & Hl' & Hp' & Hmd' & Hts').
    + done.
    + subst m1. simpl. by rewrite lookup_insert_ne.
    + done.
    + eapply Forall_impl; [exact Hall|]. intros [[s' p'] t'] [Hs' Hp']. simpl in *.
      split; [done|]. destruct p' as [l''|]; [|done]. simpl in *. subst h1.
      destruct (decide (l' = l'')) as [->|]; [by rewrite lookup_insert_eq|].
      by rewrite lookup_insert_ne.
    + exists h', m', c'. repeat split; try done; try congruence.
      intros Hno. apply Forall_cons in Hno as [Hno1 Hno]. simpl in Hno1.
      rewrite Hts' by done. rewrite Hsame; [done | congruence].
Qed.

(** C7. With the manager enabled, after save(stage, c), and after any saves
    to other stage names, load(stage) returns the saved checkpoint object:
    its position and metadata are c's, and its timestamp is the time of the
    save (as long as the caller has not saved the same object again under
    another stage).  This holds whether or not the storage accepted the
    write. *)
Theorem save_then_load_returns_saved stage l c now
    (others : list (string * CheckpointPtr * Time)) (h : Heap) (m : Manager St) :
  enabled m = true → h !! l = Some c →
  Forall (λ o, o.1.1 ≠ stage ∧ is_Some (deref h o.1.2)) others →
  ∃ e h1 m1 h2 m2 c',
    SaveCheckpoint stage (Some l) now h m = Returns (e, h1, m1) ∧
    save_all others h1 m1 = Returns (h2, m2) ∧
    LoadCheckpoint stage m2 = Some l ∧
    deref h2 (LoadCheckpoint stage m2) = Some c' ∧
    Position c' = Position c ∧ Metadata c' = Metadata c ∧
    (Forall (λ o, o.1.2 ≠ Some l) others → Timestamp c' = now).
Proof.
  intros Hen Hl Hall.
  destruct (SaveCheckpoint_enabled stage l c now h m Hen Hl) as (e & st & Hsave).
  set (h1 := <[l := set_Timestamp now c]> h) in *.
  set (m1 := mkManager _ _ _ _ _) in *.
  destruct (save_all_frame stage l (set_Timestamp now c) others h1 m1)
    as (h2 & m2 & c' & Hrun & Hen2 & Hm2 & Hl2 & Hpos & Hmeta & Hts).
  - done.
  - subst m1. simpl. apply lookup_insert_eq.
  - subst h1. apply lookup_insert_eq.
  - eapply Forall_impl; [exact Hall|]. intros [[s' p'] t'] [Hs' Hp']. simpl in *.
    split; [done|]. destruct p' as [l'|]; [|done]. simpl in *. subst h1.
    destruct (decide (l = l')) as [->|]; [by rewrite lookup_insert_eq|].
    by rewrite lookup_insert_ne.
  - exists e, h1, m1, h2, m2, c'.
    assert (LoadCheckpoint stage m2 = Some l) as Hload.
    { unfold LoadCheckpoint. by rewrite Hen2. }
    rewrite Hload. repeat split; done.
Qed.

(** C10. An enabled save writes the caller's checkpoint object in place:
    only its timestamp changes, and every other object is untouched.  The
    map holds the caller's pointer, so load and list return that pointer,
    and whatever the caller writes to the object afterwards is what a
    reader sees through load. *)
Theorem save_stores_callers_object stage l c now (h : Heap) (m : Manager St) :
  enabled m = true → h !! l = Some c →
  ∃ e h' m',
    SaveCheckpoint stage (Some l) now h m = Returns (e, h', m') ∧
    h' !! l = Some (mkCheckpoint (Position c) now (Metadata c)) ∧
    (∀ l', l' ≠ l → h' !! l' = h !! l') ∧
    checkpoints m' !! stage = Some l ∧
    LoadCheckpoint stage m' = Some l ∧
    GetAllCheckpoints m' !! stage = Some l ∧
    (∀ c2, deref (<[l := c2]> h') (LoadCheckpoint stage m') = Some c2).
Proof.
  intros Hen Hl.
  destruct (SaveCheckpoint_enabled stage l c now h m Hen Hl) as (e & st & Hsave).
  eexists _, _, _. split; [exact Hsave|].
  assert (GetAllCheckpoints
            (mkManager (jobID m) (<[stage := l]> (checkpoints m)) st (interval m) true)
          = <[stage := l]> (checkpoints m)) as Hall.
  { unfold GetAllCheckpoints. simpl.
    generalize (<[stage := l]> (checkpoints m)). intros cps.
    induction cps as [|k v cps Hk Hfold IH] using map_first_key_ind; [done|].
    rewrite map_fold_insert_first_key by done. by rewrite IH. }
  rewrite Hall. unfold LoadCheckpoint. simpl.
  rewrite !lookup_insert_eq.
  repeat split; try done.
  - intros l' Hne. by rewrite lookup_insert_ne.
  - intros c2. simpl. by rewrite lookup_insert_eq.
Qed.

End WithStorage.

Lemma save_then_load_returns_saved_witness :
  ∃ e h1 m1 h2 m2 c',
    SaveCheckpoint "input" (Some 1%positive) 500 example_heap example_manager
      = Returns (e, h1, m1) ∧
    save_all [("output", Some 2%positive, 600); ("processor1", Some 2%positive, 700)] h1 m1
      = Returns (h2, m2) ∧
    LoadCheckpoint "input" m2 = Some 1%positive ∧
    deref h2 (LoadCheckpoint "input" m2) = Some c' ∧
    Position c' = VString "12345" ∧ Metadata c' = Metadata example_checkpoint ∧
    (Forall (λ o : string * CheckpointPtr * Time, o.1.2 ≠ Some 1%positive)
       [("output", Some 2%positive, 600); ("processor1", Some 2%positive, 700)] →
     Timestamp c' = 500).
Proof.
  apply (save_then_load_returns_saved (St := FileStorage) "input" 1%positive
           example_checkpoint 500
           [("output", Some 2%positive, 600); ("processor1", Some 2%positive, 700)]
           example_heap example_manager).
  - reflexivity.
  - reflexivity.
  - repeat constructor; simpl; try discriminate; eexists; reflexivity.
Defined.

Lemma save_stores_callers_object_witness :
  ∃ e h' m',
    SaveCheckpoint "input" (Some 1%positive) 500 example_heap
      (mkManager "job" ∅ (tt : BrokenStorage) 30 true) = Returns (e, h', m') ∧
    h' !! 1%positive = Some (mkCheckpoint (VString "12345") 500 (Metadata example_checkpoint)) ∧
    (∀ l', l' ≠ 1%positive → h' !! l' = example_heap !! l') ∧
    checkpoints m' !! "input" = Some 1%positive ∧
    LoadCheckpoint "input" m' = Some 1%positive ∧
    GetAllCheckpoints m' !! "input" = Some 1%positive ∧
    (∀ c2, deref (<[1%positive := c2]> h') (LoadCheckpoint "input" m') = Some c2).
Proof.
  apply (save_stores_callers_object (St := BrokenStorage) "input" 1%positive
           example_checkpoint 500 example_heap
           (mkManager "job" ∅ (tt : BrokenStorage) 30 true)).
  - reflexivity.
  - reflexivity.
Defined.

(** ** Runs of saves, deletes and clears *)

Section Runs.
Context {St : Type} `{!Storage St}.

Lemma GetAllCheckpoints_copy (m : Manager St) : GetAllCheckpoints m = checkpoints m.
Proof.
  unfold GetAllCheckpoints. generalize (checkpoints m). intros cps.
  induction cps as [|k v cps Hk Hfold IH] using map_first_key_ind; [done|].
  rewrite map_fold_insert_first_key by done. by rewrite IH.
Qed.

Lemma run_ops_enabled ops (h : Heap) (m : Manager St) :
  enabled m = true →
  Forall (addressable h) ops →
  ∃ h' m', run_ops ops h m = Returns (h', m') ∧
    enabled m' = true ∧ jobID m' = jobID m ∧ interval m' = interval m ∧
    checkpoints m' = remembered ops (checkpoints m) ∧
    dom h' = dom h.
Proof.
  revert h m. induction ops as [|o ops IH]; intros h m Hen Hall; simpl.
  - by exists h, m.
  - apply Forall_cons in Hall as [Ho Hall]. destruct o as [stage p now|stage|]; simpl in *.
    + destruct p as [l|]; [|by destruct Ho]. destruct Ho as [c Hc]. simpl in Hc.
      unfold SaveCheckpoint. rewrite Hen, Hc. simpl.
      assert (Forall (addressable (<[l := set_Timestamp now c]> h)) ops) as Hall'.
      { eapply Forall_impl; [exact Hall|]. intros [s' [l'|] t'|s'|]; simpl; try done.
        destruct (decide (l = l')) as [->|]; [by rewrite lookup_insert_eq|].
        by rewrite lookup_insert_ne. }
      assert (dom (<[l := set_Timestamp now c]> h) = dom h) as Hdom.
      { apply set_eq. intros l'. rewrite !elem_of_dom.
        destruct (decide (l = l')) as [->|]; [rewrite lookup_insert_eq, Hc; split; eauto|].
        by rewrite lookup_insert_ne. }
      destruct (Storage_Save (jobID m) stage (set_Timestamp now c) (storage m)) as [[err|] st];
        (edestruct (IH (<[l := set_Timestamp now c]> h)) as (h' & m' & -> & ? & ? & ? & ? & Hd);
         [| exact Hall' |]; [done|];
         exists h', m'; repeat split; try done; by rewrite Hd).
    + unfold DeleteCheckpoint. rewrite Hen. simpl.
      destruct (Storage_Delete (jobID m) stage (storage m)) as [[err|] st]; simpl;
        (edestruct (IH h) as (h' & m' & -> & ? & ? & ? & ? & Hd); [| exact Hall |]; [done|];
         by exists h', m').
    + unfold Clear. rewrite Hen. simpl.
      destruct (Storage_Clear (jobID m) (storage m)) as [[err|] st]; simpl;
        (edestruct (IH h) as (h' & m' & -> & ? & ? & ? & ? & Hd); [| exact Hall |]; [done|];
         by exists h', m').
Qed.

End Runs.

(** What an enabled manager remembers depends on the calls alone, not on
    whether the storage accepted them: after any run of saves, deletes and
    clears whose pointers are valid, the run returns, and [LoadCheckpoint]
    and [GetAllCheckpoints] answer with the pointer of the last save to the
    stage that no later delete of the stage and no later clear has
    forgotten.  So a delete or clear that the storage refuses is forgotten
    in memory all the same. *)
Theorem manager_remembers_last_save :
  ∀ St `{!Storage St} ops (h : Heap) (m : Manager St),
    enabled m = true → Forall (addressable h) ops →
    ∃ h' m', run_ops ops h m = Returns (h', m') ∧
      IsEnabled m' = true ∧
      GetAllCheckpoints m' = remembered ops (checkpoints m) ∧
      ∀ stage, LoadCheckpoint stage m' = remembered ops (checkpoints m) !! stage.
Proof.
  intros St HSt ops h m Hen Hall.
  destruct (run_ops_enabled ops h m Hen Hall) as (h' & m' & Hrun & Hen' & _ & _ & Hcps & _).
  exists h', m'. split; [done|]. split; [done|].
  rewrite GetAllCheckpoints_copy. split; [done|].
  intros stage. unfold LoadCheckpoint. by rewrite Hen', Hcps.
Qed.

Lemma manager_remembers_last_save_witness :
  ∃ h' m',
    run_ops [OpSave "input" (Some 1%positive) 500; OpSave "output" (Some 2%positive) 600;
             OpDelete "input"; OpSave "input" (Some 2%positive) 700]
      example_heap (mkManager "job" ∅ (tt : BrokenStorage) 30 true) = Returns (h', m') ∧
    LoadCheckpoint "input" m' = Some 2%positive ∧
    LoadCheckpoint "output" m' = Some 2%positive ∧
    LoadCheckpoint "processor" m' = None.
Proof.
  destruct (manager_remembers_last_save BrokenStorage
              [OpSave "input" (Some 1%positive) 500; OpSave "output" (Some 2%positive) 600;
               OpDelete "input"; OpSave "input" (Some 2%positive) 700]
              example_heap (mkManager "job" ∅ (tt : BrokenStorage) 30 true) eq_refl)
    as (h' & m' & Hrun & _ & _ & Hload).
  { repeat constructor; simpl; eexists; reflexivity. }
  exists h', m'. split; [exact Hrun|]. rewrite !Hload. repeat split.
Defined.

End checkpoint_props.

(* ===================================================================== *)
(** * Properties of the worker pool *)
(* ===================================================================== *)

Module worker_props.
Import models worker.

Section WithStore.
Context {S : Type} `{!database.MetadataStore S}.

Lemma UpdateHeartbeat_known workerID now now_db (p : Pool S) w :
  known workerID p = Some w →
  let r := UpdateHeartbeat workerID now now_db p in
  workers r.2 !! workerID = Some (set_LastHeartbeat now w) ∧
  store r.2 = (database.UpdateWorkerHeartbeat workerID now_db (store p)).2 ∧
  (r.1 = None ↔ (database.UpdateWorkerHeartbeat workerID now_db (store p)).1 = None) ∧
  (∀ other, other ≠ workerID → workers r.2 !! other = workers p !! other).
Proof.
  unfold known, UpdateHeartbeat.
  destruct (workers p !! workerID) as [w0|] eqn:Hc.
  - intros [= ->].
    destruct (database.UpdateWorkerHeartbeat workerID now_db (store p)) as [[err|] st];
      simpl; rewrite lookup_insert_eq; repeat split; try done;
      intros other Hne; by rewrite lookup_insert_ne.
  - destruct (database.GetWorker workerID (store p)) as [w0|err]; [|done].
    intros [= ->].
    destruct (database.UpdateWorkerHeartbeat workerID now_db (store p)) as [[err|] st];
      simpl; rewrite lookup_insert_eq; repeat split; try done;
      intros other Hne; by rewrite !lookup_insert_ne.
Qed.

Lemma UpdateHeartbeat_unknown workerID now now_db (p : Pool S) :
  known workerID p = None →
  UpdateHeartbeat workerID now now_db p = (Some (ErrWorkerNotFound workerID), p).
Proof.
  unfold known, UpdateHeartbeat.
  destruct (workers p !! workerID); [done|].
  by destruct (database.GetWorker workerID (store p)).
Qed.

Lemma checkWorkerHealth_fresh workerID now (p : Pool S) w :
  workers p !! workerID = Some w →
  (now - LastHeartbeat w ≤ heartbeatTimeout p)%Z →
  WStatus w = WorkerStatusOffline →
  WStatus <$> (workers (checkWorkerHealth now p) !! workerID) = Some WorkerStatusOnline.
Proof.
  intros Hw Hfresh Hoff. unfold checkWorkerHealth. simpl.
  rewrite lookup_fmap, Hw. simpl. unfold check_one.
  destruct (heartbeatTimeout p <? now - LastHeartbeat w)%Z eqn:Hlt.
  { apply Z.ltb_lt in Hlt. lia. }
  by rewrite decide_True.
Qed.

End WithStore.

(** C9, as the code has it.  For a worker in the cache, or else in the
    store, heartbeat sets the cached worker's last-heartbeat to the current
    time, leaves every other field of the cached worker (its status too) as
    it was, caches a worker it had to load, and asks the store to record the
    heartbeat; it succeeds exactly when the store does.  With the SQLite
    store the stored row gets the store's time and the status online.  For
    a worker in neither place it fails with not-found and changes nothing.
    A cached worker that is offline is set online by the next health check
    that finds the heartbeat fresh. *)
Theorem heartbeat_updates_time_not_cached_status :
  (∀ S `{!database.MetadataStore S} workerID now now_db (p : Pool S) w,
     known workerID p = Some w →
     let r := UpdateHeartbeat workerID now now_db p in
     workers r.2 !! workerID
       = Some (mkWorker (WorkerID w) (Hostname w) (IPAddress w) (Port w) (WStatus w)
                 (CPUCores w) (MemoryMB w) now (RegisteredAt w)) ∧
     store r.2 = (database.UpdateWorkerHeartbeat workerID now_db (store p)).2 ∧
     (r.1 = None ↔ (database.UpdateWorkerHeartbeat workerID now_db (store p)).1 = None)) ∧
  (∀ workerID now now_db (p : Pool database.SQLiteStore) row,
     database.workers_table (store p) !! workerID = Some row →
     database.workers_table (store (UpdateHeartbeat workerID now now_db p).2) !! workerID
       = Some (set_WStatus WorkerStatusOnline (set_LastHeartbeat now_db row))) ∧
  (∀ S `{!database.MetadataStore S} workerID now now_db (p : Pool S),
     known workerID p = None →
     UpdateHeartbeat workerID now now_db p = (Some (ErrWorkerNotFound workerID), p)) ∧
  (∀ S `{!database.MetadataStore S} workerID now now_db tick (p : Pool S) w,
     known workerID p = Some w →
     WStatus w = WorkerStatusOffline →
     (tick - now ≤ heartbeatTimeout p)%Z →
     WStatus <$> (workers (checkWorkerHealth tick (UpdateHeartbeat workerID now now_db p).2)
                    !! workerID) = Some WorkerStatusOnline).
Proof.
  split; [|split; [|split]].
  - intros S HS workerID now now_db p w Hk r.
    destruct (UpdateHeartbeat_known workerID now now_db p w Hk) as (Hc & Hs & He & _).
    repeat split; try done; apply He.
  - intros workerID now now_db p row Hrow.
    assert (is_Some (known workerID p)) as [w Hk].
    { unfold known. destruct (workers p !! workerID); [eauto|].
      simpl. unfold database.sqlite_GetWorker. rewrite Hrow. eauto. }
    destruct (UpdateHeartbeat_known workerID now now_db p w Hk) as (_ & -> & _).
    simpl. unfold database.sqlite_UpdateWorkerHeartbeat. rewrite Hrow. simpl.
    apply lookup_insert_eq.
  - intros S HS. apply UpdateHeartbeat_unknown.
  - intros S HS workerID now now_db tick p w Hk Hoff Hfresh.
    destruct (UpdateHeartbeat_known workerID now now_db p w Hk) as (Hc & Hs & _).
    eapply checkWorkerHealth_fresh; [exact Hc | |done].
    destruct (UpdateHeartbeat workerID now now_db p) as [e p'] eqn:Hup. simpl.
    assert (heartbeatTimeout p' = heartbeatTimeout p) as ->; [|done].
    revert Hup. unfold UpdateHeartbeat.
    repeat match goal with
           | |- context [match ?x with _ => _ end] => destruct x
           end; by intros [= <- <-].
Qed.

Lemma heartbeat_updates_time_not_cached_status_witness :
  let r := UpdateHeartbeat "w-1" 1000 1001 offline_pool in
  r.1 = None ∧
  LastHeartbeat <$> (workers r.2 !! "w-1") = Some 1000%Z ∧
  (WStatus <$> database.workers_table (store r.2) !! "w-1") = Some WorkerStatusOnline ∧
  UpdateHeartbeat "w-9" 1000 1001 offline_pool = (Some (ErrWorkerNotFound "w-9"), offline_pool) ∧
  WStatus <$> (workers (checkWorkerHealth 2000 r.2) !! "w-1") = Some WorkerStatusOnline.
Proof.
  destruct heartbeat_updates_time_not_cached_status as (Hknown & Hsql & Hunknown & Htick).
  cbv zeta.
  destruct (Hknown database.SQLiteStore _ "w-1" 1000%Z 1001%Z offline_pool
              (example_worker WorkerStatusOffline) eq_refl) as (Hc & Hs & He).
  split; [apply He; reflexivity|].
  split; [rewrite Hc; reflexivity|].
  split.
  - rewrite (Hsql "w-1" 1000%Z 1001%Z offline_pool (example_worker WorkerStatusOffline) eq_refl).
    reflexivity.
  - split.
    + apply (Hunknown database.SQLiteStore _ "w-9" 1000%Z 1001%Z offline_pool). reflexivity.
    + apply (Htick database.SQLiteStore _ "w-1" 1000%Z 1001%Z 2000%Z offline_pool
               (example_worker WorkerStatusOffline)); [reflexivity | reflexivity |].
      vm_compute. discriminate.
Defined.

(** C9 as stated fails: after a successful heartbeat for a cached worker
    that is offline, the cached worker is still offline. *)
Lemma heartbeat_leaves_cached_status :
  let r := UpdateHeartbeat "w-1" 1000 1001 offline_pool in
  r.1 = None ∧
  WStatus <$> (workers r.2 !! "w-1") = Some WorkerStatusOffline ∧
  WStatus <$> (workers r.2 !! "w-1") ≠ Some WorkerStatusOnline ∧
  WStatus <$> (match GetWorker "w-1" r.2 with inl w => Some w | inr _ => None end)
    = Some WorkerStatusOffline.
Proof. vm_compute. repeat split; congruence. Qed.

(** ** The health check, registration and the statistics *)

Lemma check_one_status now timeout w :
  check_one now timeout w =
    set_WStatus (if (timeout <? now - LastHeartbeat w)%Z then WorkerStatusOffline
                 else if decide (WStatus w = WorkerStatusOffline) then WorkerStatusOnline
                 else WStatus w) w.
Proof.
  unfold check_one. destruct w as [id host ip port st cpu mem hb reg]. simpl.
  destruct (timeout <? now - hb)%Z.
  - case_decide as Hs; [done|]. try apply dec_stable in Hs. by subst.
  - by case_decide.
Qed.

Lemma check_one_idemp now timeout w :
  check_one now timeout (check_one now timeout w) = check_one now timeout w.
Proof.
  rewrite !check_one_status. destruct w as [id host ip port st cpu mem hb reg]. simpl.
  destruct (timeout <? now - hb)%Z; [done|].
  unfold set_WStatus. simpl.
  destruct (decide (st = WorkerStatusOffline)) as [->|Hne]; [done|].
  by rewrite decide_False.
Qed.

(** One tick of the health monitor judges every cached worker by the age
    of its heartbeat alone and touches nothing but the status: a worker
    whose heartbeat is older than the timeout becomes offline, whatever it
    was; one whose heartbeat is within the timeout becomes online if it was
    offline and otherwise keeps its status (a busy worker stays busy).  A
    worker that [IsHealthy] reports healthy at the time of the tick is
    therefore not offline after it.  The store is not written, and a second
    tick at the same time changes nothing. *)
Theorem health_check_follows_heartbeat_age :
  ∀ S `{!database.MetadataStore S} now (p : Pool S),
    store (checkWorkerHealth now p) = store p ∧
    dom (workers (checkWorkerHealth now p)) = dom (workers p) ∧
    (∀ id w, workers p !! id = Some w →
       ∃ status,
         workers (checkWorkerHealth now p) !! id = Some (set_WStatus status w) ∧
         status = (if (heartbeatTimeout p <? now - LastHeartbeat w)%Z
                   then WorkerStatusOffline
                   else if decide (WStatus w = WorkerStatusOffline) then WorkerStatusOnline
                   else WStatus w) ∧
         (IsHealthy now (heartbeatTimeout p) w = true → status ≠ WorkerStatusOffline)) ∧
    checkWorkerHealth now (checkWorkerHealth now p) = checkWorkerHealth now p.
Proof.
  intros S HS now p. unfold checkWorkerHealth. simpl.
  split; [done|]. split; [apply dom_fmap_L|]. split.
  - intros id w Hw. eexists. split; [|split; [reflexivity|]].
    + by rewrite lookup_fmap, Hw, <- check_one_status.
    + unfold IsHealthy. intros Hh%Z.ltb_lt.
      destruct (heartbeatTimeout p <? now - LastHeartbeat w)%Z eqn:Hlt.
      { apply Z.ltb_lt in Hlt. lia. }
      by case_decide.
  - f_equal. rewrite <- map_fmap_compose. apply map_fmap_ext.
    intros id w _. apply check_one_idemp.
Qed.

(** [GetHealthyWorkers] judges by the heartbeat alone, the status playing
    no part: it returns the cached workers whose heartbeat is younger than
    the timeout at the moment they are examined.  Examined after a health
    check, none of them is offline. *)
Theorem healthy_workers_are_fresh_workers :
  ∀ S `{!database.MetadataStore S} (clock : string → Time) (p : Pool S),
    (∀ w, w ∈ GetHealthyWorkers clock p ↔
          ∃ id, workers p !! id = Some w ∧
                (clock id - LastHeartbeat w < heartbeatTimeout p)%Z) ∧
    (∀ tick w, (∀ id, (tick ≤ clock id)%Z) →
       w ∈ GetHealthyWorkers clock (checkWorkerHealth tick p) →
       WStatus w ≠ WorkerStatusOffline).
Proof.
  intros S HS clock p.
  assert (∀ (q : Pool S) w, w ∈ GetHealthyWorkers clock q ↔
            ∃ id, workers q !! id = Some w ∧
                  (clock id - LastHeartbeat w < heartbeatTimeout q)%Z) as Hmem.
  { intros q w. unfold GetHealthyWorkers. rewrite list_elem_of_fmap. split.
    - intros ([id w'] & -> & [Hh Hin]%list_elem_of_filter). simpl in *.
      apply elem_of_map_to_list in Hin. unfold IsHealthy in Hh. apply Z.ltb_lt in Hh. eauto.
    - intros (id & Hw & Hlt). exists (id, w). split; [done|].
      apply list_elem_of_filter. split; [|by apply elem_of_map_to_list].
      simpl. unfold IsHealthy. by apply Z.ltb_lt. }
  split; [apply Hmem|].
  intros tick w Hclock (id & Hw & Hlt)%Hmem. simpl in *.
  rewrite lookup_fmap in Hw.
  destruct (workers p !! id) as [w0|]; [|done]. injection Hw as <-.
  rewrite check_one_status in *. destruct w0 as [i host ip port st cpu mem hb reg]. simpl in *.
  specialize (Hclock id).
  destruct (heartbeatTimeout p <? tick - hb)%Z eqn:Hold.
  { apply Z.ltb_lt in Hold. lia. }
  by case_decide.
Qed.

Lemma healthy_workers_are_fresh_workers_witness :
  GetHealthyWorkers (λ _, 60%Z)
    (checkWorkerHealth 50
       (mkPool database.sqlite_empty
          (<["w-1" := example_worker WorkerStatusOffline]> ∅) 50 100 true))
  = [example_worker WorkerStatusOnline] ∧
  WStatus (example_worker WorkerStatusOnline) ≠ WorkerStatusOffline.
Proof.
  split; [vm_compute; reflexivity|].
  destruct (healthy_workers_are_fresh_workers database.SQLiteStore (λ _, 60%Z)
              (mkPool database.sqlite_empty
                 (<["w-1" := example_worker WorkerStatusOffline]> ∅) 50 100 true))
    as [_ Hfresh].
  apply (Hfresh 50%Z (example_worker WorkerStatusOnline)).
  - intros _. lia.
  - vm_compute. left.
Defined.
(** A registered worker is online, cached under its id and returned by
    [GetWorker]; the other cached workers are untouched and the count grows
    by one when the id is new.  [UnregisterWorker] knows the cached workers
    only: for an id that is not cached it fails with not-found and does not
    ask the store, even when the store has the worker.  With the SQLite
    store, registering a new id and unregistering it restores the cache, and
    the worker is then found neither in the cache nor in the table. *)
Theorem register_and_unregister_worker :
  (∀ S `{!database.MetadataStore S} uuid ip cores memory now_hb now_reg hostname port
     (p : Pool S) w p',
     RegisterWorker uuid ip cores memory now_hb now_reg hostname port p = (inl w, p') →
     w = mkWorker uuid hostname ip port WorkerStatusOnline cores memory now_hb now_reg ∧
     GetWorker uuid p' = inl w ∧
     (∀ other, other ≠ uuid → workers p' !! other = workers p !! other) ∧
     GetWorkerCount p' =
       (GetWorkerCount p + match workers p !! uuid with Some _ => 0 | None => 1 end)%Z) ∧
  (∀ S `{!database.MetadataStore S} workerID (p : Pool S),
     workers p !! workerID = None →
     UnregisterWorker workerID p = (Some (ErrWorkerNotFound workerID), p)) ∧
  (∀ uuid ip cores memory now_hb now_reg hostname port (p : Pool database.SQLiteStore),
     workers p !! uuid = None →
     ∃ w p1 p2,
       RegisterWorker uuid ip cores memory now_hb now_reg hostname port p = (inl w, p1) ∧
       database.workers_table (store p1) !! uuid = Some w ∧
       UnregisterWorker uuid p1 = (None, p2) ∧
       workers p2 = workers p ∧
       database.workers_table (store p2) !! uuid = None ∧
       GetWorker uuid p2 = inr (String.append "worker not found: " uuid)).
Proof.
  split; [|split].
  - intros S HS uuid ip cores memory now_hb now_reg hostname port p w p'.
    unfold RegisterWorker.
    destruct (database.RegisterWorker _ (store p)) as [[err|] st]; [done|].
    intros [= <- <-]. unfold GetWorker, GetWorkerCount. simpl.
    rewrite lookup_insert_eq. repeat split.
    + intros other Hne. by rewrite lookup_insert_ne.
    + rewrite map_size_insert. destruct (workers p !! uuid); simpl; lia.
  - intros S HS workerID p Hno. unfold UnregisterWorker. by rewrite Hno.
  - intros uuid ip cores memory now_hb now_reg hostname port p Hno.
    unfold RegisterWorker, UnregisterWorker. simpl.
    unfold database.sqlite_RegisterWorker. simpl.
    eexists _, _, _. split; [reflexivity|]. simpl. rewrite !lookup_insert_eq.
    split; [done|]. split; [reflexivity|]. simpl.
    rewrite (delete_insert_id (workers p)) by done. split; [done|].
    split; [apply lookup_delete_eq|].
    unfold GetWorker. cbn [workers store]. rewrite Hno.
    change (database.GetWorker uuid ?s) with (database.sqlite_GetWorker uuid s).
    unfold database.sqlite_GetWorker. cbn [database.workers_table].
    by rewrite lookup_delete_eq.
Qed.

Lemma register_and_unregister_worker_witness :
  ∃ w p1 p2,
    RegisterWorker "w-2" "10.0.0.7" 8 1024 100 101 "test-host" 8080
      (NewPool database.sqlite_empty) = (inl w, p1) ∧
    database.workers_table (store p1) !! "w-2" = Some w ∧
    UnregisterWorker "w-2" p1 = (None, p2) ∧
    workers p2 = ∅ ∧
    database.workers_table (store p2) !! "w-2" = None ∧
    GetWorker "w-2" p2 = inr "worker not found: w-2".
Proof.
  destruct register_and_unregister_worker as (_ & _ & Hround).
  apply (Hround "w-2" "10.0.0.7" 8%Z 1024%Z 100%Z 101%Z "test-host" 8080%Z
           (NewPool database.sqlite_empty)).
  reflexivity.
Defined.

(** ** [GetPoolStats] *)

Lemma count_worker_fields w st :
  let st' := count_worker w st in
  total_workers st' = total_workers st ∧
  online_workers st' =
    (online_workers st + if decide (WStatus w = WorkerStatusOnline) then 1 else 0)%Z ∧
  offline_workers st' =
    (offline_workers st + if decide (WStatus w = WorkerStatusOffline) then 1 else 0)%Z ∧
  busy_workers st' =
    (busy_workers st + if decide (WStatus w = WorkerStatusBusy) then 1 else 0)%Z ∧
  total_cpu_cores st' = (total_cpu_cores st + CPUCores w)%Z ∧
  total_memory_mb st' = (total_memory_mb st + MemoryMB w)%Z.
Proof.
  unfold count_worker.
  destruct (decide (WStatus w = WorkerStatusOnline)) as [Ho|Ho].
  { rewrite Ho. simpl. repeat split; lia. }
  destruct (decide (WStatus w = WorkerStatusOffline)) as [Hf|Hf].
  { rewrite Hf. simpl. repeat split; lia. }
  destruct (decide (WStatus w = WorkerStatusBusy)) as [Hb|Hb]; simpl; repeat split; lia.
Qed.

Lemma size_with_status_insert (m : gmap string Worker) id w status :
  m !! id = None →
  Z.of_nat (size (filter (λ kw : string * Worker, WStatus kw.2 = status) (<[id := w]> m)))
  = (Z.of_nat (size (filter (λ kw : string * Worker, WStatus kw.2 = status) m))
     + if decide (WStatus w = status) then 1 else 0)%Z.
Proof.
  intros Hid. rewrite map_filter_insert. simpl.
  destruct (decide (WStatus w = status)) as [Hs|Hs].
  - rewrite map_size_insert_None; [lia|].
    apply map_lookup_filter_None. by left.
  - rewrite delete_id by done. lia.
Qed.

Lemma stats_fold (m : gmap string Worker) st0 :
  let st := map_fold (λ _ worker stats, count_worker worker stats) st0 m in
  total_workers st = total_workers st0 ∧
  online_workers st =
    (online_workers st0
     + Z.of_nat (size (filter (λ kw, WStatus kw.2 = WorkerStatusOnline) m)))%Z ∧
  offline_workers st =
    (offline_workers st0
     + Z.of_nat (size (filter (λ kw, WStatus kw.2 = WorkerStatusOffline) m)))%Z ∧
  busy_workers st =
    (busy_workers st0
     + Z.of_nat (size (filter (λ kw, WStatus kw.2 = WorkerStatusBusy) m)))%Z ∧
  total_cpu_cores st =
    (total_cpu_cores st0 + foldr Z.add 0 (CPUCores <$> (map_to_list m).*2))%Z ∧
  total_memory_mb st =
    (total_memory_mb st0 + foldr Z.add 0 (MemoryMB <$> (map_to_list m).*2))%Z.
Proof.
  induction m as [|id w m Hid Hfirst IH] using map_first_key_ind.
  - cbv zeta. rewrite map_fold_empty, !map_filter_empty, map_size_empty, map_to_list_empty.
    simpl. repeat split; lia.
  - cbv zeta in *. rewrite map_fold_insert_first_key by done.
    rewrite map_to_list_insert_first_key by done. rewrite !fmap_cons. cbn [foldr snd].
    destruct (count_worker_fields w
                (map_fold (λ _ worker stats, count_worker worker stats) st0 m))
      as (Ht & Hon & Hoff & Hbusy & Hcpu & Hmem).
    destruct IH as (IHt & IHon & IHoff & IHbusy & IHcpu & IHmem).
    rewrite Ht, Hon, Hoff, Hbusy, Hcpu, Hmem, !size_with_status_insert by done.
    repeat split; lia.
Qed.

(** The statistics count what the cache holds: [total_workers] is the
    number of cached workers, the three status counters are the numbers of
    cached workers with that status, and the two totals are the sums of
    cores and memory over the cached workers, whatever order the iteration
    takes.  The three counters add up to at most the total, and to the
    total when every worker is online, offline or busy. *)
Theorem pool_stats_count_cached_workers :
  ∀ S (p : Pool S),
    let stats := GetPoolStats p in
    total_workers stats = Z.of_nat (size (workers p)) ∧
    online_workers stats = with_status WorkerStatusOnline p ∧
    offline_workers stats = with_status WorkerStatusOffline p ∧
    busy_workers stats = with_status WorkerStatusBusy p ∧
    total_cpu_cores stats = sum_over CPUCores p ∧
    total_memory_mb stats = sum_over MemoryMB p ∧
    (online_workers stats + offline_workers stats + busy_workers stats
       ≤ total_workers stats)%Z ∧
    (map_Forall (λ _ w, WStatus w ∈ [WorkerStatusOnline; WorkerStatusOffline; WorkerStatusBusy])
       (workers p) →
     (online_workers stats + offline_workers stats + busy_workers stats
        = total_workers stats)%Z).
Proof.
  intros S p. cbv zeta. unfold GetPoolStats, with_status, sum_over.
  destruct (stats_fold (workers p) (mkPoolStats (Z.of_nat (size (workers p))) 0 0 0 0 0))
    as (Ht & Hon & Hoff & Hbusy & Hcpu & Hmem). simpl in *.
  rewrite Ht, Hon, Hoff, Hbusy, Hcpu, Hmem.
  repeat split; try lia.
  - generalize (workers p). intros m.
    induction m as [|id w m Hid IH] using map_ind.
    + rewrite !map_filter_empty, map_size_empty. simpl. lia.
    + rewrite !size_with_status_insert by done. rewrite map_size_insert_None by done.
      repeat case_decide; unfold WorkerStatusOnline, WorkerStatusOffline, WorkerStatusBusy in *;
        try congruence; lia.
  - generalize (workers p). intros m.
    induction m as [|id w m Hid IH] using map_ind; intros Hall.
    + rewrite !map_filter_empty, map_size_empty. simpl. lia.
    + apply map_Forall_insert in Hall as [Hw Hall]; [|done]. specialize (IH Hall).
      rewrite !size_with_status_insert by done. rewrite map_size_insert_None by done.
      apply elem_of_cons in Hw as [Hw|Hw];
        [|apply elem_of_cons in Hw as [Hw|Hw];
          [|apply elem_of_cons in Hw as [Hw|Hw]; [|by apply elem_of_nil in Hw]]];
        rewrite Hw; repeat case_decide; try done; lia.
Qed.

Lemma pool_stats_count_cached_workers_witness :
  let p := mkPool database.sqlite_empty
             (<["w-1" := example_worker WorkerStatusOnline]>
              (<["w-2" := example_worker WorkerStatusOffline]> ∅)) 50 100 false in
  GetPoolStats p = mkPoolStats 2 1 1 0 8 1024 ∧
  (online_workers (GetPoolStats p) + offline_workers (GetPoolStats p)
     + busy_workers (GetPoolStats p) = total_workers (GetPoolStats p))%Z.
Proof.
  cbv zeta. split; [vm_compute; reflexivity|].
  destruct (pool_stats_count_cached_workers database.SQLiteStore
              (mkPool database.sqlite_empty
                 (<["w-1" := example_worker WorkerStatusOnline]>
                  (<["w-2" := example_worker WorkerStatusOffline]> ∅)) 50 100 false))
    as (_ & _ & _ & _ & _ & _ & _ & Heq).
  apply Heq. simpl.
  apply map_Forall_insert; [reflexivity|]. split; [left|].
  apply map_Forall_insert; [reflexivity|]. split; [right; left|].
  apply map_Forall_empty.
Defined.

End worker_props.

(* ===================================================================== *)
(** * Properties of the plugin registry *)
(* ===================================================================== *)

Module registry_props.
Import plugins plugin.

Lemma register_all_snoc regs x :
  register_all (regs ++ [x]) = (register (register_all regs) x).2.
Proof. unfold register_all. by rewrite foldl_app. Qed.

Lemma first_input_snoc name regs x :
  first_input name (regs ++ [x]) =
    match first_input name regs with
    | Some p => Some p
    | None => first_input name [x]
    end.
Proof.
  induction regs as [|[n p|n p|n p] regs IH]; simpl; try done.
  by case_decide.
Qed.

Lemma first_processor_snoc name regs x :
  first_processor name (regs ++ [x]) =
    match first_processor name regs with
    | Some p => Some p
    | None => first_processor name [x]
    end.
Proof.
  induction regs as [|[n p|n p|n p] regs IH]; simpl; try done.
  by case_decide.
Qed.

Lemma first_output_snoc name regs x :
  first_output name (regs ++ [x]) =
    match first_output name regs with
    | Some p => Some p
    | None => first_output name [x]
    end.
Proof.
  induction regs as [|[n p|n p|n p] regs IH]; simpl; try done.
  by case_decide.
Qed.

Lemma register_all_lookup regs name :
  inputs (register_all regs) !! name = first_input name regs ∧
  processors (register_all regs) !! name = first_processor name regs ∧
  outputs (register_all regs) !! name = first_output name regs.
Proof.
  induction regs as [|x regs IH] using rev_ind; [done|].
  destruct IH as (Hi & Hp & Ho).
  rewrite register_all_snoc, first_input_snoc, first_processor_snoc, first_output_snoc.
  rewrite <- Hi, <- Hp, <- Ho.
  destruct x as [n p|n p|n p]; simpl;
    unfold RegisterInput, RegisterProcessor, RegisterOutput.
  - destruct (inputs (register_all regs) !! n) as [p0|] eqn:Hn; simpl.
    + repeat split; try by repeat case_match.
      case_decide as Hd; [subst; by rewrite Hn | by case_match].
    + repeat split; try by repeat case_match.
      case_decide as Hd; [subst; by rewrite Hn, lookup_insert_eq|].
      rewrite lookup_insert_ne by done. by case_match.
  - destruct (processors (register_all regs) !! n) as [p0|] eqn:Hn; simpl.
    + repeat split; try by repeat case_match.
      case_decide as Hd; [subst; by rewrite Hn | by case_match].
    + repeat split; try by repeat case_match.
      case_decide as Hd; [subst; by rewrite Hn, lookup_insert_eq|].
      rewrite lookup_insert_ne by done. by case_match.
  - destruct (outputs (register_all regs) !! n) as [p0|] eqn:Hn; simpl.
    + repeat split; try by repeat case_match.
      case_decide as Hd; [subst; by rewrite Hn | by case_match].
    + repeat split; try by repeat case_match.
      case_decide as Hd; [subst; by rewrite Hn, lookup_insert_eq|].
      rewrite lookup_insert_ne by done. by case_match.
Qed.

Lemma elem_of_keys {A} (m : gmap string A) name :
  name ∈ (map_to_list m).*1 ↔ is_Some (m !! name).
Proof.
  rewrite list_elem_of_fmap. split.
  - intros ([n x] & -> & Hin). apply elem_of_map_to_list in Hin. eauto.
  - intros [x Hx]. exists (name, x). split; [done|]. by apply elem_of_map_to_list.
Qed.

(** The registry keeps the first plugin registered under a name and kind:
    after any run of registrations, a lookup returns the first plugin of
    that kind offered under the name, later offers having been refused, and
    fails with not-found when there was none.  The three kinds are separate
    name spaces, and each listing holds every registered name once. *)
Theorem registry_keeps_first_registration regs name :
  GetInput name (register_all regs) =
    match first_input name regs with
    | Some p => inl p
    | None => inr (ErrInputNotFound name)
    end ∧
  GetProcessor name (register_all regs) =
    match first_processor name regs with
    | Some p => inl p
    | None => inr (ErrProcessorNotFound name)
    end ∧
  GetOutput name (register_all regs) =
    match first_output name regs with
    | Some p => inl p
    | None => inr (ErrOutputNotFound name)
    end ∧
  NoDup (ListInputs (register_all regs)) ∧
  NoDup (ListProcessors (register_all regs)) ∧
  NoDup (ListOutputs (register_all regs)) ∧
  (name ∈ ListInputs (register_all regs) ↔ is_Some (first_input name regs)) ∧
  (name ∈ ListProcessors (register_all regs) ↔ is_Some (first_processor name regs)) ∧
  (name ∈ ListOutputs (register_all regs) ↔ is_Some (first_output name regs)).
Proof.
  destruct (register_all_lookup regs name) as (Hi & Hp & Ho).
  unfold GetInput, GetProcessor, GetOutput, ListInputs, ListProcessors, ListOutputs.
  rewrite !elem_of_keys, Hi, Hp, Ho.
  repeat split; try done; try apply NoDup_fst_map_to_list; by intros ?.
Qed.

End registry_props.

(* ===================================================================== *)
(** * Properties of the configuration converter *)
(* ===================================================================== *)

Module config_props.
Import types plugins config.

Lemma ValidateConfig_accepts c cfg :
  ValidateConfig c cfg = None ↔
  InputType (Input cfg) ≠ "" ∧ OutputType (Output cfg) ≠ "".
Proof.
  unfold ValidateConfig.
  destruct (decide (InputType (Input cfg) = "")) as [Hi|Hi];
    [|destruct (decide (OutputType (Output cfg) = "")) as [Ho|Ho]];
    (split; [intros Hv | intros [Hi' Ho']]); done.
Qed.

Lemma build_processors_unregistered c procs i pc :
  pc ∈ procs → plugin.processors (registry c) !! ProcessorType pc = None →
  ∃ e, (build_processors c procs i).1 = inr e.
Proof.
  intros Hin Hnone. revert i. induction procs as [|q rest IH]; intros i.
  - by apply elem_of_nil in Hin.
  - simpl. unfold plugin.GetProcessor.
    destruct (plugin.processors (registry c) !! ProcessorType q) as [proc|] eqn:Hq;
      [|eauto].
    destruct (Initialize (proc_plugin proc) (ProcessorCfg q)); [eauto|].
    apply elem_of_cons in Hin as [->|Hin]; [congruence|].
    destruct (IH Hin (S i)) as [e He].
    destruct (build_processors c rest (S i)) as [[ps|e'] calls]; simpl in *; eauto; congruence.
Qed.

Lemma build_processors_no_validate c procs i :
  forallb (λ k, negb (is_validate k)) (build_processors c procs i).2 = true.
Proof.
  revert i. induction procs as [|q rest IH]; intros i; simpl; [done|].
  destruct (plugin.GetProcessor (ProcessorType q) (registry c)) as [proc|]; [|done].
  destruct (Initialize (proc_plugin proc) (ProcessorCfg q)); [done|].
  specialize (IH (S i)).
  by destruct (build_processors c rest (S i)) as [[ps|e'] calls].
Qed.

Lemma build_stages_unregistered c cfg pc :
  pc ∈ Processors cfg → plugin.processors (registry c) !! ProcessorType pc = None →
  ∃ e, (build_stages c cfg).1 = inr e.
Proof.
  intros Hin Hnone. unfold build_stages.
  destruct (plugin.GetInput _ _) as [inp|]; [|eauto].
  destruct (Initialize (in_plugin inp) _); [eauto|].
  destruct (build_processors_unregistered c (Processors cfg) 0 pc Hin Hnone) as [e He].
  destruct (build_processors c (Processors cfg) 0) as [[ps|e'] calls]; simpl in *; eauto.
  congruence.
Qed.

Lemma build_stages_no_validate c cfg :
  forallb (λ k, negb (is_validate k)) (build_stages c cfg).2 = true.
Proof.
  unfold build_stages.
  destruct (plugin.GetInput _ _) as [inp|]; [|done].
  destruct (Initialize (in_plugin inp) _); [done|].
  pose proof (build_processors_no_validate c (Processors cfg) 0) as Hp.
  destruct (build_processors c (Processors cfg) 0) as [[ps|e'] calls]; simpl in *; [|done].
  destruct (plugin.GetOutput _ _) as [out|]; [|done].
  destruct (Initialize (out_plugin out) _); simpl;
    rewrite forallb_app, Hp; done.
Qed.

Lemma build_stages_input_first c cfg inp :
  plugin.inputs (registry c) !! InputType (Input cfg) = Some inp →
  ∃ calls, (build_stages c cfg).2
           = CallInitialize (Name (in_plugin inp)) (InputCfg (Input cfg)) :: calls.
Proof.
  intros Hin. unfold build_stages, plugin.GetInput. rewrite Hin.
  destruct (Initialize (in_plugin inp) _); [eauto|].
  destruct (build_processors c (Processors cfg) 0) as [[ps|e'] calls]; [|eauto].
  destruct (plugin.GetOutput _ _) as [out|]; [|eauto].
  destruct (Initialize (out_plugin out) _); eauto.
Qed.

(** C2, as the code has it.  [ValidateConfig], and [ParseYAML] once the text
    has parsed, reject a spec exactly when the input type or the output type
    is empty.  A spec naming a processor type that is not registered is
    rejected by both builders; by then the input plugin, when registered,
    has been initialised.  The builders never call a plugin's [Validate]. *)
Theorem validation_checks_input_and_output_only :
  (∀ c cfg, ValidateConfig c cfg = None ↔
            InputType (Input cfg) ≠ "" ∧ OutputType (Output cfg) ≠ "") ∧
  (∀ yaml c text cfg, yaml text = inl cfg →
     ParseYAML yaml c text = match ValidateConfig c cfg with
                             | Some e => inr e
                             | None => inl cfg
                             end) ∧
  (∀ c cfg pc,
     pc ∈ Processors cfg → plugin.processors (registry c) !! ProcessorType pc = None →
     (∃ e, (BuildPipeline c cfg).1 = inr e) ∧
     (∃ e, (BuildConcurrentPipeline c cfg).1 = inr e)) ∧
  (∀ c cfg inp,
     plugin.inputs (registry c) !! InputType (Input cfg) = Some inp →
     ∃ calls,
       (BuildPipeline c cfg).2
         = CallInitialize (Name (in_plugin inp)) (InputCfg (Input cfg)) :: calls ∧
       (BuildConcurrentPipeline c cfg).2
         = CallInitialize (Name (in_plugin inp)) (InputCfg (Input cfg)) :: calls) ∧
  (∀ c cfg,
     forallb (λ k, negb (is_validate k)) (BuildPipeline c cfg).2 = true ∧
     forallb (λ k, negb (is_validate k)) (BuildConcurrentPipeline c cfg).2 = true).
Proof.
  split; [exact ValidateConfig_accepts|].
  split.
  { intros yaml c text cfg Hy. unfold ParseYAML. by rewrite Hy. }
  split.
  { intros c cfg pc Hin Hnone.
    destruct (build_stages_unregistered c cfg pc Hin Hnone) as [e He].
    unfold BuildPipeline, BuildConcurrentPipeline.
    destruct (build_stages c cfg) as [[[[i ps] o]|e'] calls]; simpl in *; [done|eauto]. }
  split.
  { intros c cfg inp Hin.
    destruct (build_stages_input_first c cfg inp Hin) as [calls Hc].
    exists calls. unfold BuildPipeline, BuildConcurrentPipeline.
    destruct (build_stages c cfg) as [[[[i ps] o]|e'] calls']; simpl in *; done. }
  intros c cfg. pose proof (build_stages_no_validate c cfg) as Hv.
  unfold BuildPipeline, BuildConcurrentPipeline.
  destruct (build_stages c cfg) as [[[[i ps] o]|e'] calls']; simpl in *; done.
Qed.

Lemma validation_checks_input_and_output_only_witness :
  ValidateConfig (NewConverter example_registry) spec_unregistered = None ∧
  ParseYAML yaml_example (NewConverter example_registry)
    "input: {type: csv}
processors: [{type: ''}]
output: {type: csv}" = inl spec_empty_type ∧
  (∃ e, (BuildPipeline (NewConverter example_registry) spec_unregistered).1 = inr e) ∧
  (∃ calls, (BuildPipeline (NewConverter example_registry) spec_unregistered).2
            = CallInitialize "csv" ∅ :: calls).
Proof.
  destruct validation_checks_input_and_output_only as (Hval & Hparse & Hrej & Hinit & _).
  split; [apply Hval; split; discriminate|].
  split.
  - rewrite (Hparse yaml_example (NewConverter example_registry)
               "input: {type: csv}
processors: [{type: ''}]
output: {type: csv}" spec_empty_type eq_refl).
    reflexivity.
  - split.
    + apply (Hrej (NewConverter example_registry) spec_unregistered
               (mkProcessorConfig "dedupe" ∅)); [left | reflexivity].
    + destruct (Hinit (NewConverter example_registry) spec_unregistered csv_input eq_refl)
        as (calls & Hc & _).
      exists calls. exact Hc.
Defined.

(** C2 as stated fails: validation accepts a spec whose processor type is
    empty, one whose processor type is not registered, and one whose
    filter's own [Validate] refuses the configuration; the first two are
    refused only by the builder, after it has initialised the input plugin,
    and the third is built. *)
Lemma validation_accepts_bad_processors :
  let c := NewConverter example_registry in
  ValidateConfig c spec_empty_type = None ∧
  ValidateConfig c spec_unregistered = None ∧
  ValidateConfig c spec_invalid_filter = None ∧
  ParseYAML yaml_example c "input: {type: csv}
processors: [{type: ''}]
output: {type: csv}" = inl spec_empty_type ∧
  BuildPipeline c spec_empty_type
    = (inr (ErrGetProcessorPlugin "" (plugin.ErrProcessorNotFound "")),
       [CallInitialize "csv" ∅]) ∧
  Validate (proc_plugin filter_processor) ∅ = Some "condition is required" ∧
  (BuildPipeline c spec_invalid_filter).1
    = inl (pipeline.mkPipeline csv_input [filter_processor] csv_output 1000).
Proof. vm_compute. repeat split; reflexivity. Qed.

(** ** What the builders build *)

Lemma build_processors_inl c procs i ps calls :
  build_processors c procs i = (inl ps, calls) ↔
  Forall2 (λ pc proc,
             plugin.GetProcessor (ProcessorType pc) (registry c) = inl proc ∧
             Initialize (proc_plugin proc) (ProcessorCfg pc) = None) procs ps ∧
  calls = zip_with (λ pc proc, CallInitialize (Name (proc_plugin proc)) (ProcessorCfg pc))
            procs ps.
Proof.
  revert i ps calls. induction procs as [|pc rest IH]; intros i ps calls; simpl.
  - split.
    + intros [= <- <-]. split; [constructor | done].
    + intros [Hf ->]. by apply Forall2_nil_inv_l in Hf as ->.
  - destruct (plugin.GetProcessor (ProcessorType pc) (registry c)) as [proc|e] eqn:Hget.
    + destruct (Initialize (proc_plugin proc) (ProcessorCfg pc)) as [msg|] eqn:Hinit.
      * split; [done|]. intros [Hf _].
        apply Forall2_cons_inv_l in Hf as (proc' & ps' & [Hg Hi] & _ & ->). congruence.
      * specialize (IH (S i)).
        destruct (build_processors c rest (S i)) as [[ps'|e] calls'].
        -- split.
           ++ intros [= <- <-]. destruct (proj1 (IH ps' calls') eq_refl) as [Hf ->].
              split; [by constructor | done].
           ++ intros [Hf ->].
              apply Forall2_cons_inv_l in Hf as (proc' & ps2 & [Hg Hi] & Hf & ->).
              assert (proc' = proc) as -> by congruence. simpl.
              assert ((inl ps' : list ProcessorPlugin + error, calls') = (inl ps2, zip_with
                        (λ pc proc, CallInitialize (Name (proc_plugin proc)) (ProcessorCfg pc))
                        rest ps2)) as [= -> ->]; [|done].
              by apply IH.
        -- split; [done|]. intros [Hf ->].
           apply Forall2_cons_inv_l in Hf as (proc' & ps2 & _ & Hf & ->).
           assert ((inr e : list ProcessorPlugin + error, calls') = (inl ps2, zip_with
                     (λ pc proc, CallInitialize (Name (proc_plugin proc)) (ProcessorCfg pc))
                     rest ps2)) as [=]. by apply IH.
    + split; [done|]. intros [Hf _].
      apply Forall2_cons_inv_l in Hf as (proc' & ps' & [Hg Hi] & _ & ->). congruence.
Qed.

Lemma build_stages_inl c cfg input ps output calls :
  build_stages c cfg = (inl (input, ps, output), calls) ↔
  plugin.GetInput (InputType (Input cfg)) (registry c) = inl input ∧
  Initialize (in_plugin input) (InputCfg (Input cfg)) = None ∧
  Forall2 (λ pc proc,
             plugin.GetProcessor (ProcessorType pc) (registry c) = inl proc ∧
             Initialize (proc_plugin proc) (ProcessorCfg pc) = None) (Processors cfg) ps ∧
  plugin.GetOutput (OutputType (Output cfg)) (registry c) = inl output ∧
  Initialize (out_plugin output) (OutputCfg (Output cfg)) = None ∧
  calls = CallInitialize (Name (in_plugin input)) (InputCfg (Input cfg))
            :: zip_with (λ pc proc, CallInitialize (Name (proc_plugin proc)) (ProcessorCfg pc))
                 (Processors cfg) ps
            ++ [CallInitialize (Name (out_plugin output)) (OutputCfg (Output cfg))].
Proof.
  unfold build_stages.
  destruct (plugin.GetInput (InputType (Input cfg)) (registry c)) as [inp|e] eqn:Hin;
    [|split; [done | by intros (? & _)]].
  destruct (Initialize (in_plugin inp) (InputCfg (Input cfg))) as [msg|] eqn:Hii.
  { split; [done|]. intros ([= <-] & ? & _). congruence. }
  pose proof (build_processors_inl c (Processors cfg) 0) as Hps.
  destruct (build_processors c (Processors cfg) 0) as [[ps'|e] calls'].
  - destruct (proj1 (Hps ps' calls') eq_refl) as [Hf ->].
    destruct (plugin.GetOutput (OutputType (Output cfg)) (registry c)) as [out|e] eqn:Hout.
    + destruct (Initialize (out_plugin out) (OutputCfg (Output cfg))) as [msg|] eqn:Hoi.
      * split; [done|]. intros (_ & _ & _ & [= <-] & ? & _). congruence.
      * split.
        -- by intros [= <- <- <- <-].
        -- intros ([= <-] & _ & Hf2 & [= <-] & _ & ->).
           assert ((inl ps' : list ProcessorPlugin + error, zip_with
                      (λ pc proc, CallInitialize (Name (proc_plugin proc)) (ProcessorCfg pc))
                      (Processors cfg) ps') = (inl ps, zip_with
                      (λ pc proc, CallInitialize (Name (proc_plugin proc)) (ProcessorCfg pc))
                      (Processors cfg) ps)) as [= ->]; [|done].
           by apply Hps.
    + split; [done|]. by intros (_ & _ & _ & ? & _).
  - split; [done|]. intros (_ & _ & Hf & _).
    assert ((inr e : list ProcessorPlugin + error, calls') = (inl ps, zip_with
              (λ pc proc, CallInitialize (Name (proc_plugin proc)) (ProcessorCfg pc))
              (Processors cfg) ps)) as [=]. by apply Hps.
Qed.

(** The two builders succeed exactly when the registry has the input and
    the output plugin and a processor plugin for every configured entry,
    and each accepts its configuration in [Initialize].  The pipeline then
    holds the registry's plugins, the processors one for each entry in the
    order of the configuration, and the batch size of the settings when it
    is positive, else the default 1000; the concurrent pipeline gets the
    default buffer sizes 10, 10 and 5, the threshold 0.8 and no checkpoint
    manager.  The plugins have been initialised once each, input first, then
    the processors in order, then the output. *)
Theorem builders_assemble_configured_plugins c cfg :
  let built input ps output :=
    plugin.GetInput (InputType (Input cfg)) (registry c) = inl input ∧
    Initialize (in_plugin input) (InputCfg (Input cfg)) = None ∧
    Forall2 (λ pc proc,
               plugin.GetProcessor (ProcessorType pc) (registry c) = inl proc ∧
               Initialize (proc_plugin proc) (ProcessorCfg pc) = None) (Processors cfg) ps ∧
    plugin.GetOutput (OutputType (Output cfg)) (registry c) = inl output ∧
    Initialize (out_plugin output) (OutputCfg (Output cfg)) = None in
  let calls input ps output :=
    CallInitialize (Name (in_plugin input)) (InputCfg (Input cfg))
      :: zip_with (λ pc proc, CallInitialize (Name (proc_plugin proc)) (ProcessorCfg pc))
           (Processors cfg) ps
      ++ [CallInitialize (Name (out_plugin output)) (OutputCfg (Output cfg))] in
  let size := if (0 <? BatchSize (Settings cfg))%Z then BatchSize (Settings cfg) else 1000 in
  (∀ p, (BuildPipeline c cfg).1 = inl p ↔
     ∃ input ps output, built input ps output ∧
       p = pipeline.mkPipeline input ps output size) ∧
  (∀ p, (BuildConcurrentPipeline c cfg).1 = inl p ↔
     ∃ input ps output, built input ps output ∧
       p = pipeline.mkConcurrent input ps output size 10 10 5 (8 # 10) false) ∧
  (∀ input ps output, built input ps output →
     (BuildPipeline c cfg).2 = calls input ps output ∧
     (BuildConcurrentPipeline c cfg).2 = calls input ps output).
Proof.
  cbv zeta.
  unfold BuildPipeline, BuildConcurrentPipeline.
  destruct (build_stages c cfg) as [[[[input ps] output]|e] calls] eqn:Hb;
    pose proof (build_stages_inl c cfg) as Hst.
  - destruct (proj1 (Hst input ps output calls) Hb) as (Hi & Hii & Hf & Ho & Hoi & ->).
    assert (∀ input' ps' output',
              plugin.GetInput (InputType (Input cfg)) (registry c) = inl input' ∧
              Initialize (in_plugin input') (InputCfg (Input cfg)) = None ∧
              Forall2 (λ pc proc,
                 plugin.GetProcessor (ProcessorType pc) (registry c) = inl proc ∧
                 Initialize (proc_plugin proc) (ProcessorCfg pc) = None) (Processors cfg) ps' ∧
              plugin.GetOutput (OutputType (Output cfg)) (registry c) = inl output' ∧
              Initialize (out_plugin output') (OutputCfg (Output cfg)) = None →
              input' = input ∧ ps' = ps ∧ output' = output) as Huniq.
    { intros input' ps' output' (Hi' & Hii' & Hf' & Ho' & Hoi').
      assert (build_stages c cfg = (inl (input', ps', output'),
                CallInitialize (Name (in_plugin input')) (InputCfg (Input cfg))
                  :: zip_with (λ pc proc, CallInitialize (Name (proc_plugin proc)) (ProcessorCfg pc))
                       (Processors cfg) ps'
                  ++ [CallInitialize (Name (out_plugin output')) (OutputCfg (Output cfg))])) as Hb'.
      { by apply Hst. }
      rewrite Hb in Hb'. by injection Hb' as -> -> ->. }
    split; [|split].
    + intros p. simpl. split.
      * intros [= <-]. exists input, ps, output. split; [done|].
        unfold pipeline.NewPipeline, pipeline.SetBatchSize. by case_match.
      * intros (input' & ps' & output' & Hbuilt & ->).
        destruct (Huniq _ _ _ Hbuilt) as (-> & -> & ->).
        unfold pipeline.NewPipeline, pipeline.SetBatchSize. by case_match.
    + intros p. simpl. split.
      * intros [= <-]. exists input, ps, output. split; [done|].
        unfold pipeline.NewConcurrentPipeline. by case_match.
      * intros (input' & ps' & output' & Hbuilt & ->).
        destruct (Huniq _ _ _ Hbuilt) as (-> & -> & ->).
        unfold pipeline.NewConcurrentPipeline. by case_match.
    + intros input' ps' output' Hbuilt.
      by destruct (Huniq _ _ _ Hbuilt) as (-> & -> & ->).
  - assert (∀ input ps output,
              ¬ (plugin.GetInput (InputType (Input cfg)) (registry c) = inl input ∧
                 Initialize (in_plugin input) (InputCfg (Input cfg)) = None ∧
                 Forall2 (λ pc proc,
                    plugin.GetProcessor (ProcessorType pc) (registry c) = inl proc ∧
                    Initialize (proc_plugin proc) (ProcessorCfg pc) = None) (Processors cfg) ps ∧
                 plugin.GetOutput (OutputType (Output cfg)) (registry c) = inl output ∧
                 Initialize (out_plugin output) (OutputCfg (Output cfg)) = None)) as Hno.
    { intros input ps output (Hi & Hii & Hf & Ho & Hoi).
      assert (build_stages c cfg = (inl (input, ps, output),
                CallInitialize (Name (in_plugin input)) (InputCfg (Input cfg))
                  :: zip_with (λ pc proc, CallInitialize (Name (proc_plugin proc)) (ProcessorCfg pc))
                       (Processors cfg) ps
                  ++ [CallInitialize (Name (out_plugin output)) (OutputCfg (Output cfg))])) as Hb'.
      { by apply Hst. }
      by rewrite Hb in Hb'. }
    split; [|split].
    + intros p. simpl. split; [done|]. intros (input & ps & output & Hbuilt & _).
      by destruct (Hno _ _ _ Hbuilt).
    + intros p. simpl. split; [done|]. intros (input & ps & output & Hbuilt & _).
      by destruct (Hno _ _ _ Hbuilt).
    + intros input ps output Hbuilt. by destruct (Hno _ _ _ Hbuilt).
Qed.

Lemma builders_assemble_configured_plugins_witness :
  (BuildPipeline (NewConverter example_registry)
     (spec_with [mkProcessorConfig "filter" ∅; mkProcessorConfig "filter" ∅])).1
    = inl (pipeline.mkPipeline csv_input [filter_processor; filter_processor] csv_output 1000) ∧
  (BuildConcurrentPipeline (NewConverter example_registry)
     (spec_with [mkProcessorConfig "filter" ∅; mkProcessorConfig "filter" ∅])).2
    = [CallInitialize "csv" ∅; CallInitialize "filter" ∅; CallInitialize "filter" ∅;
       CallInitialize "csv" ∅].
Proof.
  destruct (builders_assemble_configured_plugins (NewConverter example_registry)
              (spec_with [mkProcessorConfig "filter" ∅; mkProcessorConfig "filter" ∅]))
    as (Hp & _ & Hcalls).
  assert (plugin.GetInput "csv" example_registry = inl csv_input ∧
          Initialize (in_plugin csv_input) ∅ = None ∧
          Forall2 (λ pc proc,
             plugin.GetProcessor (ProcessorType pc) example_registry = inl proc ∧
             Initialize (proc_plugin proc) (ProcessorCfg pc) = None)
            [mkProcessorConfig "filter" ∅; mkProcessorConfig "filter" ∅]
            [filter_processor; filter_processor] ∧
          plugin.GetOutput "csv" example_registry = inl csv_output ∧
          Initialize (out_plugin csv_output) ∅ = None) as Hbuilt.
  { repeat split; repeat constructor. }
  split.
  - apply Hp. exists csv_input, [filter_processor; filter_processor], csv_output.
    split; [exact Hbuilt | reflexivity].
  - apply (Hcalls csv_input [filter_processor; filter_processor] csv_output Hbuilt).
Defined.

End config_props.

(* ===================================================================== *)
(** * Properties of the concurrent pipeline *)
(* ===================================================================== *)

Module pipeline_props.
Import types plugins pipeline.

(** Case analysis on the scrutinees of an unfolded [fire]. *)
Ltac fire_cases H :=
  repeat match type of H with
         | context [match ?x with _ => _ end] => destruct x eqn:?
         | context [if ?x then _ else _] => destruct x eqn:?
         end;
  try discriminate H; try (injection H as H; subst);
  try match goal with
      | Hb : isBackpressure _ (SendOnlyChan _) _ = true |- _ => by simpl in Hb
      end.

Lemma isBackpressure_send_only p length capacity :
  isBackpressure p (SendOnlyChan length) capacity = false.
Proof. reflexivity. Qed.

Lemma count_app f l1 l2 : count f (l1 ++ l2) = (count f l1 + count f l2)%nat.
Proof. unfold count. by rewrite List.filter_app, length_app. Qed.

(** No action of a run sleeps. *)
Lemma fire_no_sleep p a s s' :
  fire p a s = Some s' → count is_sleep (trace s') = count is_sleep (trace s).
Proof.
  intros H.
  destruct a; simpl in H;
    unfold fire_reader, fire_proc, fire_writer, fire_main in H;
    rewrite ?isBackpressure_send_only in H;
    fire_cases H; simpl; unfold save_checkpoint;
    repeat match goal with
           | |- context [match ?x with _ => _ end] => destruct x
           | |- context [if ?x then _ else _] => destruct x
           end;
    simpl; rewrite ?count_app; unfold count; simpl; lia.
Qed.

Lemma start_no_sleep p cancelled : count is_sleep (trace (start p cancelled)) = 0%nat.
Proof.
  unfold start. destruct (in_Connect (input p)); [done|].
  by destruct (out_Connect (output p)).
Qed.

Lemma run_no_sleep p schedule s s' :
  run p schedule s = Some s' → count is_sleep (trace s') = count is_sleep (trace s).
Proof.
  revert s. induction schedule as [|a rest IH]; intros s; simpl.
  - by intros [= ->].
  - destruct (fire p a s) as [s1|] eqn:Hf; [|done].
    intros Hr. rewrite (IH _ Hr). by eapply fire_no_sleep.
Qed.

(** C1, what the code does.  The stages hand [isBackpressure] their
    send-only outbound channel, for which it answers false whatever the
    occupancy: no run ever sleeps.  With a buffer of one slot and a
    threshold of 0.5, once the slot is taken (occupancy 1/1) the reader is
    not held back: it cannot sleep and reads the next batch. *)
Theorem backpressure_never_detected_by_stages :
  (∀ p length capacity, isBackpressure p (SendOnlyChan length) capacity = false) ∧
  (∀ p schedule cancelled,
     match run p schedule (start p cancelled) with
     | Some s => count is_sleep (trace s) = 0%nat
     | None => True
     end) ∧
  (∃ s c,
     run backpressure_pipeline [AReaderRead; AReaderSend] (start backpressure_pipeline false)
       = Some s ∧
     chans s !! 0%nat = Some c ∧ len c = 1 ∧ cap c = 1 ∧
     Qle_bool (backpressureThreshold backpressure_pipeline)
       (inject_Z (len c) / inject_Z (cap c)) = true ∧
     isBackpressure backpressure_pipeline (BidirectionalChan (len c)) (cap c) = true ∧
     fire backpressure_pipeline AReaderSleep s = None ∧
     is_Some (fire backpressure_pipeline AReaderRead s)).
Proof.
  split; [exact isBackpressure_send_only|].
  split.
  - intros p schedule cancelled.
    destruct (run p schedule (start p cancelled)) as [s|] eqn:Hr; [|done].
    rewrite (run_no_sleep _ _ _ _ Hr). apply start_no_sleep.
  - eexists _, _. split; [vm_compute; reflexivity|].
    split; [reflexivity|].
    repeat split; try (vm_compute; reflexivity).
    vm_compute. eauto.
Qed.

(** C6, what the code does.  A [select] whose [done] case and
    [ctx.Done()] case are both ready may take either.  (1) The context is
    cancelled before [Execute] is called: the stages return at once, the
    waiter closes [done], and [Execute] takes the [done] case, flushes and
    returns nil.  (2) The caller cancels after the last stage has finished
    and before [Execute] has looked: the same.  (3) The input fails and the
    caller cancels: [Execute] takes the error case and returns the stage
    failure.  In each run the context is cancelled before [Execute]
    returns. *)
Theorem cancelled_run_may_flush_and_succeed :
  (∃ s, run empty_pipeline [AReaderCancel; AWriterCancel; AWaiter; AMainDone]
          (start empty_pipeline true) = Some s ∧
        ctx_cancelled s = true ∧ main s = MReturned None ∧
        count is_flush (trace s) = 1%nat) ∧
  (∃ s, run filter_pipeline
          [AReaderRead; AReaderSend; AProcRecv 0; AReaderRead; AReaderSend; AProcRecv 0;
           AReaderRead; AProcClosed 0; AWriterClosed; AWaiter; ACancel; AMainDone]
          (start filter_pipeline false) = Some s ∧
        ctx_cancelled s = true ∧ main s = MReturned None ∧
        count is_flush (trace s) = 1%nat) ∧
  (∃ s, run failing_pipeline
          [AReaderRead; AReaderError; ACancel; AMainError; AWriterCancel; AMainJoin]
          (start failing_pipeline false) = Some s ∧
        ctx_cancelled s = true ∧
        main s = MReturned (Some (ErrPipeline (ErrReadBatch "connection reset")))).
Proof.
  split; [|split]; eexists; (split; [vm_compute; reflexivity|]); repeat split.
Qed.


(** ** Runs in which every batch is filtered out *)

Section Filter.
Variable p : ConcurrentPipeline.
Hypothesis Hflush : Flush (output p) = None.

Lemma all_done_reader s : all_done s = true → reader_done (reader s) = true.
Proof. unfold all_done. intros H. by repeat (apply andb_prop in H as [H ?]). Qed.

Lemma all_done_writer s : all_done s = true → writer_done (writer s) = true.
Proof. unfold all_done. intros H. by apply andb_prop in H as [_ ?]. Qed.

Lemma all_done_proc s i st :
  all_done s = true → procs s !! i = Some st → proc_done st = true.
Proof.
  unfold all_done. intros H Hi.
  apply andb_prop in H as [H _]. apply andb_prop in H as [_ H].
  rewrite forallb_forall in H. apply H. apply list_elem_of_In. by eapply list_elem_of_lookup_2.
Qed.

Lemma filtering_not_cancelled s : filtering p s → ctx_done s = true → all_done s = true.
Proof.
  intros Hinv. unfold ctx_done. rewrite (f_ctx _ _ Hinv). simpl. apply (f_cancel _ _ Hinv).
Qed.

Lemma filtered_by_step chain i processor batch :
  chain !! i = Some processor →
  filtered_by (drop i chain) batch = true →
  ∃ processed, Process processor batch = inl processed ∧
    (IsEmpty processed = false → filtered_by (drop (S i) chain) processed = true).
Proof.
  intros Hi. rewrite (drop_S _ _ _ Hi). simpl.
  destruct (Process processor batch) as [processed|msg]; [|done].
  intros H. exists processed. split; [done|]. intros He. by rewrite He in H.
Qed.

Lemma filtered_by_end chain batch : filtered_by (drop (length chain) chain) batch = false.
Proof. by rewrite drop_all. Qed.

Ltac absurd_case Hinv :=
  match goal with
  | Hc : ctx_done ?s = true, Hr : reader ?s = _ |- _ =>
      apply (filtering_not_cancelled _ Hinv), all_done_reader in Hc; rewrite Hr in Hc;
      discriminate Hc
  | Hc : ctx_done ?s = true, Hr : procs ?s !! _ = Some _ |- _ =>
      apply (filtering_not_cancelled _ Hinv) in Hc;
      apply (all_done_proc _ _ _ Hc) in Hr; discriminate Hr
  | Hc : ctx_done ?s = true, Hr : writer ?s = _ |- _ =>
      apply (filtering_not_cancelled _ Hinv), all_done_writer in Hc; rewrite Hr in Hc;
      discriminate Hc
  | Hr : reader ?s = RError _ |- _ =>
      pose proof (f_reader _ _ Hinv) as Hbad; rewrite Hr in Hbad; destruct Hbad
  | Hr : procs ?s !! _ = Some (PError _) |- _ =>
      destruct (f_procs _ _ Hinv _ _ Hr)
  | Hr : writer ?s = WError _ |- _ =>
      pose proof (f_writer _ _ Hinv) as Hbad; rewrite Hr in Hbad; destruct Hbad
  | Hr : errorChan ?s = _ :: _ |- _ =>
      rewrite (f_errors _ _ Hinv) in Hr; discriminate Hr
  | Hr : ctx_cancelled ?s = true |- _ =>
      rewrite (f_ctx _ _ Hinv) in Hr; discriminate Hr
  | Hr : main ?s = MJoin _ |- _ =>
      destruct (f_main _ _ Hinv) as [Hm|Hm]; rewrite Hm in Hr; discriminate Hr
  | Hr : reader ?s = RLoop, Hh : head (script ?s) = Some (ReadBatch_error _) |- _ =>
      pose proof (f_reader _ _ Hinv) as Hbad; rewrite Hr in Hbad;
      destruct (script s); [discriminate Hh|]; simpl in Hh; injection Hh as ->;
      destruct Hbad as [Hbad _]; discriminate Hbad
  | Hc : chans ?s !! ?i = Some ?c, Hb : buf ?c = ?d :: _, Hp : processors _ !! ?i = Some ?pr,
    He : Process ?pr ?d = inr _ |- _ =>
      destruct (f_chans _ _ Hinv _ _ Hc) as [Hbad _]; rewrite Hb in Hbad;
      apply Forall_cons in Hbad as [Hbad _];
      destruct (filtered_by_step _ _ _ _ Hp Hbad) as (? & Hbad' & _); congruence
  | Hc : chans ?s !! length (processors _) = Some ?c, Hb : buf ?c = ?d :: _ |- _ =>
      destruct (f_chans _ _ Hinv _ _ Hc) as [Hbad _]; rewrite Hb in Hbad;
      apply Forall_cons in Hbad as [Hbad _];
      rewrite filtered_by_end in Hbad; discriminate Hbad
  | Hf : Some _ = None |- _ => discriminate Hf
  end.



Ltac by_old Hinv :=
  solve [ first
    [ exact (f_ctx _ _ Hinv) | exact (f_cancel _ _ Hinv) | exact (f_errors _ _ Hinv)
    | exact (f_main _ _ Hinv) | exact (f_reader _ _ Hinv) | exact (f_procs_len _ _ Hinv)
    | exact (f_chans_len _ _ Hinv) | exact (f_procs _ _ Hinv) | exact (f_chans _ _ Hinv)
    | exact (f_writer _ _ Hinv) | exact (f_writes _ _ Hinv) | exact (f_records _ _ Hinv)
    | exact (f_flush _ _ Hinv) | exact (f_closed0 _ _ Hinv) | exact (f_closedS _ _ Hinv)
    | exact (f_drained _ _ Hinv) | exact (f_drainedW _ _ Hinv) | exact (f_done _ _ Hinv)
    | exact (f_returned _ _ Hinv) ] ].

Ltac norm :=
  unfold reader_returns, proc_returns, close_chan, execute_returns, log in *; simpl in *.

(** A goroutine that has not returned contradicts [all_done]. *)
Ltac contra_done Hinv Hx :=
  first [apply (f_cancel _ _ Hinv) in Hx | apply (f_done _ _ Hinv) in Hx];
  match goal with
  | Hr : reader _ = _ |- _ => apply all_done_reader in Hx; rewrite Hr in Hx; discriminate Hx
  | Hr : procs _ !! _ = Some _ |- _ => apply (all_done_proc _ _ _ Hx) in Hr; discriminate Hr
  | Hr : writer _ = _ |- _ => apply all_done_writer in Hx; rewrite Hr in Hx; discriminate Hx
  end.

Lemma count_save_checkpoint f stage b :
  (∀ l, f (EvSaveCheckpoint stage l) = false) → count f (save_checkpoint p stage b) = 0%nat.
Proof.
  intros Hf. unfold save_checkpoint. destruct (checkpointManager p); [|done].
  destruct (BCheckpoint b); [|done]. unfold count. simpl. by rewrite Hf.
Qed.

Lemma lookup_alter_close (cs : list Chan) j k c :
  alter close j cs !! k = Some c →
  ∃ c0, cs !! k = Some c0 ∧ buf c = buf c0 ∧ cap c = cap c0 ∧
        (k = j → closed c = true) ∧ (k ≠ j → c = c0) ∧
        (closed c0 = true → closed c = true).
Proof.
  destruct (decide (k = j)) as [->|Hne].
  - rewrite list_lookup_alter_eq. destruct (cs !! j) as [c0|]; [|discriminate].
    intros [= <-]. exists c0. repeat split; done.
  - rewrite list_lookup_alter_ne by done. intros Hc. exists c. repeat split; done.
Qed.

Lemma chan_ok_same chain k (c c0 : Chan) :
  buf c = buf c0 → cap c = cap c0 → chan_ok chain k c0 → chan_ok chain k c.
Proof. unfold chan_ok. by intros -> ->. Qed.

(** The reader returns: [reader_returns] on a state that differs from [s]
    in its script and trace only. *)
Lemma filtering_reader_returns s script' evs :
  filtering p s → reader s = RLoop → count is_write evs = 0%nat → count is_flush evs = 0%nat →
  filtering p (reader_returns (log evs (set_script script' s))).
Proof.
  intros Hinv Hr Hw Hf.
  constructor; try by_old Hinv; norm; try done.
  - intros Hx. exfalso. contra_done Hinv Hx.
  - by rewrite length_alter, (f_chans_len _ _ Hinv).
  - intros k c (c0 & Hc0 & Hb & Hcap & _)%lookup_alter_close.
    eapply chan_ok_same; [done..|]. by eapply (f_chans _ _ Hinv).
  - by rewrite count_app, Hw, (f_writes _ _ Hinv).
  - by rewrite count_app, Hf, (f_flush _ _ Hinv), Nat.add_0_r.
  - intros c (c0 & Hc0 & _ & _ & Hcl & _)%lookup_alter_close. by apply Hcl.
  - intros i c st (c0 & Hc0 & _ & _ & _ & Hcl & _)%lookup_alter_close Hst.
    rewrite Hcl by done. by eapply (f_closedS _ _ Hinv).
  - intros i c Hst (c0 & Hc0 & Hb & _ & _ & _ & Hcl)%lookup_alter_close.
    destruct (f_drained _ _ Hinv _ _ Hst Hc0) as [Hbuf Hclosed].
    rewrite Hb. auto.
  - intros Hwd c (c0 & Hc0 & Hb & _ & _ & _ & Hcl)%lookup_alter_close.
    destruct (f_drainedW _ _ Hinv Hwd _ Hc0) as [Hbuf Hclosed].
    rewrite Hb. auto.
  - intros Hx. exfalso. contra_done Hinv Hx.
Qed.

Lemma lookup_insert_cases {A} (l : list A) j k x y :
  <[j:=x]> l !! k = Some y → (k = j ∧ y = x) ∨ (k ≠ j ∧ l !! k = Some y).
Proof.
  rewrite list_lookup_insert_Some. intros [(-> & -> & _)|[Hne Hy]]; [by left|].
  right. split; [congruence | done].
Qed.

Lemma chan_ok_send chain k c batch :
  chan_ok chain k c → filtered_by (drop k chain) batch = true →
  chan_ok chain k (send batch c).
Proof.
  intros [Hall Hcap] Hb. split; [|done]. simpl. apply Forall_app. split; [done|].
  by constructor.
Qed.

Lemma chan_ok_tail chain k c d l :
  chan_ok chain k c → buf c = d :: l → chan_ok chain k (set_buf l c).
Proof.
  intros [Hall Hcap] Hb. split; [|done]. simpl. rewrite Hb in Hall.
  by apply Forall_cons in Hall as [_ ?].
Qed.

(** The reader has read a batch to pass on. *)
Lemma filtering_reader_read s script' batch evs :
  filtering p s → reader s = RLoop →
  reader_ok (processors p) script' (RSend batch) →
  count is_write evs = 0%nat → count is_flush evs = 0%nat →
  filtering p (set_reader (RSend batch)
                 (log evs (log [EvReadBatch] (set_script script' s)))).
Proof.
  intros Hinv Hr Hok Hw Hf.
  constructor; try by_old Hinv; norm; try done.
  - intros Hx. exfalso. contra_done Hinv Hx.
  - by rewrite !count_app, Hw, (f_writes _ _ Hinv).
  - rewrite !count_app, Hf, (f_flush _ _ Hinv). unfold count. simpl. lia.
  - intros c Hc. rewrite (f_closed0 _ _ Hinv _ Hc), Hr. done.
  - intros Hx. exfalso. contra_done Hinv Hx.
Qed.

(** The reader has put its batch into the first channel. *)
Lemma filtering_reader_send s batch c v :
  filtering p s → reader s = RSend batch → chans s !! 0%nat = Some c →
  filtering p (set_totalBatches v
                 (set_reader RLoop (set_chans (<[0%nat:=send batch c]> (chans s)) s))).
Proof.
  intros Hinv Hr Hc.
  pose proof (f_reader _ _ Hinv) as Hok. rewrite Hr in Hok. destruct Hok as [Hok Hb].
  pose proof (f_closed0 _ _ Hinv _ Hc) as Hopen. rewrite Hr in Hopen. simpl in Hopen.
  constructor; try by_old Hinv; norm; try done.
  - intros Hx. exfalso. contra_done Hinv Hx.
  - by rewrite length_insert, (f_chans_len _ _ Hinv).
  - intros k c' [[-> ->]|[Hne Hc']]%lookup_insert_cases.
    + apply chan_ok_send; [by eapply (f_chans _ _ Hinv) | done].
    + by eapply (f_chans _ _ Hinv).
  - intros c' [[_ ->]|[Hne Hc']]%lookup_insert_cases; done.
  - intros i c' st [[? ->]|[Hne Hc']]%lookup_insert_cases Hst; [done|].
    by eapply (f_closedS _ _ Hinv).
  - intros i c' Hst [[-> ->]|[Hne Hc']]%lookup_insert_cases.
    + destruct (f_drained _ _ Hinv _ _ Hst Hc) as [_ Hcl]. congruence.
    + by eapply (f_drained _ _ Hinv).
  - intros Hwd c' [[Hn ->]|[Hne Hc']]%lookup_insert_cases.
    + rewrite <- Hn in Hc. destruct (f_drainedW _ _ Hinv Hwd _ Hc) as [_ Hcl]. congruence.
    + by eapply (f_drainedW _ _ Hinv).
  - intros Hx. exfalso. contra_done Hinv Hx.
Qed.

(** A processor returns after its inbound channel was closed. *)
Lemma filtering_proc_returns s i cin :
  filtering p s → procs s !! i = Some PLoop → chans s !! i = Some cin →
  buf cin = [] → closed cin = true →
  filtering p (proc_returns i s).
Proof.
  intros Hinv Hst Hcin Hbuf Hclosed.
  constructor; try by_old Hinv; norm; try done.
  - intros Hx. exfalso. contra_done Hinv Hx.
  - by rewrite length_insert, (f_procs_len _ _ Hinv).
  - by rewrite length_alter, (f_chans_len _ _ Hinv).
  - intros j st [[-> ->]|[Hne Hj]]%lookup_insert_cases; [done|].
    by eapply (f_procs _ _ Hinv).
  - intros k c (c0 & Hc0 & Hb & Hcap & _)%lookup_alter_close.
    eapply chan_ok_same; [done..|]. by eapply (f_chans _ _ Hinv).
  - intros c (c0 & Hc0 & _ & _ & _ & Hcl & _)%lookup_alter_close.
    rewrite Hcl by done. by eapply (f_closed0 _ _ Hinv).
  - intros j c st (c0 & Hc0 & _ & _ & Heq & Hne & _)%lookup_alter_close
      [[-> ->]|[Hj Hpj]]%lookup_insert_cases.
    + by apply Heq.
    + rewrite Hne by congruence. by eapply (f_closedS _ _ Hinv).
  - intros j c [[-> _]|[Hj Hpj]]%lookup_insert_cases
      (c0 & Hc0 & Hb & _ & _ & _ & Hcl)%lookup_alter_close.
    + rewrite Hb. assert (c0 = cin) as -> by congruence. auto.
    + destruct (f_drained _ _ Hinv _ _ Hpj Hc0) as [Hbuf' Hcl']. rewrite Hb. auto.
  - intros Hwd c (c0 & Hc0 & Hb & _ & _ & _ & Hcl)%lookup_alter_close.
    destruct (f_drainedW _ _ Hinv Hwd _ Hc0) as [Hbuf' Hcl']. rewrite Hb. auto.
  - intros Hx. exfalso. contra_done Hinv Hx.
Qed.

(** A processor has taken a batch and either dropped it ([st'] is [PLoop])
    or holds what it made of it ([st'] is [PSend]). *)
Lemma filtering_proc_recv s i c d l st' evs :
  filtering p s → procs s !! i = Some PLoop → chans s !! i = Some c → buf c = d :: l →
  proc_ok (processors p) i st' → proc_done st' = false →
  count is_write evs = 0%nat → count is_flush evs = 0%nat →
  filtering p (set_procs (<[i:=st']> (procs s))
                 (log evs (set_chans (<[i:=set_buf l c]> (chans s)) s))).
Proof.
  intros Hinv Hst Hc Hbuf Hok Hnd Hw Hf.
  constructor; try by_old Hinv; norm; try done.
  - intros Hx. exfalso. contra_done Hinv Hx.
  - by rewrite length_insert, (f_procs_len _ _ Hinv).
  - by rewrite length_insert, (f_chans_len _ _ Hinv).
  - intros j st [[-> ->]|[Hne Hj]]%lookup_insert_cases; [done|].
    by eapply (f_procs _ _ Hinv).
  - intros k c' [[-> ->]|[Hne Hc']]%lookup_insert_cases.
    + eapply chan_ok_tail; [by eapply (f_chans _ _ Hinv) | done].
    + by eapply (f_chans _ _ Hinv).
  - by rewrite count_app, Hw, (f_writes _ _ Hinv).
  - by rewrite count_app, Hf, (f_flush _ _ Hinv), Nat.add_0_r.
  - intros c' [[<- ->]|[Hne Hc']]%lookup_insert_cases; simpl;
      by eapply (f_closed0 _ _ Hinv).
  - intros j c' st Hc' [[-> ->]|[Hj Hpj]]%lookup_insert_cases.
    + apply lookup_insert_cases in Hc' as [[? _]|[_ Hc']]; [lia|].
      rewrite Hnd. by apply (f_closedS _ _ Hinv _ _ _ Hc' Hst).
    + apply lookup_insert_cases in Hc' as [[<- ->]|[_ Hc']]; simpl;
        by eapply (f_closedS _ _ Hinv).
  - intros j c' [[-> <-]|[Hj Hpj]]%lookup_insert_cases Hc'; [done|].
    apply lookup_insert_cases in Hc' as [[? _]|[_ Hc']]; [done|].
    by eapply (f_drained _ _ Hinv).
  - intros Hwd c' [[Hn ->]|[Hne Hc']]%lookup_insert_cases.
    + rewrite <- Hn in Hc. destruct (f_drainedW _ _ Hinv Hwd _ Hc) as [Hb' _]. congruence.
    + by eapply (f_drainedW _ _ Hinv).
  - intros Hx. exfalso. contra_done Hinv Hx.
Qed.

(** A processor has put its batch into its outbound channel. *)
Lemma filtering_proc_send s i batch cout :
  filtering p s → procs s !! i = Some (PSend batch) → chans s !! S i = Some cout →
  filtering p (set_procs (<[i:=PLoop]> (procs s))
                 (set_chans (<[S i:=send batch cout]> (chans s)) s)).
Proof.
  intros Hinv Hst Hc.
  pose proof (f_procs _ _ Hinv _ _ Hst) as Hok. simpl in Hok.
  pose proof (f_closedS _ _ Hinv _ _ _ Hc Hst) as Hopen. simpl in Hopen.
  constructor; try by_old Hinv; norm; try done.
  - intros Hx. exfalso. contra_done Hinv Hx.
  - by rewrite length_insert, (f_procs_len _ _ Hinv).
  - by rewrite length_insert, (f_chans_len _ _ Hinv).
  - intros j st [[-> ->]|[Hne Hj]]%lookup_insert_cases; [done|].
    by eapply (f_procs _ _ Hinv).
  - intros k c' [[-> ->]|[Hne Hc']]%lookup_insert_cases.
    + apply chan_ok_send; [by eapply (f_chans _ _ Hinv) | done].
    + by eapply (f_chans _ _ Hinv).
  - intros c' [[? _]|[Hne Hc']]%lookup_insert_cases; [done|].
    by eapply (f_closed0 _ _ Hinv).
  - intros j c' st Hc' [[-> ->]|[Hj Hpj]]%lookup_insert_cases.
    + apply lookup_insert_cases in Hc' as [[_ ->]|[? _]]; done.
    + apply lookup_insert_cases in Hc' as [[? _]|[_ Hc']]; [congruence|].
      by eapply (f_closedS _ _ Hinv).
  - intros j c' [[-> ?]|[Hj Hpj]]%lookup_insert_cases Hc'; [done|].
    apply lookup_insert_cases in Hc' as [[-> ->]|[_ Hc']].
    + destruct (f_drained _ _ Hinv _ _ Hpj Hc) as [_ Hcl]. congruence.
    + by eapply (f_drained _ _ Hinv).
  - intros Hwd c' [[Hn ->]|[Hne Hc']]%lookup_insert_cases.
    + rewrite <- Hn in Hc. destruct (f_drainedW _ _ Hinv Hwd _ Hc) as [_ Hcl]. congruence.
    + by eapply (f_drainedW _ _ Hinv).
  - intros Hx. exfalso. contra_done Hinv Hx.
Qed.

(** The writer returns after its inbound channel was closed. *)
Lemma filtering_writer_returns s c :
  filtering p s → writer s = WLoop → chans s !! length (processors p) = Some c →
  buf c = [] → closed c = true →
  filtering p (set_writer WDone s).
Proof.
  intros Hinv Hw Hc Hbuf Hclosed.
  constructor; try by_old Hinv; norm; try done.
  - intros Hx. exfalso. contra_done Hinv Hx.
  - intros _ c' Hc'. assert (c' = c) as -> by congruence. done.
  - intros Hx. exfalso. contra_done Hinv Hx.
Qed.

Lemma filtering_waiter s :
  filtering p s → all_done s = true → filtering p (set_done true s).
Proof.
  intros Hinv Hall. constructor; try by_old Hinv; norm; try done.
Qed.

Lemma filtering_main_done s :
  filtering p s → main s = MSelect → done s = true →
  filtering p (execute_returns None (log [EvFlush] s)).
Proof.
  intros Hinv Hm Hd.
  constructor; try by_old Hinv; norm; try done.
  - intros _. by apply (f_done _ _ Hinv).
  - by right.
  - rewrite !count_app, (f_writes _ _ Hinv). done.
  - rewrite !count_app, (f_flush _ _ Hinv), Hm. done.
Qed.

Lemma filtering_proc_drop s i c d l evs :
  filtering p s → procs s !! i = Some PLoop → chans s !! i = Some c → buf c = d :: l →
  count is_write evs = 0%nat → count is_flush evs = 0%nat →
  filtering p (log evs (set_chans (<[i:=set_buf l c]> (chans s)) s)).
Proof.
  intros Hinv Hst Hc Hbuf Hw Hf.
  pose proof (filtering_proc_recv s i c d l PLoop evs Hinv Hst Hc Hbuf I eq_refl Hw Hf) as H.
  unfold set_procs in H. simpl in H. by rewrite (list_insert_id _ _ _ Hst) in H.
Qed.

Lemma reader_ok_next script batch :
  reader_ok (processors p) script RLoop →
  head script = Some (ReadBatch_ok batch) → IsEmpty batch = false →
  reader_ok (processors p) (tail script) (RSend batch).
Proof.
  destruct script as [|r rest]; [done|]. simpl. intros [Hc Hf] [= ->] He.
  rewrite He in Hc, Hf. apply Forall_cons in Hf as [Hb Hf]. done.
Qed.

Lemma proc_ok_next s i processor c d l processed :
  filtering p s → processors p !! i = Some processor → chans s !! i = Some c →
  buf c = d :: l → Process processor d = inl processed → IsEmpty processed = false →
  proc_ok (processors p) i (PSend processed).
Proof.
  intros Hinv Hp Hc Hbuf Hproc He.
  destruct (f_chans _ _ Hinv _ _ Hc) as [Hall _]. rewrite Hbuf in Hall.
  apply Forall_cons in Hall as [Hd _].
  destruct (filtered_by_step _ _ _ _ Hp Hd) as (processed' & Hp' & Hnext).
  assert (processed' = processed) as -> by congruence. simpl. by apply Hnext.
Qed.

Lemma fire_filtering a s s' :
  is_program a = true → filtering p s → fire p a s = Some s' → filtering p s'.
Proof.
  intros Hprog Hinv H.
  destruct a; simpl in H; try discriminate Hprog;
    unfold fire_reader, fire_proc, fire_writer, fire_main in H;
    fire_cases H; try absurd_case Hinv.
  - by apply filtering_reader_returns.
  - apply filtering_reader_read; try done; try (by apply count_save_checkpoint).
    apply reader_ok_next; try done.
    pose proof (f_reader _ _ Hinv) as Hok.
    match goal with Hr : reader s = RLoop |- _ => by rewrite Hr in Hok end.
  - by apply filtering_reader_returns.
  - by apply filtering_reader_returns.
  - by apply filtering_reader_returns.
  - by eapply filtering_reader_send.
  - by eapply filtering_proc_returns.
  - by eapply filtering_proc_drop.
  - eapply filtering_proc_recv; try done. by eapply proc_ok_next.
  - by eapply filtering_proc_send.
  - by eapply filtering_writer_returns.
  - apply filtering_waiter; [done|].
    match goal with Hb : all_done s && _ = true |- _ => by apply andb_prop in Hb as [? _] end.
  - by apply filtering_main_done.
Qed.

(** *** Progress *)

Lemma filtering_ctx_live s : filtering p s → all_done s = false → ctx_done s = false.
Proof.
  intros Hinv Hnd. unfold ctx_done. rewrite (f_ctx _ _ Hinv). simpl.
  destruct (pipelineCtx_cancelled s) eqn:Hc; [|done].
  rewrite (f_cancel _ _ Hinv Hc) in Hnd. discriminate Hnd.
Qed.

Lemma full_nonempty c : (0 < cap c)%Z → has_room c = false → buf c ≠ [].
Proof.
  unfold has_room, len. intros Hcap Hfull Hnil. rewrite Hnil in Hfull. simpl in Hfull.
  apply Z.ltb_ge in Hfull. lia.
Qed.

Lemma lookup_proc s k :
  filtering p s → (k < length (processors p))%nat →
  ∃ st processor cout,
    procs s !! k = Some st ∧ processors p !! k = Some processor ∧
    chans s !! S k = Some cout.
Proof.
  intros Hinv Hk.
  destruct (lookup_lt_is_Some_2 (procs s) k) as [st Hst];
    [by rewrite (f_procs_len _ _ Hinv)|].
  destruct (lookup_lt_is_Some_2 (processors p) k) as [pr Hpr]; [done|].
  destruct (lookup_lt_is_Some_2 (chans s) (S k)) as [cout Hcout];
    [rewrite (f_chans_len _ _ Hinv); lia|].
  eauto 10.
Qed.

Lemma enabled_proc_recv s k st processor c cout d l :
  ctx_done s = false → procs s !! k = Some PLoop → processors p !! k = Some processor →
  chans s !! k = Some c → chans s !! S k = Some cout → buf c = d :: l →
  st = PLoop → enabled p s.
Proof.
  intros Hlive Hst Hpr Hc Hcout Hbuf _. exists (AProcRecv k). split; [done|].
  simpl. unfold fire_proc. rewrite Hst, Hpr, Hc, Hcout, Hbuf. simpl.
  destruct (Process processor d) as [processed|msg]; [|eauto].
  destruct (IsEmpty processed); eauto.
Qed.

(** A batch waiting in a channel can be moved on by some goroutine. *)
Lemma enabled_by_waiting_batch s m k c :
  filtering p s → all_done s = false →
  (length (processors p) - k ≤ m)%nat → (k ≤ length (processors p))%nat →
  chans s !! k = Some c → buf c ≠ [] → enabled p s.
Proof.
  intros Hinv Hnd. revert k c.
  induction m as [|m IH]; intros k c Hm Hk Hc Hne.
  - assert (k = length (processors p)) as -> by lia.
    destruct (f_chans _ _ Hinv _ _ Hc) as [Hall _].
    destruct (buf c) as [|d l]; [done|].
    apply Forall_cons in Hall as [Hd _]. by rewrite filtered_by_end in Hd.
  - destruct (decide (k = length (processors p))) as [->|Hlt].
    { destruct (f_chans _ _ Hinv _ _ Hc) as [Hall _].
      destruct (buf c) as [|d l]; [done|].
      apply Forall_cons in Hall as [Hd _]. by rewrite filtered_by_end in Hd. }
    destruct (lookup_proc s k Hinv ltac:(lia)) as (st & pr & cout & Hst & Hpr & Hcout).
    destruct st as [|batch|e|].
    + destruct (buf c) as [|d l] eqn:Hbuf; [done|].
      eapply enabled_proc_recv; eauto using filtering_ctx_live.
    + destruct (has_room cout) eqn:Hroom.
      * exists (AProcSend k). split; [done|]. simpl. unfold fire_proc.
        rewrite Hst, Hpr, Hc, Hcout, Hroom. eauto.
      * apply (IH (S k) cout); [lia | lia | done |].
        apply full_nonempty; [|done]. by destruct (f_chans _ _ Hinv _ _ Hcout).
    + destruct (f_procs _ _ Hinv _ _ Hst).
    + destruct (f_drained _ _ Hinv _ _ Hst Hc) as [Hb _]. done.
Qed.

(** Behind a closed channel either everything has returned or something
    can act. *)
Lemma enabled_behind_closed s m k c :
  filtering p s → all_done s = false →
  (length (processors p) - k ≤ m)%nat → (k ≤ length (processors p))%nat →
  chans s !! k = Some c → closed c = true →
  (forallb proc_done (drop k (procs s)) = true ∧ writer_done (writer s) = true) ∨ enabled p s.
Proof.
  intros Hinv Hnd. revert k c.
  assert (ctx_done s = false) as Hlive by by apply filtering_ctx_live.
  assert (∀ c, chans s !! length (processors p) = Some c → closed c = true →
          (forallb proc_done (drop (length (processors p)) (procs s)) = true ∧
           writer_done (writer s) = true) ∨ enabled p s) as Hlast.
  { intros c Hc Hcl. rewrite <- (f_procs_len _ _ Hinv), drop_all. simpl.
    destruct (writer s) as [|e|] eqn:Hw.
    - right. destruct (buf c) as [|d l] eqn:Hbuf.
      + exists AWriterClosed. split; [done|]. simpl. unfold fire_writer.
        rewrite Hw, Hc, Hbuf, Hcl. eauto.
      + exists AWriterRecv. split; [done|]. simpl. unfold fire_writer.
        rewrite Hw, Hc, Hbuf. destruct (WriteBatch (output p) d); eauto.
    - pose proof (f_writer _ _ Hinv) as Hbad. by rewrite Hw in Hbad.
    - by left. }
  induction m as [|m IH]; intros k c Hm Hk Hc Hcl.
  - assert (k = length (processors p)) as -> by lia. by apply (Hlast c).
  - destruct (decide (k = length (processors p))) as [->|Hlt]; [by apply (Hlast c)|].
    destruct (lookup_proc s k Hinv ltac:(lia)) as (st & pr & cout & Hst & Hpr & Hcout).
    destruct st as [|batch|e|].
    + right. destruct (buf c) as [|d l] eqn:Hbuf.
      * exists (AProcClosed k). split; [done|]. simpl. unfold fire_proc.
        rewrite Hst, Hpr, Hc, Hcout, Hbuf, Hcl. eauto.
      * eapply enabled_proc_recv; eauto.
    + right. destruct (has_room cout) eqn:Hroom.
      * exists (AProcSend k). split; [done|]. simpl. unfold fire_proc.
        rewrite Hst, Hpr, Hc, Hcout, Hroom. eauto.
      * apply (enabled_by_waiting_batch s (length (processors p)) (S k) cout);
          [done | done | lia | lia | done |].
        apply full_nonempty; [|done]. by destruct (f_chans _ _ Hinv _ _ Hcout).
    + destruct (f_procs _ _ Hinv _ _ Hst).
    + pose proof (f_closedS _ _ Hinv _ _ _ Hcout Hst) as Hcl'. simpl in Hcl'.
      destruct (IH (S k) cout ltac:(lia) ltac:(lia) Hcout Hcl') as [[Hrest Hw]|Hen];
        [|by right].
      left. split; [|done]. rewrite (drop_S _ _ _ Hst). simpl. done.
Qed.

(** While [Execute] has not returned, some goroutine can act. *)
Lemma filtering_progress s :
  filtering p s → (∃ r, main s = MReturned r) ∨ enabled p s.
Proof.
  intros Hinv.
  destruct (f_main _ _ Hinv) as [Hm|Hm]; [|eauto].
  right.
  destruct (done s) eqn:Hd.
  { exists AMainDone. split; [done|]. simpl. unfold fire_main. rewrite Hm, Hd.
    destruct (Flush (output p)); eauto. }
  destruct (all_done s) eqn:Hall.
  { exists AWaiter. split; [done|]. simpl. unfold fire_main. rewrite Hall, Hd.
    destruct (main s); simpl; eauto. }
  assert (ctx_done s = false) as Hlive by by apply filtering_ctx_live.
  destruct (lookup_lt_is_Some_2 (chans s) 0) as [c0 Hc0];
    [rewrite (f_chans_len _ _ Hinv); lia|].
  destruct (reader s) as [|batch|e|] eqn:Hr.
  - exists AReaderRead. split; [done|]. simpl. unfold fire_reader.
    rewrite Hr, Hc0, Hlive. simpl.
    destruct (head (script s)) as [[b| | |msg]|]; eauto.
    destruct (IsEmpty b); eauto.
  - destruct (has_room c0) eqn:Hroom.
    + exists AReaderSend. split; [done|]. simpl. unfold fire_reader.
      rewrite Hr, Hc0, Hroom. eauto.
    + apply (enabled_by_waiting_batch s (length (processors p)) 0%nat c0);
        [done | done | lia | lia | done |].
      apply full_nonempty; [|done]. by destruct (f_chans _ _ Hinv _ _ Hc0).
  - pose proof (f_reader _ _ Hinv) as Hbad. by rewrite Hr in Hbad.
  - pose proof (f_closed0 _ _ Hinv _ Hc0) as Hcl. rewrite Hr in Hcl. simpl in Hcl.
    destruct (enabled_behind_closed s (length (processors p)) 0%nat c0)
      as [[Hps Hw]|Hen]; [done | done | lia | lia | done | done | | done].
    exfalso. unfold all_done in Hall. rewrite Hr, Hw in Hall. simpl in Hall.
    rewrite drop_0 in Hps. by rewrite Hps in Hall.
Qed.

(** *** Every action brings the run closer to its end *)

Lemma chans_measure_insert n k (cs : list Chan) j c c' :
  cs !! j = Some c →
  (chans_measure n k (<[j:=c']> cs) + length (buf c) * weight n (k + j)
   = chans_measure n k cs + length (buf c') * weight n (k + j))%nat.
Proof.
  revert k j. induction cs as [|c0 cs IH]; intros k j Hj; [done|].
  destruct j as [|j]; simpl in *.
  - injection Hj as ->. rewrite Nat.add_0_r. lia.
  - specialize (IH (S k) j Hj). replace (k + S j)%nat with (S k + j)%nat by lia. lia.
Qed.

Lemma chans_measure_close n k (cs : list Chan) j :
  chans_measure n k (alter close j cs) = chans_measure n k cs.
Proof.
  revert k j. induction cs as [|c0 cs IH]; intros k j; [done|].
  destruct j as [|j]; simpl; [done|]. f_equal. apply IH.
Qed.

Lemma procs_measure_insert n k (ps : list ProcState) j st st' :
  ps !! j = Some st →
  (procs_measure n k (<[j:=st']> ps) + proc_measure n (k + j) st
   = procs_measure n k ps + proc_measure n (k + j) st')%nat.
Proof.
  revert k j. induction ps as [|st0 ps IH]; intros k j Hj; [done|].
  destruct j as [|j]; simpl in *.
  - injection Hj as ->. rewrite Nat.add_0_r. lia.
  - specialize (IH (S k) j Hj). replace (k + S j)%nat with (S k + j)%nat by lia. lia.
Qed.

Lemma length_tail_head {A} (l : list A) x :
  head l = Some x → length l = S (length (tail l)).
Proof. by destruct l. Qed.

Lemma fire_measure a s s' :
  is_program a = true →
  length (procs s) = length (processors p) →
  length (chans s) = S (length (processors p)) →
  fire p a s = Some s' → (measure p s' < measure p s)%nat.
Proof.
  intros Hprog Hlp Hlc H.
  destruct a; simpl in H; try discriminate Hprog;
    unfold fire_reader, fire_proc, fire_writer, fire_main in H;
    fire_cases H; unfold measure; norm;
    rewrite ?chans_measure_close;
    repeat match goal with
           | Hc : chans s !! ?j = Some ?c |- context [chans_measure ?n 0 (<[?j:=?c']> (chans s))] =>
               let Hm := fresh "Hm" in
               pose proof (chans_measure_insert n 0 (chans s) j c c' Hc) as Hm;
               simpl in Hm; revert Hm;
               generalize (chans_measure n 0 (<[j:=c']> (chans s)))
           | Hc : procs s !! ?j = Some ?c |- context [procs_measure ?n 0 (<[?j:=?c']> (procs s))] =>
               let Hm := fresh "Hm" in
               pose proof (procs_measure_insert n 0 (procs s) j c c' Hc) as Hm;
               simpl in Hm; revert Hm;
               generalize (procs_measure n 0 (<[j:=c']> (procs s)))
           end;
    intros;
    repeat match goal with
           | Hh : head (script s) = Some _ |- _ => apply length_tail_head in Hh
           | Hh : head (script s) = None |- _ =>
               destruct (script s); [clear Hh | discriminate Hh]
           | Hb : buf _ = _ :: _ |- _ => rewrite Hb in *; clear Hb
           | Hb : buf _ = [] |- _ => rewrite Hb in *; clear Hb
           | Hr : reader s = _ |- _ => rewrite Hr in *; clear Hr
           | Hr : writer s = _ |- _ => rewrite Hr in *; clear Hr
           | Hr : main s = _ |- _ => rewrite Hr in *; clear Hr
           | Hr : done s = _ |- _ => rewrite Hr in *; clear Hr
           end;
    simpl in *; rewrite ?length_app in *; simpl in *.
  all: try lia.
  all: unfold weight in *;
    repeat match goal with
           | Hb : _ && _ = true |- _ => apply andb_prop in Hb as [? ?]
           | Hb : negb (done ?x) = true |- _ => destruct (done x); [discriminate Hb|]
           end; simpl in *.
  all: try lia.
  match goal with
  | Hp : processors p !! _ = Some _ |- _ => apply lookup_lt_Some in Hp
  end.
  nia.
Qed.

Lemma run_filtering schedule s s' :
  forallb is_program schedule = true → filtering p s →
  run p schedule s = Some s' → filtering p s'.
Proof.
  revert s. induction schedule as [|a rest IH]; intros s Hprog Hinv; simpl.
  - by intros [= <-].
  - simpl in Hprog. apply andb_prop in Hprog as [Ha Hrest].
    destruct (fire p a s) as [s1|] eqn:Hf; [|done].
    apply IH; [done|]. by eapply fire_filtering.
Qed.

Lemma run_measure schedule s s' :
  forallb is_program schedule = true → filtering p s →
  run p schedule s = Some s' → (length schedule + measure p s' ≤ measure p s)%nat.
Proof.
  revert s. induction schedule as [|a rest IH]; intros s Hprog Hinv; simpl.
  - intros [= <-]. lia.
  - simpl in Hprog. apply andb_prop in Hprog as [Ha Hrest].
    destruct (fire p a s) as [s1|] eqn:Hf; [|done].
    intros Hrun.
    pose proof (fire_measure a s s1 Ha (f_procs_len _ _ Hinv) (f_chans_len _ _ Hinv) Hf).
    pose proof (IH s1 Hrest (fire_filtering _ _ _ Ha Hinv Hf) Hrun). lia.
Qed.

(** From every state of the run some schedule leads to the return of
    [Execute]. *)
Lemma filtering_completes m s :
  (measure p s ≤ m)%nat → filtering p s →
  ∃ schedule s', forallb is_program schedule = true ∧ run p schedule s = Some s' ∧
                 main s' = MReturned None.
Proof.
  revert s. induction m as [|m IH]; intros s Hm Hinv.
  - destruct (filtering_progress s Hinv) as [[r Hr]|(a & Ha & [s1 Hf])].
    + exists [], s. repeat split; try done.
      destruct (f_main _ _ Hinv) as [Hx|Hx]; congruence.
    + pose proof (fire_measure a s s1 Ha (f_procs_len _ _ Hinv) (f_chans_len _ _ Hinv) Hf).
      lia.
  - destruct (filtering_progress s Hinv) as [[r Hr]|(a & Ha & [s1 Hf])].
    + exists [], s. repeat split; try done.
      destruct (f_main _ _ Hinv) as [Hx|Hx]; congruence.
    + pose proof (fire_measure a s s1 Ha (f_procs_len _ _ Hinv) (f_chans_len _ _ Hinv) Hf).
      destruct (IH s1 ltac:(lia) (fire_filtering _ _ _ Ha Hinv Hf))
        as (rest & s' & Hprog & Hrun & Hret).
      exists (a :: rest), s'. simpl. rewrite Ha, Hf. done.
Qed.

Hypothesis Hin : in_Connect (input p) = None.
Hypothesis Hout : out_Connect (output p) = None.
Hypothesis Hclean : ends_cleanly (reads (input p)) = true.
Hypothesis Hfiltered :
  Forall (λ b, filtered_by (processors p) b = true) (consumed (reads (input p))).
Hypothesis Hcap_in : 0 < inputBufferSize p.
Hypothesis Hcap_proc : 0 < processorBufferSize p.

Lemma start_filtering : filtering p (start p false).
Proof.
  unfold start. rewrite Hin, Hout.
  constructor; simpl; try done.
  - by left.
  - by rewrite length_replicate.
  - by rewrite length_replicate.
  - by intros i st [-> _]%lookup_replicate.
  - intros [|k] c; simpl.
    + intros [= <-]. split; [constructor | done].
    + intros [-> _]%lookup_replicate. split; [constructor | done].
  - by intros c [= <-].
  - by intros i c st [-> _]%lookup_replicate [-> _]%lookup_replicate.
  - by intros i c [? _]%lookup_replicate.
Qed.
End Filter.



End pipeline_props.
